(** * NNUE accumulator stack: a shallow embedding of
      [src/nnue/nnue_accumulator.cpp] and the properties of its
      incremental and refresh kernels.

    Conventions of the embedding.
    - [int16_t] and [int32_t] lanes are integers of [Z]; every arithmetic
      operation wraps explicitly ([wrap 16], [wrap 32]).
    - [std::size_t] values are integers of [Z] taken modulo [2^64].
    - C arrays are lists; a failed [assert] and an access outside an
      array make the computation return [None].
    - [Bitboard] is a 64-bit set of squares held in a [Z].
    - The collaborators that live in other translation units (the feature
      set, the position, the SIMD tiling constants) are interfaces. *)

From stdpp Require Import base numbers option list.

(** ** Chess types *)

Inductive Color := WHITE | BLACK.
Inductive PieceType := PAWN | KNIGHT | BISHOP | ROOK | QUEEN | KING.

Global Instance Color_eq_dec : EqDecision Color.
Proof. solve_decision. Defined.
Global Instance PieceType_eq_dec : EqDecision PieceType.
Proof. solve_decision. Defined.

Definition Piece : Type := Color * PieceType.
Definition make_piece (c : Color) (pt : PieceType) : Piece := (c, pt).

Abbreviation Square := Z (only parsing).
Abbreviation Bitboard := Z (only parsing).
Abbreviation IndexType := nat (only parsing).
Abbreviation IndexList := (list nat) (only parsing).

(** [for (Color c : {WHITE, BLACK})] and
    [for (PieceType pt = PAWN; pt <= KING; ++pt)]. *)
Definition Colors : list Color := [WHITE; BLACK].
Definition PieceTypes : list PieceType := [PAWN; KNIGHT; BISHOP; ROOK; QUEEN; KING].

(** A two-element array indexed by [Color]. *)
Definition set_color {A} (f : Color -> A) (c : Color) (v : A) : Color -> A :=
  fun c' => if decide (c' = c) then v else f c'.

(** ** Machine arithmetic *)

(** Two's complement wrap-around of a [w]-bit signed lane. *)
Definition wrap (w : Z) (x : Z) : Z :=
  ((x + 2 ^ (w - 1)) mod 2 ^ w - 2 ^ (w - 1))%Z.

Definition in_range (w : Z) (x : Z) : Prop :=
  (- 2 ^ (w - 1) <= x < 2 ^ (w - 1))%Z.

(** [std::size_t] arithmetic. *)
Definition size_t_sub (a b : Z) : Z := ((a - b) mod 2 ^ 64)%Z.
Definition size_t_add (a b : Z) : Z := ((a + b) mod 2 ^ 64)%Z.

(** ** SIMD facade *)

(** A vector register is the list of its lanes. *)
Abbreviation vec := (list Z) (only parsing).

(** The build configuration: whether [VECTOR] is defined, the number of
    16-bit lanes of [vec_t], of 32-bit lanes of [psqt_vec_t], and the
    register counts of [SIMDTiling].  Without [VECTOR] the wrappers
    hold one lane. *)
Class SIMD := {
  VECTOR : bool;
  Vec16Lanes : nat;
  Vec32Lanes : nat;
  NumRegs : nat;
  NumPsqtRegs : nat
}.

Definition TileHeight `{SIMD} : nat := NumRegs * Vec16Lanes.
Definition PsqtTileHeight `{SIMD} : nat := NumPsqtRegs * Vec32Lanes.

(** [Vec16Wrapper] and [Vec32Wrapper]: a lane count and a lane width. *)
Record VectorWrapper := { lanes : nat; bits : Z }.
Definition Vec16Wrapper `{SIMD} : VectorWrapper := {| lanes := Vec16Lanes; bits := 16 |}.
Definition Vec32Wrapper `{SIMD} : VectorWrapper := {| lanes := Vec32Lanes; bits := 32 |}.

Definition vec_add (w : Z) (a b : vec) : vec := zip_with (fun x y => wrap w (x + y)) a b.
Definition vec_sub (w : Z) (a b : vec) : vec := zip_with (fun x y => wrap w (x - y)) a b.

Definition vec_add_16 := vec_add 16.
Definition vec_sub_16 := vec_sub 16.
Definition vec_add_psqt_32 := vec_add 32.
Definition vec_sub_psqt_32 := vec_sub 32.

(** Memory seen through a pointer: the lane at each element offset. *)
Abbreviation mem := (nat -> Z) (only parsing).
Definition of_array (a : list Z) : mem := fun i => a !!! i.

(** [reinterpret_cast<const vec_t*>(ptr)[...]]: the [L] lanes at [off]. *)
Definition vec_load (L : nat) (m : mem) (off : nat) : vec :=
  map (fun l => m (off + l)) (seq 0 L).

(** [vec_store(&tile[k], v)]: the lanes of [v] written at [off]. *)
Definition vec_store (a : list Z) (off : nat) (v : vec) : list Z :=
  list_inserts off v a.

Inductive UpdateOperation := Add | Sub.

(** Modelled from the spec: the variadic [fused] of the SIMD facade
    (declared outside this translation unit), "fused(a ± b [± c [± d]])":
    the operations are applied to the running value from left to right. *)
Fixpoint fused (w : Z) (ops : list UpdateOperation) (inp : vec) (operands : list vec) : vec :=
  match ops, operands with
  | op :: ops', operand :: operands' =>
      fused w ops'
        (match op with
         | Add => vec_add w inp operand
         | Sub => vec_sub w inp operand
         end) operands'
  | _, _ => inp
  end.

(** [fused_row_reduce<VectorWrapper, Width, ops...>(in, out, rows...)]. *)
Definition fused_row_reduce (V : VectorWrapper) (Width : nat) (ops : list UpdateOperation)
    (inp : list Z) (out : list Z) (rows : list mem) : list Z :=
  let size := Width `div` lanes V in
  foldl (fun out i =>
           vec_store out (i * lanes V)
             (fused (bits V) ops (vec_load (lanes V) (of_array inp) (i * lanes V))
                (map (fun row => vec_load (lanes V) row (i * lanes V)) rows)))
        out (seq 0 size).

(** ** Feature transformer, accumulators, states *)

Definition PSQTBuckets : nat := 8.

(** [FeatureTransformer<Dimensions, accPtr>]: the read-only weight
    arrays, row-major by feature index. *)
Record FeatureTransformer := {
  Dimensions : nat;
  weights : mem;
  psqtWeights : mem
}.

Record Accumulator := {
  accumulation : Color -> list Z;
  psqtAccumulation : Color -> list Z;
  computed : Color -> bool
}.

Inductive IncUpdateDirection := FORWARD | BACKWARD.

Global Instance IncUpdateDirection_eq_dec : EqDecision IncUpdateDirection.
Proof. solve_decision. Defined.

(** The pointer-to-member template argument. *)
Inductive AccPtr := accumulatorBigPtr | accumulatorSmallPtr.

Global Instance AccPtr_eq_dec : EqDecision AccPtr.
Proof. solve_decision. Defined.

Section Accumulators.

Context {DirtyPiece : Type}.

Record AccumulatorState := {
  accumulatorBig : Accumulator;
  accumulatorSmall : Accumulator;
  dirtyPiece : DirtyPiece
}.

(** [state.*accPtr] as an rvalue and as an lvalue. *)
Definition acc_get (accPtr : AccPtr) (s : AccumulatorState) : Accumulator :=
  match accPtr with
  | accumulatorBigPtr => accumulatorBig s
  | accumulatorSmallPtr => accumulatorSmall s
  end.

Definition acc_set (accPtr : AccPtr) (s : AccumulatorState) (a : Accumulator) : AccumulatorState :=
  match accPtr with
  | accumulatorBigPtr =>
      {| accumulatorBig := a; accumulatorSmall := accumulatorSmall s; dirtyPiece := dirtyPiece s |}
  | accumulatorSmallPtr =>
      {| accumulatorBig := accumulatorBig s; accumulatorSmall := a; dirtyPiece := dirtyPiece s |}
  end.

Definition fill_computed (a : Accumulator) (b : bool) : Accumulator :=
  {| accumulation := accumulation a;
     psqtAccumulation := psqtAccumulation a;
     computed := fun _ => b |}.

(** [AccumulatorState::reset]. *)
Definition AccumulatorState_reset (s : AccumulatorState) (dp : DirtyPiece) : AccumulatorState :=
  {| dirtyPiece := dp;
     accumulatorBig := fill_computed (accumulatorBig s) false;
     accumulatorSmall := fill_computed (accumulatorSmall s) false |}.

End Accumulators.

Arguments AccumulatorState : clear implicits.

(** ** Collaborators declared in other translation units *)

(** [FeatureSet]: the three static functions the accumulator code calls.
    [append_changed_indices] receives the two output lists and returns
    them extended, in the order of its reference parameters. *)
Class FeatureSet (DirtyPiece : Type) := {
  make_index : Color -> Square -> Piece -> Square -> IndexType;
  requires_refresh : DirtyPiece -> Color -> bool;
  append_changed_indices :
    Color -> Square -> DirtyPiece -> IndexList -> IndexList -> IndexList * IndexList
}.

(** [Position]: the read-only queries used here, [pos.square<KING>(c)],
    [pos.pieces(c)], [pos.pieces(pt)] and [pos.pieces(c, pt)]. *)
Record Position := {
  square_KING : Color -> Square;
  pieces_color : Color -> Bitboard;
  pieces_type : PieceType -> Bitboard;
  pieces : Color -> PieceType -> Bitboard
}.

(** ** Bitboards *)

(** [~b] on 64 bits. *)
Definition bb_not (b : Bitboard) : Bitboard := Z.lxor b (Z.ones 64).

Fixpoint ctz (p : positive) : Z :=
  match p with
  | xO q => Z.succ (ctz q)
  | _ => 0%Z
  end.

Definition lsb (b : Bitboard) : Square :=
  match b with
  | Zpos p => ctz p
  | _ => 0%Z
  end.

(** Modelled from the spec: [pop_lsb] of the bitboard header (not part of
    this translation unit) returns the least significant square of a
    nonzero bitboard and clears it, [b &= b - 1]. *)
Definition pop_lsb (b : Bitboard) : Square * Bitboard :=
  (lsb b, Z.land b (b - 1)).

(** [while (bb) { Square sq = pop_lsb(bb); list.push_back(f(sq)); }];
    a 64-bit board is empty after at most 64 rounds. *)
Fixpoint push_squares (fuel : nat) (bb : Bitboard) (f : Square -> IndexType)
    (out : IndexList) : IndexList :=
  match fuel with
  | O => out
  | S fuel' =>
      if (bb =? 0)%Z then out
      else let '(sq, bb') := pop_lsb bb in
           push_squares fuel' bb' f (out ++ [f sq])
  end.

(** ** Refresh cache *)

Record CacheEntry := {
  entry_accumulation : list Z;
  entry_psqtAccumulation : list Z;
  byColorBB : Color -> Bitboard;
  byTypeBB : PieceType -> Bitboard
}.

Definition set_type {A} (f : PieceType -> A) (pt : PieceType) (v : A) : PieceType -> A :=
  fun pt' => if decide (pt' = pt) then v else f pt'.

(** [Cache<Dimensions>], indexed [cache[ksq][perspective]]. *)
Definition Cache := Square -> Color -> CacheEntry.

Definition cache_set (cache : Cache) (ksq : Square) (p : Color) (e : CacheEntry) : Cache :=
  fun k c => if decide (k = ksq /\ c = p) then e else cache k c.

Definition assert (b : bool) : option unit := if b then Some () else None.

(** [list[i]] on an [IndexList]. *)
Definition at_index (l : IndexList) (i : nat) : IndexType := l !!! i.

Section Kernels.

Context {DirtyPiece : Type} `{FS : FeatureSet DirtyPiece} `{HW : SIMD}.

Local Abbreviation State := (AccumulatorState DirtyPiece).

(** ** The incremental kernel *)

(** [AccumulatorUpdateContext::apply<ops...>(indices...)]: [from] is read,
    the perspective's two vectors of [to] are written. *)
Definition apply (Perspective : Color) (accPtr : AccPtr) (featureTransformer : FeatureTransformer)
    (from to : State) (ops : list UpdateOperation) (indices : list IndexType) : State :=
  let to_weight_vector (index : IndexType) : mem :=
    fun j => weights featureTransformer (index * Dimensions featureTransformer + j) in
  let to_psqt_weight_vector (index : IndexType) : mem :=
    fun j => psqtWeights featureTransformer (index * PSQTBuckets + j) in
  let a := acc_get accPtr to in
  let dense :=
    fused_row_reduce Vec16Wrapper (Dimensions featureTransformer) ops
      (accumulation (acc_get accPtr from) Perspective)
      (accumulation a Perspective)
      (map to_weight_vector indices) in
  let psqt :=
    fused_row_reduce Vec32Wrapper PSQTBuckets ops
      (psqtAccumulation (acc_get accPtr from) Perspective)
      (psqtAccumulation a Perspective)
      (map to_psqt_weight_vector indices) in
  acc_set accPtr to
    {| accumulation := set_color (accumulation a) Perspective dense;
       psqtAccumulation := set_color (psqtAccumulation a) Perspective psqt;
       computed := computed a |}.

Definition set_computed (accPtr : AccPtr) (s : State) (Perspective : Color) (b : bool) : State :=
  let a := acc_get accPtr s in
  acc_set accPtr s
    {| accumulation := accumulation a;
       psqtAccumulation := psqtAccumulation a;
       computed := set_color (computed a) Perspective b |}.

(** The index lists of one incremental step, named as in the kernel:
    FORWARD fills (removed, added) from the target's dirty piece,
    BACKWARD fills (added, removed) from the source's. *)
Definition incremental_indices (Perspective : Color) (Direction : IncUpdateDirection)
    (ksq : Square) (target_state computed_state : State) : IndexList * IndexList :=
  match Direction with
  | FORWARD =>
      append_changed_indices Perspective ksq (dirtyPiece target_state) [] []
  | BACKWARD =>
      let '(added, removed) :=
        append_changed_indices Perspective ksq (dirtyPiece computed_state) [] [] in
      (removed, added)
  end.

(** [update_accumulator_incremental<Perspective, Direction>]. *)
Definition update_accumulator_incremental (Perspective : Color) (Direction : IncUpdateDirection)
    (accPtr : AccPtr) (featureTransformer : FeatureTransformer) (ksq : Square)
    (target_state computed_state : State) : option State :=
  let Forward := bool_decide (Direction = FORWARD) in
  let Backward := bool_decide (Direction = BACKWARD) in
  _ ← assert (negb (eqb Forward Backward));
  _ ← assert (computed (acc_get accPtr computed_state) Perspective);
  _ ← assert (negb (computed (acc_get accPtr target_state) Perspective));
  let '(removed, added) :=
    incremental_indices Perspective Direction ksq target_state computed_state in
  _ ← assert ((length added =? 1) || (length added =? 2));
  _ ← assert ((length removed =? 1) || (length removed =? 2));
  _ ← assert (if Forward then length added <=? length removed
              else length removed <=? length added);
  let updateContext := apply Perspective accPtr featureTransformer computed_state target_state in
  updated ←
    (if (Forward && (length removed =? 1)) || (Backward && (length added =? 1)) then
       _ ← assert ((length added =? 1) && (length removed =? 1));
       Some (updateContext [Add; Sub] [at_index added 0; at_index removed 0])
     else if Forward && (length added =? 1) then
       _ ← assert (length removed =? 2);
       Some (updateContext [Add; Sub; Sub] [at_index added 0; at_index removed 0; at_index removed 1])
     else if Backward && (length removed =? 1) then
       _ ← assert (length added =? 2);
       Some (updateContext [Add; Add; Sub] [at_index added 0; at_index added 1; at_index removed 0])
     else
       _ ← assert ((length added =? 2) && (length removed =? 2));
       Some (updateContext [Add; Add; Sub; Sub]
               [at_index added 0; at_index added 1; at_index removed 0; at_index removed 1]));
  Some (set_computed accPtr updated Perspective true).

(** ** The refresh kernel *)

(** The index lists of a refresh: for each (color, piece type) the squares
    that left and the squares that entered, against the entry's boards. *)
Definition refresh_delta (Perspective : Color) (pos : Position) (entry : CacheEntry)
    (ksq : Square) : IndexList * IndexList :=
  foldl (fun lists c =>
    foldl (fun '(removed, added) pt =>
      let piece := make_piece c pt in
      let oldBB := Z.land (byColorBB entry c) (byTypeBB entry pt) in
      let newBB := pieces pos c pt in
      let toRemove := Z.land oldBB (bb_not newBB) in
      let toAdd := Z.land newBB (bb_not oldBB) in
      (push_squares 64 toRemove (fun sq => make_index Perspective sq piece ksq) removed,
       push_squares 64 toAdd (fun sq => make_index Perspective sq piece ksq) added))
      lists PieceTypes)
    ([], []) Colors.

(** [for (j = 0; j < n; ++j) a[j] = f(j, a[j]);] *)
Definition for_each_lane (n : nat) (f : nat -> Z -> Z) (a : list Z) : list Z :=
  foldl (fun a j => <[j := f j (a !!! j)]> a) a (seq 0 n).

(** The path compiled without [VECTOR]: every removed column is
    subtracted from the entry, every added column is added to it. *)
Definition refresh_entry_scalar (featureTransformer : FeatureTransformer)
    (removed added : IndexList) (entry_acc entry_psqt : list Z) : list Z * list Z :=
  let D := Dimensions featureTransformer in
  let after_removed :=
    foldl (fun '(acc, psqt) index =>
      let offset := D * index in
      (for_each_lane D (fun j x => wrap 16 (x - weights featureTransformer (offset + j))) acc,
       for_each_lane PSQTBuckets
         (fun k x => wrap 32 (x - psqtWeights featureTransformer (index * PSQTBuckets + k))) psqt))
      (entry_acc, entry_psqt) removed in
  foldl (fun '(acc, psqt) index =>
    let offset := D * index in
    (for_each_lane D (fun j x => wrap 16 (x + weights featureTransformer (offset + j))) acc,
     for_each_lane PSQTBuckets
       (fun k x => wrap 32 (x + psqtWeights featureTransformer (index * PSQTBuckets + k))) psqt))
    after_removed added.

(** [std::memcpy(dst, src, sizeof(T) * n)]. *)
Definition memcpy (dst src : list Z) (n : nat) : list Z :=
  vec_store dst 0 (vec_load n (of_array src) 0).

(** [std::abs((int) removed.size() - (int) added.size()) == 1
     && removed.size() + added.size() > 2]. *)
Definition combineLast3 (removed added : IndexList) : bool :=
  (Z.abs (Z.of_nat (length removed) - Z.of_nat (length added)) =? 1)%Z
  && (2 <? length removed + length added).

(** The register file [acc[k]] updated for every [k < n]. *)
Definition for_each_reg (n : nat) (f : nat -> vec -> vec) (acc : list vec) : list vec :=
  map (fun k => f k (acc !!! k)) (seq 0 n).

(** One tile of the dense part under [VECTOR]: load the entry's tile in
    registers, fuse, store to the entry and to the accumulator. *)
Definition refresh_tile (featureTransformer : FeatureTransformer)
    (removed added : IndexList) (j : nat) (st : list Z * list Z) : list Z * list Z :=
  let '(accumulation_p, entry_acc) := st in
  let D := Dimensions featureTransformer in
  let L := Vec16Lanes in
  let base := j * TileHeight in
  let column (index : IndexType) (k : nat) : vec :=
    vec_load L (weights featureTransformer) (D * index + base + k * L) in
  let acc0 := map (fun k => vec_load L (of_array entry_acc) (base + k * L)) (seq 0 NumRegs) in
  let bound :=
    Z.to_nat (size_t_sub (Z.of_nat (length removed `min` length added))
                         (if combineLast3 removed added then 1 else 0)) in
  let acc1 :=
    foldl (fun acc i =>
      let columnR := column (at_index removed i) in
      let columnA := column (at_index added i) in
      for_each_reg NumRegs (fun k r => fused 16 [Add; Sub] r [columnA k; columnR k]) acc)
      acc0 (seq 0 bound) in
  let i := bound in
  let acc2 :=
    if combineLast3 removed added then
      let columnR := column (at_index removed i) in
      let columnA := column (at_index added i) in
      if length added <? length removed then
        let columnR2 := column (at_index removed (i + 1)) in
        for_each_reg NumRegs
          (fun k r => fused 16 [Add; Sub; Sub] r [columnA k; columnR k; columnR2 k]) acc1
      else
        let columnA2 := column (at_index added (i + 1)) in
        for_each_reg NumRegs
          (fun k r => fused 16 [Add; Add; Sub] r [columnA k; columnA2 k; columnR k]) acc1
    else
      let after_sub :=
        foldl (fun acc i =>
          for_each_reg NumRegs (fun k r => vec_sub_16 r (column (at_index removed i) k)) acc)
          acc1 (seq i (length removed - i)) in
      let i := i `max` length removed in
      foldl (fun acc i =>
        for_each_reg NumRegs (fun k r => vec_add_16 r (column (at_index added i) k)) acc)
        after_sub (seq i (length added - i)) in
  let store (a : list Z) : list Z :=
    foldl (fun a k => vec_store a (base + k * L) (acc2 !!! k)) a (seq 0 NumRegs) in
  (store accumulation_p, store entry_acc).

(** One tile of the PSQT part under [VECTOR]. *)
Definition refresh_tile_psqt (featureTransformer : FeatureTransformer)
    (removed added : IndexList) (j : nat) (st : list Z * list Z) : list Z * list Z :=
  let '(psqtAccumulation_p, entry_psqt) := st in
  let L := Vec32Lanes in
  let base := j * PsqtTileHeight in
  let columnPsqt (index : IndexType) (k : nat) : vec :=
    vec_load L (psqtWeights featureTransformer) (PSQTBuckets * index + base + k * L) in
  let psqt0 := map (fun k => vec_load L (of_array entry_psqt) (base + k * L)) (seq 0 NumPsqtRegs) in
  let psqt1 :=
    foldl (fun psqt i =>
      for_each_reg NumPsqtRegs
        (fun k r => vec_sub_psqt_32 r (columnPsqt (at_index removed i) k)) psqt)
      psqt0 (seq 0 (length removed)) in
  let psqt2 :=
    foldl (fun psqt i =>
      for_each_reg NumPsqtRegs
        (fun k r => vec_add_psqt_32 r (columnPsqt (at_index added i) k)) psqt)
      psqt1 (seq 0 (length added)) in
  let store (a : list Z) : list Z :=
    foldl (fun a k => vec_store a (base + k * L) (psqt2 !!! k)) a (seq 0 NumPsqtRegs) in
  (store psqtAccumulation_p, store entry_psqt).

(** The result of either path: the perspective's two vectors of the
    accumulator and the two vectors of the cache entry. *)
Record Refreshed := {
  new_accumulation : list Z;
  new_psqtAccumulation : list Z;
  new_entry_accumulation : list Z;
  new_entry_psqtAccumulation : list Z
}.

Definition refresh_vector (featureTransformer : FeatureTransformer) (removed added : IndexList)
    (accumulation_p psqtAccumulation_p : list Z) (entry : CacheEntry) : Refreshed :=
  let '(acc, entry_acc) :=
    foldl (fun st j => refresh_tile featureTransformer removed added j st)
      (accumulation_p, entry_accumulation entry)
      (seq 0 (Dimensions featureTransformer `div` TileHeight)) in
  let '(psqt, entry_psqt) :=
    foldl (fun st j => refresh_tile_psqt featureTransformer removed added j st)
      (psqtAccumulation_p, entry_psqtAccumulation entry)
      (seq 0 (PSQTBuckets `div` PsqtTileHeight)) in
  {| new_accumulation := acc; new_psqtAccumulation := psqt;
     new_entry_accumulation := entry_acc; new_entry_psqtAccumulation := entry_psqt |}.

Definition refresh_scalar (featureTransformer : FeatureTransformer) (removed added : IndexList)
    (accumulation_p psqtAccumulation_p : list Z) (entry : CacheEntry) : Refreshed :=
  let '(entry_acc, entry_psqt) :=
    refresh_entry_scalar featureTransformer removed added
      (entry_accumulation entry) (entry_psqtAccumulation entry) in
  {| new_accumulation := memcpy accumulation_p entry_acc (Dimensions featureTransformer);
     new_psqtAccumulation := memcpy psqtAccumulation_p entry_psqt PSQTBuckets;
     new_entry_accumulation := entry_acc; new_entry_psqtAccumulation := entry_psqt |}.

(** [update_accumulator_refresh_cache<Perspective>]. *)
Definition update_accumulator_refresh_cache (Perspective : Color) (accPtr : AccPtr)
    (featureTransformer : FeatureTransformer) (pos : Position)
    (accumulatorState : State) (cache : Cache) : State * Cache :=
  let ksq := square_KING pos Perspective in
  let entry := cache ksq Perspective in
  let '(removed, added) := refresh_delta Perspective pos entry ksq in
  let accumulator := acc_get accPtr (set_computed accPtr accumulatorState Perspective true) in
  let r :=
    (if VECTOR then refresh_vector else refresh_scalar) featureTransformer removed added
      (accumulation accumulator Perspective) (psqtAccumulation accumulator Perspective) entry in
  let accumulator' :=
    {| accumulation := set_color (accumulation accumulator) Perspective (new_accumulation r);
       psqtAccumulation :=
         set_color (psqtAccumulation accumulator) Perspective (new_psqtAccumulation r);
       computed := computed accumulator |} in
  let entry' :=
    {| entry_accumulation := new_entry_accumulation r;
       entry_psqtAccumulation := new_entry_psqtAccumulation r;
       byColorBB := foldl (fun bb c => set_color bb c (pieces_color pos c)) (byColorBB entry) Colors;
       byTypeBB :=
         foldl (fun bb pt => set_type bb pt (pieces_type pos pt)) (byTypeBB entry) PieceTypes |} in
  (acc_set accPtr accumulatorState accumulator', cache_set cache ksq Perspective entry').

End Kernels.

(** ** The accumulator stack *)

Record Networks := { big : FeatureTransformer; small : FeatureTransformer }.
Record AccumulatorCaches := { caches_big : Cache; caches_small : Cache }.

Section Stack.

Context {DirtyPiece : Type} `{FS : FeatureSet DirtyPiece} `{HW : SIMD}.

Local Abbreviation State := (AccumulatorState DirtyPiece).

Record AccumulatorStack := {
  m_accumulators : list State;
  m_current_idx : Z
}.

(** [m_accumulators[i]] read and written, [i] a [std::size_t]. *)
Definition stack_at (s : AccumulatorStack) (i : Z) : option State :=
  m_accumulators s !! Z.to_nat i.

Definition stack_set (s : AccumulatorStack) (i : Z) (st : State) : AccumulatorStack :=
  {| m_accumulators := <[Z.to_nat i := st]> (m_accumulators s);
     m_current_idx := m_current_idx s |}.

Definition stack_size (s : AccumulatorStack) : Z := Z.of_nat (length (m_accumulators s)).

(** [latest()] and [mut_latest()]. *)
Definition latest (s : AccumulatorStack) : option State :=
  stack_at s (size_t_sub (m_current_idx s) 1).

(** [AccumulatorStack::reset]. *)
Definition AccumulatorStack_reset (s : AccumulatorStack) (rootPos : Position)
    (networks : Networks) (caches : AccumulatorCaches)
    : option (AccumulatorStack * AccumulatorCaches) :=
  let s := {| m_accumulators := m_accumulators s; m_current_idx := 1 |} in
  root ← stack_at s 0;
  let '(root, cbig) :=
    update_accumulator_refresh_cache WHITE accumulatorBigPtr (big networks) rootPos root
      (caches_big caches) in
  let '(root, cbig) :=
    update_accumulator_refresh_cache BLACK accumulatorBigPtr (big networks) rootPos root cbig in
  let '(root, csmall) :=
    update_accumulator_refresh_cache WHITE accumulatorSmallPtr (small networks) rootPos root
      (caches_small caches) in
  let '(root, csmall) :=
    update_accumulator_refresh_cache BLACK accumulatorSmallPtr (small networks) rootPos root
      csmall in
  Some (stack_set s 0 root, {| caches_big := cbig; caches_small := csmall |}).

(** [AccumulatorStack::push]. *)
Definition push (s : AccumulatorStack) (dp : DirtyPiece) : option AccumulatorStack :=
  _ ← assert (size_t_add (m_current_idx s) 1 <? stack_size s)%Z;
  st ← stack_at s (m_current_idx s);
  let s := stack_set s (m_current_idx s) (AccumulatorState_reset st dp) in
  Some {| m_accumulators := m_accumulators s;
          m_current_idx := size_t_add (m_current_idx s) 1 |}.

(** [AccumulatorStack::pop]. *)
Definition pop (s : AccumulatorStack) : option AccumulatorStack :=
  _ ← assert (1 <? m_current_idx s)%Z;
  Some {| m_accumulators := m_accumulators s;
          m_current_idx := size_t_sub (m_current_idx s) 1 |}.

(** The loop of [find_last_usable_accumulator], from [curr_idx] down. *)
Fixpoint find_last_usable_loop (fuel : nat) (Perspective : Color) (accPtr : AccPtr)
    (s : AccumulatorStack) (curr_idx : Z) : option Z :=
  if (0 <? curr_idx)%Z then
    match fuel with
    | O => None
    | S fuel' =>
        st ← stack_at s curr_idx;
        if computed (acc_get accPtr st) Perspective then Some curr_idx
        else if requires_refresh (dirtyPiece st) Perspective then Some curr_idx
        else find_last_usable_loop fuel' Perspective accPtr s (size_t_sub curr_idx 1)
    end
  else Some 0%Z.

Definition find_last_usable_accumulator (Perspective : Color) (accPtr : AccPtr)
    (s : AccumulatorStack) : option Z :=
  find_last_usable_loop (length (m_accumulators s)) Perspective accPtr s
    (size_t_sub (m_current_idx s) 1).

(** The loop of [forward_update_incremental], from [next] up. *)
Fixpoint forward_loop (fuel : nat) (Perspective : Color) (accPtr : AccPtr)
    (featureTransformer : FeatureTransformer) (ksq : Square)
    (s : AccumulatorStack) (next : Z) : option AccumulatorStack :=
  if (next <? m_current_idx s)%Z then
    match fuel with
    | O => None
    | S fuel' =>
        target ← stack_at s next;
        source ← stack_at s (size_t_sub next 1);
        target ← update_accumulator_incremental Perspective FORWARD accPtr
                   featureTransformer ksq target source;
        forward_loop fuel' Perspective accPtr featureTransformer ksq
          (stack_set s next target) (size_t_add next 1)
    end
  else Some s.

Definition is_computed (Perspective : Color) (accPtr : AccPtr) (st : option State) : bool :=
  match st with
  | Some st => computed (acc_get accPtr st) Perspective
  | None => false
  end.

Definition forward_update_incremental (Perspective : Color) (accPtr : AccPtr) (pos : Position)
    (featureTransformer : FeatureTransformer) (begin : Z) (s : AccumulatorStack)
    : option AccumulatorStack :=
  _ ← assert (begin <? stack_size s)%Z;
  _ ← assert (is_computed Perspective accPtr (stack_at s begin));
  let ksq := square_KING pos Perspective in
  s ← forward_loop (length (m_accumulators s)) Perspective accPtr featureTransformer ksq s
        (size_t_add begin 1);
  _ ← assert (is_computed Perspective accPtr (latest s));
  Some s.

(** The loop of [backward_update_incremental], from [next] down to [end_]. *)
Fixpoint backward_loop (fuel : nat) (Perspective : Color) (accPtr : AccPtr)
    (featureTransformer : FeatureTransformer) (ksq : Square) (end_ : Z)
    (s : AccumulatorStack) (next : Z) : option AccumulatorStack :=
  if (end_ <=? next)%Z then
    match fuel with
    | O => None
    | S fuel' =>
        target ← stack_at s next;
        source ← stack_at s (size_t_add next 1);
        target ← update_accumulator_incremental Perspective BACKWARD accPtr
                   featureTransformer ksq target source;
        backward_loop fuel' Perspective accPtr featureTransformer ksq end_
          (stack_set s next target) (size_t_sub next 1)
    end
  else Some s.

Definition backward_update_incremental (Perspective : Color) (accPtr : AccPtr) (pos : Position)
    (featureTransformer : FeatureTransformer) (end_ : Z) (s : AccumulatorStack)
    : option AccumulatorStack :=
  _ ← assert (end_ <? stack_size s)%Z;
  _ ← assert (end_ <? m_current_idx s)%Z;
  _ ← assert (is_computed Perspective accPtr (latest s));
  let ksq := square_KING pos Perspective in
  s ← backward_loop (length (m_accumulators s)) Perspective accPtr featureTransformer ksq end_ s
        (size_t_sub (m_current_idx s) 2);
  _ ← assert (is_computed Perspective accPtr (stack_at s end_));
  Some s.

(** [AccumulatorStack::evaluate_side<Perspective>]. *)
Definition evaluate_side (Perspective : Color) (accPtr : AccPtr) (pos : Position)
    (featureTransformer : FeatureTransformer) (cache : Cache) (s : AccumulatorStack)
    : option (AccumulatorStack * Cache) :=
  last_usable_accum ← find_last_usable_accumulator Perspective accPtr s;
  usable ← stack_at s last_usable_accum;
  if computed (acc_get accPtr usable) Perspective then
    s ← forward_update_incremental Perspective accPtr pos featureTransformer last_usable_accum s;
    Some (s, cache)
  else
    let i := size_t_sub (m_current_idx s) 1 in
    st ← stack_at s i;
    let '(st, cache) :=
      update_accumulator_refresh_cache Perspective accPtr featureTransformer pos st cache in
    s ← backward_update_incremental Perspective accPtr pos featureTransformer last_usable_accum
          (stack_set s i st);
    Some (s, cache).

(** [AccumulatorStack::evaluate<Dimensions, accPtr>]. *)
Definition evaluate (accPtr : AccPtr) (pos : Position)
    (featureTransformer : FeatureTransformer) (cache : Cache) (s : AccumulatorStack)
    : option (AccumulatorStack * Cache) :=
  '(s, cache) ← evaluate_side WHITE accPtr pos featureTransformer cache s;
  evaluate_side BLACK accPtr pos featureTransformer cache s.

End Stack.

Arguments AccumulatorStack : clear implicits.

(** * Specification vocabulary

    The functions below are not part of the program: they describe, lane
    by lane, what the kernels compute, and state the conditions under
    which the program is used. *)

Global Arguments PSQTBuckets : simpl never.

(** ** Lane arithmetic *)

(** One lane of [fused]. *)
Fixpoint fused_lane (w : Z) (ops : list UpdateOperation) (x : Z) (ys : list Z) : Z :=
  match ops, ys with
  | op :: ops', y :: ys' =>
      fused_lane w ops'
        (match op with Add => wrap w (x + y) | Sub => wrap w (x - y) end) ys'
  | _, _ => x
  end.

(** The operands of a fused operation, summed with their signs. *)
Fixpoint signed_sum (ops : list UpdateOperation) (ys : list Z) : Z :=
  match ops, ys with
  | Add :: ops', y :: ys' => (y + signed_sum ops' ys')%Z
  | Sub :: ops', y :: ys' => (- y + signed_sum ops' ys')%Z
  | _, _ => 0%Z
  end.

(** Lane [j] of [fused_row_reduce]. *)
Definition fused_row_lane (w : Z) (ops : list UpdateOperation) (inp : list Z)
    (rows : list mem) (j : nat) : Z :=
  fused_lane w ops (inp !!! j) (map (fun row => row j) rows).

(** A run of wrapping additions of signed deltas. *)
Definition apply_deltas (w : Z) (x : Z) (ds : list Z) : Z :=
  foldl (fun x d => wrap w (x + d)) x ds.

Definition Zsum (l : list Z) : Z := foldr Z.add 0%Z l.

(** Lane [k] of the columns of [indices], summed in [Z] (no wrap). *)
Definition column_sum (m : mem) (stride : nat) (indices : IndexList) (k : nat) : Z :=
  Zsum (map (fun i => m (i * stride + k)) indices).

(** Lane [j] of the column of the [i]-th index of a list. *)
Definition column_at (m : mem) (D : nat) (l : IndexList) (j i : nat) : Z :=
  m (D * at_index l i + j).

(** ** The incremental kernel *)

(** The contract of [append_changed_indices] that the kernel asserts. *)
Definition sizes_contract (Direction : IncUpdateDirection) (removed added : IndexList) : Prop :=
  (length added = 1 \/ length added = 2) /\
  (length removed = 1 \/ length removed = 2) /\
  match Direction with
  | FORWARD => length added <= length removed
  | BACKWARD => length removed <= length added
  end.

(** The vector wrappers cover the arrays exactly. *)
Definition lanes_ok `{SIMD} (D : nat) : Prop :=
  0 < Vec16Lanes /\ D `mod` Vec16Lanes = 0 /\
  0 < Vec32Lanes /\ PSQTBuckets `mod` Vec32Lanes = 0.

(** The tiles cover the arrays exactly (the static assertions of
    [SIMDTiling]). *)
Definition tiling_ok `{SIMD} (D : nat) : Prop :=
  0 < TileHeight /\ D `mod` TileHeight = 0 /\
  0 < PsqtTileHeight /\ PSQTBuckets `mod` PsqtTileHeight = 0.

Definition simd_ok `{SIMD} (D : nat) : Prop :=
  lanes_ok D /\ (VECTOR = true -> tiling_ok D).

(** [src[k] + sum of added columns - sum of removed columns], wrapped. *)
Definition incremental_dense (m : mem) (stride : nat) (w : Z) (src : list Z)
    (removed added : IndexList) (n : nat) : list Z :=
  map (fun k => wrap w (src !!! k + column_sum m stride added k - column_sum m stride removed k))
      (seq 0 n).

Section SpecKernels.

Context {DirtyPiece : Type} `{FS : FeatureSet DirtyPiece} `{HW : SIMD}.

Local Abbreviation State := (AccumulatorState DirtyPiece).

(** What the incremental kernel writes, as one expression. *)
Definition incremental_result (p : Color) (accPtr : AccPtr) (ft : FeatureTransformer)
    (target source : State) (removed added : IndexList) : State :=
  let a := acc_get accPtr target in
  acc_set accPtr target
    {| accumulation :=
         set_color (accumulation a) p
           (incremental_dense (weights ft) (Dimensions ft) 16
              (accumulation (acc_get accPtr source) p) removed added (Dimensions ft));
       psqtAccumulation :=
         set_color (psqtAccumulation a) p
           (incremental_dense (psqtWeights ft) PSQTBuckets 32
              (psqtAccumulation (acc_get accPtr source) p) removed added PSQTBuckets);
       computed := set_color (computed a) p true |}.

(** ** The refresh kernel, lane by lane *)

(** The register file whose lane [base + k * L + l] holds [g] of it. *)
Definition regs (L n base : nat) (g : nat -> Z) : list vec :=
  map (fun k => map (fun l => g (base + k * L + l)) (seq 0 L)) (seq 0 n).

(** An array with the [n] lanes from [base] replaced by [h]. *)
Definition splice (a : list Z) (base n : nat) (h : nat -> Z) : list Z :=
  take base a ++ map h (seq base n) ++ drop (base + n) a.

(** The number of fused add-sub pairs of the vector path. *)
Definition paired_bound (removed added : IndexList) : nat :=
  Z.to_nat (size_t_sub (Z.of_nat (length removed `min` length added))
                       (if combineLast3 removed added then 1 else 0)).

(** One lane of the fused dense path. *)
Definition refresh_lane_fused (m : mem) (D : nat) (removed added : IndexList)
    (j : nat) (x : Z) : Z :=
  let a i := m (D * at_index added i + j) in
  let r i := m (D * at_index removed i + j) in
  let bound := paired_bound removed added in
  let x1 := foldl (fun x i => fused_lane 16 [Add; Sub] x [a i; r i]) x (seq 0 bound) in
  if combineLast3 removed added then
    if length added <? length removed
    then fused_lane 16 [Add; Sub; Sub] x1 [a bound; r bound; r (bound + 1)]
    else fused_lane 16 [Add; Add; Sub] x1 [a bound; a (bound + 1); r bound]
  else
    foldl (fun x i => fused_lane 16 [Add] x [a i])
      (foldl (fun x i => fused_lane 16 [Sub] x [r i]) x1 (seq bound (length removed - bound)))
      (seq (bound `max` length removed) (length added - bound `max` length removed)).

(** One lane of the PSQT part of the vector path. *)
Definition refresh_lane_psqt (m : mem) (D : nat) (removed added : IndexList)
    (j : nat) (x : Z) : Z :=
  foldl (fun x i => fused_lane 32 [Add] x [m (D * at_index added i + j)])
    (foldl (fun x i => fused_lane 32 [Sub] x [m (D * at_index removed i + j)])
       x (seq 0 (length removed)))
    (seq 0 (length added)).

(** One lane of the straightforward sequence: every removed column is
    subtracted, then every added column is added. *)
Definition refresh_lane (w : Z) (m : mem) (stride : nat) (removed added : IndexList)
    (j : nat) (x : Z) : Z :=
  foldl (fun x index => wrap w (x + m (stride * index + j)))
    (foldl (fun x index => wrap w (x - m (stride * index + j))) x removed) added.

(** ** Bitboards and features *)

Definition bb_ok (bb : Bitboard) : Prop := (0 <= bb < 2 ^ 64)%Z.

(** The squares of a bitboard, in increasing order. *)
Definition squares (bb : Bitboard) : list Square :=
  List.filter (fun sq => Z.testbit bb sq) (seqZ 0 64).

(** The feature indices of a placement given by one board per
    (color, piece type), seen from [p] with the king on [ksq]. *)
Definition features_of (p : Color) (ksq : Square) (bbs : Color -> PieceType -> Bitboard)
    : IndexList :=
  concat (map (fun c =>
    concat (map (fun pt =>
      map (fun sq => make_index p sq (make_piece c pt) ksq) (squares (bbs c pt)))
      PieceTypes)) Colors).

(** The features active in [pos] from perspective [p]. *)
Definition active_features (p : Color) (pos : Position) : IndexList :=
  features_of p (square_KING pos p) (pieces pos).

(** The placement a cache entry stores. *)
Definition stored_boards (entry : CacheEntry) : Color -> PieceType -> Bitboard :=
  fun c pt => Z.land (byColorBB entry c) (byTypeBB entry pt).

(** [old & ~new], per (color, piece type). *)
Definition to_remove (old new : Color -> PieceType -> Bitboard)
    : Color -> PieceType -> Bitboard :=
  fun c pt => Z.land (old c pt) (bb_not (new c pt)).

(** The transform of a feature list from scratch: lane [k] is the sum of
    lane [k] of the columns of the features, in [w]-bit arithmetic. *)
Definition full_transform (w : Z) (m : mem) (stride : nat) (features : IndexList) (n : nat)
    : list Z :=
  map (fun k => wrap w (column_sum m stride features k)) (seq 0 n).

Definition dense_of (ft : FeatureTransformer) (features : IndexList) : list Z :=
  full_transform 16 (weights ft) (Dimensions ft) features (Dimensions ft).

Definition psqt_of (ft : FeatureTransformer) (features : IndexList) : list Z :=
  full_transform 32 (psqtWeights ft) PSQTBuckets features PSQTBuckets.

(** The queries of a position agree with each other and fit 64 bits. *)
Definition pos_ok (pos : Position) : Prop :=
  (forall c, bb_ok (pieces_color pos c)) /\
  (forall c pt, pieces pos c pt = Z.land (pieces_color pos c) (pieces_type pos pt)).

(** The invariant of a cache entry: its snapshot is the transform of the
    placement it stores, seen from [p] with the king on [ksq]. *)
Definition entry_ok (ft : FeatureTransformer) (p : Color) (ksq : Square) (entry : CacheEntry)
    : Prop :=
  (forall c, bb_ok (byColorBB entry c)) /\
  entry_accumulation entry = dense_of ft (features_of p ksq (stored_boards entry)) /\
  entry_psqtAccumulation entry = psqt_of ft (features_of p ksq (stored_boards entry)).

Definition cache_ok (ft : FeatureTransformer) (cache : Cache) : Prop :=
  forall ksq p, entry_ok ft p ksq (cache ksq p).

(** The arrays of an accumulator have their declared sizes. *)
Definition acc_sized (D : nat) (a : Accumulator) : Prop :=
  forall p, length (accumulation a p) = D /\ length (psqtAccumulation a p) = PSQTBuckets.

(** The state a refresh leaves. *)
Definition refreshed_state (p : Color) (accPtr : AccPtr) (ft : FeatureTransformer)
    (pos : Position) (st : State) : State :=
  let a := acc_get accPtr st in
  acc_set accPtr st
    {| accumulation := set_color (accumulation a) p (dense_of ft (active_features p pos));
       psqtAccumulation := set_color (psqtAccumulation a) p (psqt_of ft (active_features p pos));
       computed := set_color (computed a) p true |}.

End SpecKernels.

(** ** The stack and its caller *)

Section SpecStack.

Context {DirtyPiece : Type} `{FS : FeatureSet DirtyPiece} `{HW : SIMD}.

Local Abbreviation State := (AccumulatorState DirtyPiece).
Local Abbreviation Stack := (AccumulatorStack DirtyPiece).

(** The transformer and the cache that go with an accumulator selector,
    as in the two explicit instantiations of [evaluate]. *)
Definition net_of (networks : Networks) (accPtr : AccPtr) : FeatureTransformer :=
  match accPtr with
  | accumulatorBigPtr => big networks
  | accumulatorSmallPtr => small networks
  end.

Definition cache_of (caches : AccumulatorCaches) (accPtr : AccPtr) : Cache :=
  match accPtr with
  | accumulatorBigPtr => caches_big caches
  | accumulatorSmallPtr => caches_small caches
  end.

Definition set_cache (caches : AccumulatorCaches) (accPtr : AccPtr) (c : Cache)
    : AccumulatorCaches :=
  match accPtr with
  | accumulatorBigPtr => {| caches_big := c; caches_small := caches_small caches |}
  | accumulatorSmallPtr => {| caches_big := caches_big caches; caches_small := c |}
  end.

(** Modelled from the spec: the caller of the stack (the search, outside
    this translation unit) calls [push] before each move, [pop] on undo
    and [evaluate] once per network size.  [OpPush] also records the
    position the move leads to; the stack never sees it. *)
Inductive Op :=
  | OpPush (dp : DirtyPiece) (after : Position)
  | OpPop
  | OpEvaluate (accPtr : AccPtr) (pos : Position).

Definition run_op (networks : Networks) (op : Op) (w : Stack * AccumulatorCaches)
    : option (Stack * AccumulatorCaches) :=
  let '(s, caches) := w in
  match op with
  | OpPush dp _ => s ← push s dp; Some (s, caches)
  | OpPop => s ← pop s; Some (s, caches)
  | OpEvaluate accPtr pos =>
      '(s, c) ← evaluate accPtr pos (net_of networks accPtr) (cache_of caches accPtr) s;
      Some (s, set_cache caches accPtr c)
  end.

Fixpoint run_ops (networks : Networks) (ops : list Op) (w : Stack * AccumulatorCaches)
    : option (Stack * AccumulatorCaches) :=
  match ops with
  | [] => Some w
  | op :: ops => w ← run_op networks op w; run_ops networks ops w
  end.

(** The positions on the search path after a run of operations. *)
Fixpoint path_after (path : list Position) (ops : list Op) : list Position :=
  match ops with
  | [] => path
  | OpPush _ after :: ops => path_after (path ++ [after]) ops
  | OpPop :: ops => path_after (removelast path) ops
  | OpEvaluate _ _ :: ops => path_after path ops
  end.

(** "Deltas consistent with the positions": when the move does not call
    for a refresh from [p], the king of [p] stays, the index lists obey
    the size contract, and they turn the features of [prev] into those
    of [next]. *)
Definition delta_ok (p : Color) (dp : DirtyPiece) (prev next : Position) : Prop :=
  requires_refresh dp p = false ->
  square_KING next p = square_KING prev p /\
  exists removed added,
    append_changed_indices p (square_KING next p) dp [] [] = (removed, added) /\
    sizes_contract FORWARD removed added /\
    active_features p next ++ removed ≡ₚ active_features p prev ++ added.

(** The operations respect the preconditions of the stack: depth bounds,
    deltas consistent with the positions, and [evaluate] called on the
    current position. *)
Fixpoint ops_ok (capacity : nat) (path : list Position) (ops : list Op) : Prop :=
  match ops with
  | [] => True
  | OpPush dp after :: ops =>
      length path + 1 < capacity /\ pos_ok after /\
      (exists prev, last path = Some prev /\ forall p, delta_ok p dp prev after) /\
      ops_ok capacity (path ++ [after]) ops
  | OpPop :: ops => 1 < length path /\ ops_ok capacity (removelast path) ops
  | OpEvaluate _ pos :: ops => last path = Some pos /\ ops_ok capacity path ops
  end.

(** ** Invariants of the stack *)

Definition flags_le (st st' : State) : Prop :=
  forall accPtr p,
    computed (acc_get accPtr st) p = true -> computed (acc_get accPtr st') p = true.

Definition root_computed (s : Stack) : Prop :=
  exists root, m_accumulators s !! 0 = Some root /\
    forall accPtr p, computed (acc_get accPtr root) p = true.

Definition idx_ok (s : Stack) : Prop :=
  (1 <= m_current_idx s <= stack_size s)%Z /\ (stack_size s < 2 ^ 64)%Z.

Definition state_sized (networks : Networks) (st : State) : Prop :=
  forall accPtr, acc_sized (Dimensions (net_of networks accPtr)) (acc_get accPtr st).

Definition stack_sized (networks : Networks) (s : Stack) : Prop :=
  forall i st, m_accumulators s !! i = Some st -> state_sized networks st.

(** Every computed accumulator holds the transform of its position. *)
Definition state_ok (networks : Networks) (pos : Position) (st : State) : Prop :=
  forall accPtr p,
    computed (acc_get accPtr st) p = true ->
    accumulation (acc_get accPtr st) p
      = dense_of (net_of networks accPtr) (active_features p pos) /\
    psqtAccumulation (acc_get accPtr st) p
      = psqt_of (net_of networks accPtr) (active_features p pos).

Definition stack_inv (networks : Networks) (path : list Position) (s : Stack) : Prop :=
  idx_ok s /\
  m_current_idx s = Z.of_nat (length path) /\
  stack_sized networks s /\
  (forall i st pos,
     m_accumulators s !! i = Some st -> path !! i = Some pos ->
     state_ok networks pos st /\ pos_ok pos) /\
  (forall i st prev pos,
     m_accumulators s !! (S i) = Some st -> path !! i = Some prev ->
     path !! (S i) = Some pos -> forall p, delta_ok p (dirtyPiece st) prev pos) /\
  root_computed s.

Definition caches_ok (networks : Networks) (caches : AccumulatorCaches) : Prop :=
  forall accPtr, cache_ok (net_of networks accPtr) (cache_of caches accPtr).

Definition nets_ok (networks : Networks) : Prop :=
  forall accPtr, simd_ok (Dimensions (net_of networks accPtr)).

(** The spec's initial cache: an all-zero snapshot with zero bitboards. *)
Definition empty_cache (D : nat) : Cache :=
  fun _ _ =>
    {| entry_accumulation := replicate D 0%Z;
       entry_psqtAccumulation := replicate PSQTBuckets 0%Z;
       byColorBB := fun _ => 0%Z;
       byTypeBB := fun _ => 0%Z |}.

(** A refresh from scratch: the refresh kernel run on the initial cache. *)
Definition refresh_from_scratch (p : Color) (accPtr : AccPtr) (ft : FeatureTransformer)
    (pos : Position) (st : State) : State :=
  fst (update_accumulator_refresh_cache p accPtr ft pos st (empty_cache (Dimensions ft))).

End SpecStack.

Arguments Op : clear implicits.

Section SpecPropagation.

Context {DirtyPiece : Type} `{FS : FeatureSet DirtyPiece} `{HW : SIMD}.

Local Abbreviation State := (AccumulatorState DirtyPiece).
Local Abbreviation Stack := (AccumulatorStack DirtyPiece).

(** The test of [find_last_usable_accumulator] on one state. *)
Definition usable (p : Color) (accPtr : AccPtr) (st : State) : bool :=
  computed (acc_get accPtr st) p || requires_refresh (dirtyPiece st) p.

(** [k] is the largest index below [current_idx] whose state is computed
    or, for [k > 0], whose dirty piece requires a refresh; 0 if none. *)
Definition is_last_usable (p : Color) (accPtr : AccPtr) (s : Stack) (k : nat) : Prop :=
  (Z.of_nat k < m_current_idx s)%Z /\
  (k = 0 \/ exists st, m_accumulators s !! k = Some st /\ usable p accPtr st = true) /\
  (forall j st, k < j -> (Z.of_nat j < m_current_idx s)%Z ->
     m_accumulators s !! j = Some st -> usable p accPtr st = false).

(** One incremental update inside the stack: into [states[i]] from its
    predecessor (FORWARD) or from its successor (BACKWARD). *)
Definition propagate_step (Direction : IncUpdateDirection) (p : Color) (accPtr : AccPtr)
    (ft : FeatureTransformer) (ksq : Square) (s : Stack) (i : nat) : option Stack :=
  target ← m_accumulators s !! i;
  source ← m_accumulators s !! (match Direction with FORWARD => i - 1 | BACKWARD => i + 1 end);
  target ← update_accumulator_incremental p Direction accPtr ft ksq target source;
  Some (stack_set s (Z.of_nat i) target).

Fixpoint propagate (Direction : IncUpdateDirection) (p : Color) (accPtr : AccPtr)
    (ft : FeatureTransformer) (ksq : Square) (indices : list nat) (s : Stack)
    : option Stack :=
  match indices with
  | [] => Some s
  | i :: indices =>
      s ← propagate_step Direction p accPtr ft ksq s i;
      propagate Direction p accPtr ft ksq indices s
  end.

(** [evaluate] for one perspective as the spec words it, from the index
    [k] of the last usable state: forward over the open interval
    (k, current_idx), or a refresh of the latest state and then backward
    from [current_idx - 2] down to [k]. *)
Definition evaluate_side_spec (p : Color) (accPtr : AccPtr) (pos : Position)
    (ft : FeatureTransformer) (cache : Cache) (s : Stack) (k : nat)
    : option (Stack * Cache) :=
  let ksq := square_KING pos p in
  let n := Z.to_nat (m_current_idx s) in
  usable ← m_accumulators s !! k;
  if computed (acc_get accPtr usable) p then
    s ← propagate FORWARD p accPtr ft ksq (seq (k + 1) (n - 1 - k)) s;
    Some (s, cache)
  else
    st ← m_accumulators s !! (n - 1);
    let '(st, cache) := update_accumulator_refresh_cache p accPtr ft pos st cache in
    s ← propagate BACKWARD p accPtr ft ksq (rev (seq k (n - 1 - k)))
          (stack_set s (Z.of_nat (n - 1)) st);
    Some (s, cache).

(** The indices [backward_update_incremental] passes to the kernel, as
    (target, source) pairs, from the loop header alone;
    [None] when the loop does not stop within [fuel] rounds. *)
Fixpoint backward_accesses (fuel : nat) (end_ next : Z) : option (list (Z * Z)) :=
  if (end_ <=? next)%Z then
    match fuel with
    | O => None
    | S fuel' =>
        rest ← backward_accesses fuel' end_ (size_t_sub next 1);
        Some ((next, size_t_add next 1) :: rest)
    end
  else Some [].

(** A stack whose flags only grew. *)
Definition stack_le (s s' : Stack) : Prop :=
  m_current_idx s' = m_current_idx s /\
  length (m_accumulators s') = length (m_accumulators s) /\
  forall i st, m_accumulators s !! i = Some st ->
    exists st', m_accumulators s' !! i = Some st' /\ flags_le st st' /\
                dirtyPiece st' = dirtyPiece st.

End SpecPropagation.

(** * A small instance

    A feature set, a build configuration, two transformers and a few
    positions on which the model runs. *)

Module Example.

(** A dirty piece of one piece moving from one square to another. *)
Record Move := { moved : Piece; from_sq : Square; to_sq : Square }.

Definition piece_code (pc : Piece) : nat :=
  (match fst pc with WHITE => 0 | BLACK => 6 end)
  + (match snd pc with
     | PAWN => 0 | KNIGHT => 1 | BISHOP => 2 | ROOK => 3 | QUEEN => 4 | KING => 5
     end).

Definition index_of (p : Color) (sq : Square) (pc : Piece) (ksq : Square) : IndexType :=
  (match p with WHITE => 0 | BLACK => 1 end)
  + 2 * (Z.to_nat sq + 64 * (piece_code pc + 12 * Z.to_nat ksq)).

Global Instance features : FeatureSet Move := {|
  make_index := index_of;
  requires_refresh dp p := bool_decide (moved dp = (p, KING));
  append_changed_indices p ksq dp removed added :=
    (removed ++ [index_of p (from_sq dp) (moved dp) ksq],
     added ++ [index_of p (to_sq dp) (moved dp) ksq])
|}.

(** A vector build with two registers of two 16-bit lanes per tile, and
    the build without [VECTOR]. *)
Definition vector_build : SIMD :=
  {| VECTOR := true; Vec16Lanes := 2; Vec32Lanes := 4; NumRegs := 2; NumPsqtRegs := 2 |}.

Definition scalar_build : SIMD :=
  {| VECTOR := false; Vec16Lanes := 1; Vec32Lanes := 1; NumRegs := 1; NumPsqtRegs := 1 |}.

Definition ft_big : FeatureTransformer :=
  {| Dimensions := 8;
     weights := fun i => (Z.of_nat (i `mod` 11) * 6000 - 30000)%Z;
     psqtWeights := fun i => (Z.of_nat (i `mod` 7) * 700000000 - 2000000000)%Z |}.

Definition ft_small : FeatureTransformer :=
  {| Dimensions := 4;
     weights := fun i => (Z.of_nat (i `mod` 5) * 9000 - 20000)%Z;
     psqtWeights := fun i => (Z.of_nat (i `mod` 3) * 5 - 7)%Z |}.

Definition networks : Networks := {| big := ft_big; small := ft_small |}.

Definition caches : AccumulatorCaches :=
  {| caches_big := empty_cache 8; caches_small := empty_cache 4 |}.

(** A white king and a white pawn on the given squares and a black king
    on h1. *)
Definition board (wk pawn : Z) : Position :=
  let color c := match c with WHITE => (2 ^ wk + 2 ^ pawn)%Z | BLACK => (2 ^ 7)%Z end in
  let type pt :=
    match pt with
    | PAWN => (2 ^ pawn)%Z
    | KING => (2 ^ wk + 2 ^ 7)%Z
    | _ => 0%Z
    end in
  {| square_KING := fun c => match c with WHITE => wk | BLACK => 7%Z end;
     pieces_color := color;
     pieces_type := type;
     pieces := fun c pt => Z.land (color c) (type pt) |}.

Definition startpos : Position := board 4 12.
Definition after_e4 : Position := board 4 28.
Definition after_Kf1 : Position := board 5 28.
Definition Kf1_first : Position := board 5 12.

Definition e2e4 : Move := {| moved := (WHITE, PAWN); from_sq := 12; to_sq := 28 |}.
Definition Ke1f1 : Move := {| moved := (WHITE, KING); from_sq := 4; to_sq := 5 |}.

Definition zero_accumulator (D : nat) : Accumulator :=
  {| accumulation := fun _ => replicate D 0%Z;
     psqtAccumulation := fun _ => replicate PSQTBuckets 0%Z;
     computed := fun _ => false |}.

Definition zero_state : AccumulatorState Move :=
  {| accumulatorBig := zero_accumulator 8;
     accumulatorSmall := zero_accumulator 4;
     dirtyPiece := e2e4 |}.

(** The same state with every flag set. *)
Definition computed_state : AccumulatorState Move :=
  {| accumulatorBig := fill_computed (accumulatorBig zero_state) true;
     accumulatorSmall := fill_computed (accumulatorSmall zero_state) true;
     dirtyPiece := e2e4 |}.

(** A stack of capacity four, not yet reset. *)
Definition fresh_stack : AccumulatorStack Move :=
  {| m_accumulators := replicate 4 zero_state; m_current_idx := 0 |}.

(** The stack and caches after [reset] on the start position, and after
    a few calls, in the vector build. *)
Definition world_after (ops : list (Op Move))
    : option (AccumulatorStack Move * AccumulatorCaches) :=
  w ← AccumulatorStack_reset (HW := vector_build) fresh_stack startpos networks caches;
  run_ops (HW := vector_build) networks ops w.

Definition world (ops : list (Op Move)) : AccumulatorStack Move * AccumulatorCaches :=
  default (fresh_stack, caches) (world_after ops).

Definition king_then_pawn : list (Op Move) :=
  [OpPush Ke1f1 Kf1_first; OpPush e2e4 after_Kf1].

Definition pawn_then_king : list (Op Move) :=
  [OpPush e2e4 after_e4; OpEvaluate accumulatorSmallPtr after_e4; OpPush Ke1f1 after_Kf1].

(** An untouched cache entry of the big network. *)
Definition example_entry : CacheEntry := empty_cache 8 0%Z WHITE.

(** The state the kernel leaves for the pawn move e2-e4, forward, with
    the white king on a1. *)
Definition pawn_step : AccumulatorState Move :=
  default zero_state
    (update_accumulator_incremental (HW := vector_build) WHITE FORWARD accumulatorBigPtr
       ft_big 0 zero_state computed_state).

(** Kings on a1 and c1 and a white pawn on e4. *)
Definition corner : Position :=
  let color c := match c with WHITE => (2 ^ 0 + 2 ^ 28)%Z | BLACK => (2 ^ 2)%Z end in
  let type pt :=
    match pt with
    | PAWN => (2 ^ 28)%Z
    | KING => (2 ^ 0 + 2 ^ 2)%Z
    | _ => 0%Z
    end in
  {| square_KING := fun c => match c with WHITE => 0%Z | BLACK => 2%Z end;
     pieces_color := color;
     pieces_type := type;
     pieces := fun c pt => Z.land (color c) (type pt) |}.

(** Three states in use: a root flagged computed and two states pushed
    with the pawn move, not yet computed. *)
Definition ready_stack : AccumulatorStack Move :=
  {| m_accumulators := [computed_state; zero_state; zero_state; zero_state];
     m_current_idx := 3 |}.

(** The same stack one [pop] earlier, and after one more [push]. *)
Definition shallow_stack : AccumulatorStack Move :=
  {| m_accumulators := m_accumulators ready_stack; m_current_idx := 2 |}.

Definition pushed_stack : AccumulatorStack Move :=
  default shallow_stack (push shallow_stack Ke1f1).

(** [evaluate] and [evaluate_side<WHITE>] of the big network on it. *)
Definition evaluated : AccumulatorStack Move * Cache :=
  default (ready_stack, caches_big caches)
    (evaluate (HW := vector_build) accumulatorBigPtr corner ft_big (caches_big caches)
       ready_stack).

Definition white_evaluated : AccumulatorStack Move * Cache :=
  default (ready_stack, caches_big caches)
    (evaluate_side (HW := vector_build) WHITE accumulatorBigPtr corner ft_big
       (caches_big caches) ready_stack).

(** [reset] on the corner position, then a few calls. *)
Definition corner_world (ops : list (Op Move)) : AccumulatorStack Move * AccumulatorCaches :=
  default (fresh_stack, caches)
    (w ← AccumulatorStack_reset (HW := vector_build) fresh_stack corner networks caches;
     run_ops (HW := vector_build) networks ops w).

Definition push_pop : list (Op Move) := [OpPush e2e4 corner; OpPop].

End Example.

(** ** Views and runs used by the further properties *)

Section Views.
Context {DirtyPiece : Type}.

(** One perspective of one accumulator of a state: its dense vector, its
    PSQT vector and its computed flag. *)
Definition side_view (accPtr : AccPtr) (p : Color) (st : AccumulatorState DirtyPiece)
    : list Z * list Z * bool :=
  (accumulation (acc_get accPtr st) p,
   psqtAccumulation (acc_get accPtr st) p,
   computed (acc_get accPtr st) p).

End Views.

Section Lines.
Context {DirtyPiece : Type}.

(** [push] once per dirty piece of a line of moves. *)
Fixpoint push_all (s : AccumulatorStack DirtyPiece) (dps : list DirtyPiece)
    : option (AccumulatorStack DirtyPiece) :=
  match dps with
  | [] => Some s
  | dp :: dps => s ← push s dp; push_all s dps
  end.

End Lines.

(** * Proofs *)

Lemma wrap_add_l w x y : wrap w (wrap w x + y) = wrap w (x + y).
Proof.
  unfold wrap. f_equal.
  replace ((x + 2 ^ (w - 1)) `mod` 2 ^ w - 2 ^ (w - 1) + y + 2 ^ (w - 1))%Z
    with ((x + 2 ^ (w - 1)) `mod` 2 ^ w + y)%Z by lia.
  replace (x + y + 2 ^ (w - 1))%Z with ((x + 2 ^ (w - 1)) + y)%Z by lia.
  by rewrite Zplus_mod_idemp_l.
Qed.

Lemma wrap_sub_l w x y : wrap w (wrap w x - y) = wrap w (x - y).
Proof. rewrite <- !Z.add_opp_r. apply wrap_add_l. Qed.

Lemma wrap_in_range w x : (0 < w)%Z -> in_range w x -> wrap w x = x.
Proof.
  unfold wrap, in_range. intros Hw Hx.
  assert (2 ^ w = 2 * 2 ^ (w - 1))%Z as E.
  { rewrite <- Z.pow_succ_r by lia. f_equal. lia. }
  rewrite Z.mod_small; lia.
Qed.

Lemma wrap_range w x : (0 < w)%Z -> in_range w (wrap w x).
Proof.
  unfold wrap, in_range. intros Hw.
  assert (2 ^ w = 2 * 2 ^ (w - 1))%Z as E.
  { rewrite <- Z.pow_succ_r by lia. f_equal. lia. }
  assert (0 < 2 ^ (w - 1))%Z by (apply Z.pow_pos_nonneg; lia).
  assert (0 < 2 ^ w)%Z as Hp by lia.
  pose proof (Z.mod_pos_bound (x + 2 ^ (w - 1)) (2 ^ w) Hp). lia.
Qed.

Lemma wrap_idem w x : wrap w (wrap w x) = wrap w x.
Proof. pose proof (wrap_add_l w x 0) as H. by rewrite !Z.add_0_r in H. Qed.

Lemma fused_lane_wrapped w ops x ys :
  fused_lane w ops (wrap w x) ys = wrap w (x + signed_sum ops ys).
Proof.
  revert x ys. induction ops as [|op ops IH]; intros x ys.
  - simpl. f_equal. lia.
  - destruct ys as [|y ys]; [destruct op; simpl; f_equal; lia|].
    destruct op; simpl.
    + rewrite wrap_add_l, IH. f_equal. lia.
    + rewrite wrap_sub_l, IH. f_equal. lia.
Qed.

Lemma fused_lane_sum w op ops x y ys :
  fused_lane w (op :: ops) x (y :: ys) = wrap w (x + signed_sum (op :: ops) (y :: ys)).
Proof. destruct op; simpl; rewrite fused_lane_wrapped; f_equal; lia. Qed.

Lemma zip_with_map_same {A B C D} (f : B -> C -> D) (g : A -> B) (h : A -> C) (l : list A) :
  zip_with f (map g l) (map h l) = map (fun x => f (g x) (h x)) l.
Proof. induction l as [|a l IH]; simpl; [done | by rewrite IH]. Qed.

Lemma fused_lanes {A} w ops (g : A -> Z) (rows : list (A -> Z)) (ls : list A) :
  fused w ops (map g ls) (map (fun row => map row ls) rows)
  = map (fun l => fused_lane w ops (g l) (map (fun row => row l) rows)) ls.
Proof.
  revert g rows. induction ops as [|op ops IH]; intros g rows.
  - simpl. done.
  - destruct rows as [|row rows]; simpl; [done |].
    destruct op; unfold vec_add, vec_sub; rewrite zip_with_map_same; apply IH.
Qed.

Lemma map_seq_shift {A} (h : nat -> A) (s n : nat) :
  map h (seq s n) = map (fun l => h (s + l)) (seq 0 n).
Proof.
  replace (seq s n) with (seq (s + 0) n) by (f_equal; lia).
  rewrite <- fmap_add_seq. by rewrite <- list_fmap_compose.
Qed.

Lemma concat_blocks {A} (h : nat -> A) (b L n : nat) :
  concat (map (fun k => map (fun l => h (b + k * L + l)) (seq 0 L)) (seq 0 n))
  = map h (seq b (n * L)).
Proof.
  induction n as [|n IH].
  - done.
  - rewrite seq_S, map_app, concat_app, IH. simpl. rewrite app_nil_r.
    replace (L + n * L) with (n * L + L) by lia.
    rewrite seq_app, map_app. f_equal.
    by rewrite (map_seq_shift h (b + n * L)).
Qed.

Lemma store_loop (L n base : nat) (V : nat -> vec) (a : list Z) :
  (forall k, k < n -> length (V k) = L) ->
  base + n * L <= length a ->
  foldl (fun a k => vec_store a (base + k * L) (V k)) a (seq 0 n)
  = take base a ++ concat (map V (seq 0 n)) ++ drop (base + n * L) a.
Proof.
  induction n as [|n IH]; intros HV Hlen.
  - simpl. rewrite Nat.add_0_r. by rewrite take_drop.
  - rewrite seq_S, foldl_app, IH by (auto with lia). simpl.
    rewrite map_app, concat_app. simpl. rewrite app_nil_r.
    assert (length (concat (map V (seq 0 n))) = n * L) as HC.
    { clear -HV. induction n as [|n IH]; [done|].
      rewrite seq_S, map_app, concat_app, length_app, IH by auto with lia.
      simpl. rewrite app_nil_r, HV by lia. lia. }
    unfold vec_store.
    rewrite (app_assoc (take base a)).
    replace (base + n * L) with (length (take base a ++ concat (map V (seq 0 n))) + 0) at 1
      by (rewrite length_app, length_take, HC; lia).
    rewrite list_inserts_app_r.
    rewrite <- (take_drop L (drop (base + n * L) a)).
    rewrite list_inserts_0_r by (rewrite length_take, length_drop, HV; lia).
    rewrite drop_drop. rewrite <- !app_assoc.
    replace (base + n * L + L) with (base + (L + n * L)) by lia. done.
Qed.

Lemma foldl_ext_in {A B} (f g : A -> B -> A) (l : list B) (a : A) :
  (forall a b, b ∈ l -> f a b = g a b) -> foldl f a l = foldl g a l.
Proof.
  revert a. induction l as [|b l IH]; intros a H; simpl; [done|].
  rewrite H by left. apply IH. intros. apply H. by right.
Qed.

Lemma foldl_congr {A B} (f g : A -> B -> A) (l : list B) (a a' : A) :
  (forall a b, f a b = g a b) -> a = a' -> foldl f a l = foldl g a' l.
Proof. intros H ->. apply foldl_ext_in. auto. Qed.

Lemma fused_vec_load w ops L inp rows off :
  fused w ops (vec_load L (of_array inp) off) (map (fun row => vec_load L row off) rows)
  = map (fun l => fused_row_lane w ops inp rows (off + l)) (seq 0 L).
Proof.
  unfold vec_load, fused_row_lane.
  pose proof (fused_lanes w ops (fun l => of_array inp (off + l))
                (map (fun (row : mem) l => row (off + l)) rows) (seq 0 L)) as H.
  rewrite map_map in H. etrans; [exact H|]. apply map_ext. intros l.
  by rewrite map_map.
Qed.

Lemma fused_row_reduce_spec V Width ops inp out rows :
  0 < lanes V -> Width `mod` lanes V = 0 -> length out = Width ->
  fused_row_reduce V Width ops inp out rows
  = map (fused_row_lane (bits V) ops inp rows) (seq 0 Width).
Proof.
  intros HL Hmod Hlen. unfold fused_row_reduce.
  assert (Width = Width `div` lanes V * lanes V) as HW.
  { pose proof (Nat.div_mod Width (lanes V)). lia. }
  set (n := Width `div` lanes V) in *.
  erewrite foldl_ext_in.
  2:{ intros a i _. rewrite fused_vec_load. reflexivity. }
  transitivity
    (take 0 out
     ++ concat (map (fun i => map (fun l => fused_row_lane (bits V) ops inp rows
                                              (0 + i * lanes V + l))
                               (seq 0 (lanes V))) (seq 0 n))
     ++ drop (0 + n * lanes V) out).
  { apply (store_loop (lanes V) n 0
      (fun i => map (fun l => fused_row_lane (bits V) ops inp rows (0 + i * lanes V + l))
                    (seq 0 (lanes V))) out).
    - intros. by rewrite length_map, length_seq.
    - lia. }
  rewrite (concat_blocks (fused_row_lane (bits V) ops inp rows) 0 (lanes V) n).
  rewrite drop_ge by lia. rewrite app_nil_r. by rewrite <- HW.
Qed.

Section IncrementalProofs.

Context {DirtyPiece : Type} `{FS : FeatureSet DirtyPiece} `{HW : SIMD}.

Local Abbreviation State := (AccumulatorState DirtyPiece).

Lemma acc_get_set accPtr (s : State) a : acc_get accPtr (acc_set accPtr s a) = a.
Proof. by destruct accPtr. Qed.

Lemma acc_get_set_ne accPtr accPtr' (s : State) a :
  accPtr <> accPtr' -> acc_get accPtr' (acc_set accPtr s a) = acc_get accPtr' s.
Proof. by destruct accPtr, accPtr'. Qed.

Lemma dirtyPiece_acc_set accPtr (s : State) a : dirtyPiece (acc_set accPtr s a) = dirtyPiece s.
Proof. by destruct accPtr. Qed.

Lemma set_color_eq {A} (f : Color -> A) c v : set_color f c v c = v.
Proof. unfold set_color. by rewrite decide_True. Qed.

Lemma set_color_ne {A} (f : Color -> A) c c' v : c' <> c -> set_color f c v c' = f c'.
Proof. intros. unfold set_color. by rewrite decide_False. Qed.

Lemma apply_spec p accPtr ft (from to : State) ops indices :
  lanes_ok (Dimensions ft) ->
  length (accumulation (acc_get accPtr to) p) = Dimensions ft ->
  length (psqtAccumulation (acc_get accPtr to) p) = PSQTBuckets ->
  apply p accPtr ft from to ops indices
  = let a := acc_get accPtr to in
    acc_set accPtr to
      {| accumulation :=
           set_color (accumulation a) p
             (map (fused_row_lane 16 ops (accumulation (acc_get accPtr from) p)
                     (map (fun index j => weights ft (index * Dimensions ft + j)) indices))
                  (seq 0 (Dimensions ft)));
         psqtAccumulation :=
           set_color (psqtAccumulation a) p
             (map (fused_row_lane 32 ops (psqtAccumulation (acc_get accPtr from) p)
                     (map (fun index j => psqtWeights ft (index * PSQTBuckets + j)) indices))
                  (seq 0 PSQTBuckets));
         computed := computed a |}.
Proof.
  intros (H1 & H2 & H3 & H4) Hd Hp. unfold apply. simpl.
  rewrite (fused_row_reduce_spec Vec16Wrapper) by done.
  rewrite (fused_row_reduce_spec Vec32Wrapper) by done.
  done.
Qed.

Lemma incremental_spec p dir accPtr ft ksq (target source : State) removed added :
  computed (acc_get accPtr source) p = true ->
  computed (acc_get accPtr target) p = false ->
  incremental_indices p dir ksq target source = (removed, added) ->
  sizes_contract dir removed added ->
  lanes_ok (Dimensions ft) ->
  length (accumulation (acc_get accPtr target) p) = Dimensions ft ->
  length (psqtAccumulation (acc_get accPtr target) p) = PSQTBuckets ->
  update_accumulator_incremental p dir accPtr ft ksq target source
  = Some (incremental_result p accPtr ft target source removed added).
Proof.
  intros Hs Ht Hidx (Ha & Hr & Hle) Hl Hd Hp.
  unfold update_accumulator_incremental. rewrite Hs, Ht, Hidx.
  assert (negb (eqb (bool_decide (dir = FORWARD)) (bool_decide (dir = BACKWARD))) = true) as ->
    by (by destruct dir).
  simpl.
  rewrite !apply_spec by done.
  unfold incremental_result.
  set (B := PSQTBuckets) in *. clearbody B.
  destruct removed as [|r0 [|r1 [|? ?]]]; simpl in Hr; try lia;
  destruct added as [|a0 [|a1 [|? ?]]]; simpl in Ha; try lia;
  destruct dir; simpl in Hle; try lia; simpl;
  unfold set_computed; rewrite !acc_get_set; simpl;
  destruct accPtr; simpl; do 2 f_equal.
  all: f_equal; apply (f_equal (set_color _ _));
       unfold incremental_dense; apply map_ext; intros k;
       unfold fused_row_lane, column_sum; cbn [map];
       rewrite fused_lane_sum; simpl; f_equal; lia.
Qed.

End IncrementalProofs.

(** * Register files *)

Lemma lookup_total_map_seq {A} `{!Inhabited A} (h : nat -> A) (n k : nat) :
  k < n -> map h (seq 0 n) !!! k = h k.
Proof.
  intros Hk. apply list_lookup_total_correct.
  change (map h (seq 0 n)) with (h <$> seq 0 n).
  rewrite list_lookup_fmap, lookup_seq_lt by done. done.
Qed.

Lemma map_seq_ext {A} (f g : nat -> A) (s n : nat) :
  (forall i, s <= i < s + n -> f i = g i) -> map f (seq s n) = map g (seq s n).
Proof.
  intros H. apply map_ext_in. intros i Hi. apply H. apply in_seq in Hi. lia.
Qed.

Lemma for_each_reg_regs w ops L n base (m : mem) (D : nat) (idxs : list IndexType) g :
  for_each_reg n
    (fun k r => fused w ops r (map (fun idx => vec_load L m (D * idx + base + k * L)) idxs))
    (regs L n base g)
  = regs L n base (fun j => fused_lane w ops (g j) (map (fun idx => m (D * idx + j)) idxs)).
Proof.
  unfold for_each_reg, regs. apply map_seq_ext. intros k Hk.
  rewrite lookup_total_map_seq by lia.
  pose proof (fused_lanes w ops (fun l => g (base + k * L + l))
                (map (fun idx l => m (D * idx + base + k * L + l)) idxs) (seq 0 L)) as H.
  rewrite map_map in H. etrans; [exact H|]. apply map_ext. intros l.
  rewrite map_map. f_equal. apply map_ext. intros idx. f_equal. lia.
Qed.

Lemma regs_fold {I} w ops L n base (m : mem) (D : nat) (idxs : I -> list IndexType)
    (l : list I) g :
  foldl (fun acc i =>
           for_each_reg n
             (fun k r => fused w ops r
                           (map (fun idx => vec_load L m (D * idx + base + k * L)) (idxs i)))
             acc)
        (regs L n base g) l
  = regs L n base
      (fun j => foldl (fun x i => fused_lane w ops x (map (fun idx => m (D * idx + j)) (idxs i)))
                      (g j) l).
Proof.
  revert g. induction l as [|i l IH]; intros g; simpl; [done|].
  rewrite for_each_reg_regs. apply IH.
Qed.

Lemma regs_load L n base (a : list Z) :
  map (fun k => vec_load L (of_array a) (base + k * L)) (seq 0 n)
  = regs L n base (fun j => a !!! j).
Proof. done. Qed.

(** Storing a register file covers one tile. *)

Lemma regs_store L n base (h : nat -> Z) (a : list Z) :
  base + n * L <= length a ->
  foldl (fun a k => vec_store a (base + k * L) (regs L n base h !!! k)) a (seq 0 n)
  = take base a ++ map h (seq base (n * L)) ++ drop (base + n * L) a.
Proof.
  intros Hlen.
  rewrite (foldl_ext_in _
    (fun a k => vec_store a (base + k * L) (map (fun l => h (base + k * L + l)) (seq 0 L)))).
  2:{ intros a' k Hk. apply elem_of_seq in Hk. unfold regs.
      rewrite lookup_total_map_seq by lia. done. }
  rewrite store_loop; [| intros; by rewrite length_map, length_seq | done].
  by rewrite (concat_blocks h base L n).
Qed.

Section RefreshVector.

Context `{HW : SIMD}.

Ltac fold_regs w ops m D idxs :=
  match goal with
  | |- context [foldl ?f (regs ?L ?n ?base ?g) ?l] =>
      rewrite (regs_fold w ops L n base m D idxs l g
               : foldl f (regs L n base g) l = _)
  end.

Ltac step_regs w ops m D idxs :=
  match goal with
  | |- context [for_each_reg ?n ?f (regs ?L ?n ?base ?g)] =>
      rewrite (for_each_reg_regs w ops L n base m D idxs g
               : for_each_reg n f (regs L n base g) = _)
  end.

Lemma refresh_tile_spec ft removed added j (A E : list Z) :
  j * TileHeight + TileHeight <= length A ->
  j * TileHeight + TileHeight <= length E ->
  refresh_tile ft removed added j (A, E)
  = (splice A (j * TileHeight) TileHeight
       (fun i => refresh_lane_fused (weights ft) (Dimensions ft) removed added i (E !!! i)),
     splice E (j * TileHeight) TileHeight
       (fun i => refresh_lane_fused (weights ft) (Dimensions ft) removed added i (E !!! i))).
Proof.
  intros HA HE. unfold refresh_tile, splice.
  fold (paired_bound removed added).
  rewrite regs_load.
  set (m := weights ft). set (D := Dimensions ft). set (b := paired_bound removed added).
  fold_regs 16%Z [Add; Sub] m D (fun i => [at_index added i; at_index removed i]).
  destruct (combineLast3 removed added) eqn:Hc.
  - destruct (length added <? length removed) eqn:Hlt.
    + step_regs 16%Z [Add; Sub; Sub] m D
        [at_index added b; at_index removed b; at_index removed (b + 1)].
      rewrite !regs_store by (unfold TileHeight in *; lia).
      unfold refresh_lane_fused. fold b. rewrite Hc, Hlt. done.
    + step_regs 16%Z [Add; Add; Sub] m D
        [at_index added b; at_index added (b + 1); at_index removed b].
      rewrite !regs_store by (unfold TileHeight in *; lia).
      unfold refresh_lane_fused. fold b. rewrite Hc, Hlt. done.
  - fold_regs 16%Z [Sub] m D (fun i => [at_index removed i]).
    fold_regs 16%Z [Add] m D (fun i => [at_index added i]).
    rewrite !regs_store by (unfold TileHeight in *; lia).
    unfold refresh_lane_fused. fold b. rewrite Hc. done.
Qed.

End RefreshVector.

Lemma splice_length a base n h : base + n <= length a -> length (splice a base n h) = length a.
Proof.
  intros. unfold splice.
  rewrite !length_app, length_take, length_map, length_seq, length_drop. lia.
Qed.

Lemma splice_full a n h : length a = n -> splice a 0 n h = map h (seq 0 n).
Proof.
  intros <-. unfold splice. simpl. rewrite drop_all. by rewrite app_nil_r.
Qed.

Lemma tiles_fold (TH nt : nat) (tile : nat -> list Z * list Z -> list Z * list Z)
    (F : nat -> Z -> Z) (A E : list Z) :
  (forall j A' E', j < nt ->
     j * TH + TH <= length A' -> j * TH + TH <= length E' ->
     tile j (A', E') = (splice A' (j * TH) TH (fun i => F i (E' !!! i)),
                        splice E' (j * TH) TH (fun i => F i (E' !!! i)))) ->
  nt * TH <= length A -> nt * TH <= length E ->
  foldl (fun st j => tile j st) (A, E) (seq 0 nt)
  = (splice A 0 (nt * TH) (fun i => F i (E !!! i)),
     splice E 0 (nt * TH) (fun i => F i (E !!! i))).
Proof.
  induction nt as [|n IH]; intros Htile HA HE.
  - unfold splice. simpl. by rewrite !drop_0.
  - rewrite seq_S, foldl_app, IH by (auto with lia). simpl.
    set (h := fun i => F i (E !!! i)).
    assert (length (map h (seq 0 (n * TH))) = n * TH) as Hpre
      by (by rewrite length_map, length_seq).
    rewrite Htile by (rewrite ?splice_length; lia).
    assert (forall X : list Z, n * TH + TH <= length X ->
      splice (splice X 0 (n * TH) h) (n * TH) TH
        (fun i => F i (splice E 0 (n * TH) h !!! i))
      = splice X 0 (TH + n * TH) h) as Hs.
    { intros X HX. unfold splice. simpl.
      rewrite take_app_length' by done.
      rewrite drop_app_ge by (rewrite Hpre; lia).
      rewrite Hpre, drop_drop.
      replace (n * TH + (n * TH + TH - n * TH)) with (n * TH + TH) by lia.
      replace (TH + n * TH) with (n * TH + TH) by lia.
      rewrite seq_app, map_app. rewrite <- !app_assoc. simpl.
      do 2 f_equal. apply map_seq_ext. intros i Hi. unfold h at 2. f_equal.
      rewrite lookup_total_app_r by (rewrite Hpre; lia).
      rewrite Hpre, lookup_total_drop. f_equal. lia. }
    rewrite !Hs by lia. done.
Qed.

Section RefreshVector2.

Context `{HW : SIMD}.

Ltac fold_regs w ops m D idxs :=
  match goal with
  | |- context [foldl ?f (regs ?L ?n ?base ?g) ?l] =>
      rewrite (regs_fold w ops L n base m D idxs l g
               : foldl f (regs L n base g) l = _)
  end.

Lemma refresh_tile_psqt_spec ft removed added j (A E : list Z) :
  j * PsqtTileHeight + PsqtTileHeight <= length A ->
  j * PsqtTileHeight + PsqtTileHeight <= length E ->
  refresh_tile_psqt ft removed added j (A, E)
  = (splice A (j * PsqtTileHeight) PsqtTileHeight
       (fun i => refresh_lane_psqt (psqtWeights ft) PSQTBuckets removed added i (E !!! i)),
     splice E (j * PsqtTileHeight) PsqtTileHeight
       (fun i => refresh_lane_psqt (psqtWeights ft) PSQTBuckets removed added i (E !!! i))).
Proof.
  intros HA HE. unfold refresh_tile_psqt, splice.
  rewrite regs_load.
  set (m := psqtWeights ft).
  fold_regs 32%Z [Sub] m PSQTBuckets (fun i => [at_index removed i]).
  fold_regs 32%Z [Add] m PSQTBuckets (fun i => [at_index added i]).
  rewrite !regs_store by (unfold PsqtTileHeight in *; lia).
  done.
Qed.

Lemma refresh_vector_spec ft removed added (A P : list Z) entry :
  tiling_ok (Dimensions ft) ->
  length A = Dimensions ft -> length (entry_accumulation entry) = Dimensions ft ->
  length P = PSQTBuckets -> length (entry_psqtAccumulation entry) = PSQTBuckets ->
  let dense := map (fun i => refresh_lane_fused (weights ft) (Dimensions ft) removed added i
                               (entry_accumulation entry !!! i)) (seq 0 (Dimensions ft)) in
  let psqt := map (fun i => refresh_lane_psqt (psqtWeights ft) PSQTBuckets removed added i
                              (entry_psqtAccumulation entry !!! i)) (seq 0 PSQTBuckets) in
  refresh_vector ft removed added A P entry
  = {| new_accumulation := dense; new_psqtAccumulation := psqt;
       new_entry_accumulation := dense; new_entry_psqtAccumulation := psqt |}.
Proof.
  intros (H1 & H2 & H3 & H4) HA HE HP HEP dense psqt. unfold refresh_vector.
  assert (Dimensions ft = Dimensions ft `div` TileHeight * TileHeight) as HD.
  { pose proof (Nat.div_mod (Dimensions ft) TileHeight). lia. }
  assert (PSQTBuckets = PSQTBuckets `div` PsqtTileHeight * PsqtTileHeight) as HB.
  { pose proof (Nat.div_mod PSQTBuckets PsqtTileHeight). lia. }
  rewrite (tiles_fold TileHeight _ (refresh_tile ft removed added)
             (refresh_lane_fused (weights ft) (Dimensions ft) removed added)); [| | lia | lia].
  2:{ intros. by apply refresh_tile_spec. }
  rewrite (tiles_fold PsqtTileHeight _ (refresh_tile_psqt ft removed added)
             (refresh_lane_psqt (psqtWeights ft) PSQTBuckets removed added)); [| | lia | lia].
  2:{ intros. by apply refresh_tile_psqt_spec. }
  rewrite <- HD, <- HB. rewrite !splice_full by done. done.
Qed.

End RefreshVector2.

Lemma for_each_lane_prefix n f (a : list Z) :
  n <= length a ->
  for_each_lane n f a = map (fun j => f j (a !!! j)) (seq 0 n) ++ drop n a.
Proof.
  unfold for_each_lane. induction n as [|n IH]; intros Hn.
  - simpl. by rewrite drop_0.
  - rewrite seq_S, foldl_app, IH by lia. simpl.
    assert (length (map (fun j => f j (a !!! j)) (seq 0 n)) = n) as Hpre
      by (by rewrite length_map, length_seq).
    rewrite lookup_total_app_r by lia. rewrite Hpre, Nat.sub_diag, lookup_total_drop.
    rewrite Nat.add_0_r.
    rewrite insert_app_r_alt by lia. rewrite Hpre, Nat.sub_diag.
    rewrite map_app. simpl. rewrite <- app_assoc. simpl. f_equal.
    destruct (lookup_lt_is_Some_2 a n ltac:(lia)) as [x Hx].
    rewrite (drop_S a x n Hx). done.
Qed.

Lemma for_each_lane_spec n f (a : list Z) :
  length a = n -> for_each_lane n f a = map (fun j => f j (a !!! j)) (seq 0 n).
Proof.
  intros H. rewrite for_each_lane_prefix by lia. rewrite drop_ge by lia.
  by rewrite app_nil_r.
Qed.

Lemma lanes_fold {I} (n : nat) (step : I -> nat -> Z -> Z) (l : list I) (a : list Z) :
  length a = n ->
  foldl (fun a i => for_each_lane n (step i) a) a l
  = map (fun j => foldl (fun x i => step i j x) (a !!! j) l) (seq 0 n).
Proof.
  revert a. induction l as [|i l IH]; intros a Ha; simpl.
  - apply list_eq_same_length with n; [by rewrite length_map, length_seq | done |].
    intros j x y Hj Hx Hy.
    change (map (fun j => a !!! j) (seq 0 n)) with ((fun j => a !!! j) <$> seq 0 n) in Hy.
    rewrite list_lookup_fmap, lookup_seq_lt in Hy by done. simpl in Hy.
    apply list_lookup_total_correct in Hx. congruence.
  - rewrite for_each_lane_spec by done.
    rewrite IH by (by rewrite length_map, length_seq).
    apply map_seq_ext. intros j Hj. by rewrite lookup_total_map_seq by lia.
Qed.

Lemma foldl_pair {A B I} (f : I -> A -> A) (g : I -> B -> B) (l : list I) a b :
  foldl (fun '(x, y) i => (f i x, g i y)) (a, b) l
  = (foldl (fun x i => f i x) a l, foldl (fun y i => g i y) b l).
Proof. revert a b. induction l as [|i l IH]; intros a b; simpl; [done | apply IH]. Qed.

Lemma refresh_entry_scalar_spec ft removed added (E EP : list Z) :
  length E = Dimensions ft -> length EP = PSQTBuckets ->
  refresh_entry_scalar ft removed added E EP
  = (map (fun j => refresh_lane 16 (weights ft) (Dimensions ft) removed added j (E !!! j))
         (seq 0 (Dimensions ft)),
     map (fun j => refresh_lane 32 (psqtWeights ft) PSQTBuckets removed added j (EP !!! j))
         (seq 0 PSQTBuckets)).
Proof.
  intros HE HEP. unfold refresh_entry_scalar.
  rewrite (foldl_pair
    (fun index => for_each_lane (Dimensions ft)
       (fun j x => wrap 16 (x - weights ft (Dimensions ft * index + j))))
    (fun index => for_each_lane PSQTBuckets
       (fun k x => wrap 32 (x - psqtWeights ft (index * PSQTBuckets + k))))).
  rewrite (foldl_pair
    (fun index => for_each_lane (Dimensions ft)
       (fun j x => wrap 16 (x + weights ft (Dimensions ft * index + j))))
    (fun index => for_each_lane PSQTBuckets
       (fun k x => wrap 32 (x + psqtWeights ft (index * PSQTBuckets + k))))).
  rewrite (lanes_fold (Dimensions ft) _ removed E) by done.
  rewrite (lanes_fold PSQTBuckets _ removed EP) by done.
  rewrite (lanes_fold (Dimensions ft) _ added) by (by rewrite length_map, length_seq).
  rewrite (lanes_fold PSQTBuckets _ added) by (by rewrite length_map, length_seq).
  f_equal; apply map_seq_ext; intros j Hj; rewrite lookup_total_map_seq by lia;
    unfold refresh_lane; try done.
  apply foldl_congr; [intros; by rewrite (Nat.mul_comm PSQTBuckets)|].
  apply foldl_congr; [intros; by rewrite (Nat.mul_comm PSQTBuckets)|done].
Qed.

(** * Lane arithmetic: a run of signed deltas *)

Lemma apply_deltas_app w x ds1 ds2 :
  apply_deltas w x (ds1 ++ ds2) = apply_deltas w (apply_deltas w x ds1) ds2.
Proof. apply foldl_app. Qed.

Lemma apply_deltas_wrapped w x ds :
  apply_deltas w (wrap w x) ds = wrap w (x + Zsum ds).
Proof.
  revert x. induction ds as [|d ds IH]; intros x; simpl.
  - f_equal. lia.
  - rewrite wrap_add_l, IH. f_equal. lia.
Qed.

Lemma apply_deltas_sum w x ds :
  ds <> [] -> apply_deltas w x ds = wrap w (x + Zsum ds).
Proof.
  destruct ds as [|d ds]; [done|]. intros _. simpl.
  rewrite apply_deltas_wrapped. f_equal. lia.
Qed.

Lemma apply_deltas_eq w x ds1 ds2 :
  length ds1 = length ds2 -> Zsum ds1 = Zsum ds2 ->
  apply_deltas w x ds1 = apply_deltas w x ds2.
Proof.
  intros Hl Hs. destruct ds1 as [|d1 ds1], ds2 as [|d2 ds2]; try done.
  rewrite !apply_deltas_sum by done. by rewrite Hs.
Qed.

Lemma apply_deltas_concat {I} w x (g : I -> list Z) (l : list I) :
  foldl (fun x i => apply_deltas w x (g i)) x l = apply_deltas w x (concat (map g l)).
Proof.
  revert x. induction l as [|i l IH]; intros x; simpl; [done|].
  by rewrite apply_deltas_app, IH.
Qed.

Lemma Zsum_app l1 l2 : Zsum (l1 ++ l2) = (Zsum l1 + Zsum l2)%Z.
Proof. induction l1 as [|x l1 IH]; simpl; [done | rewrite IH; lia]. Qed.

Lemma Zsum_concat_pairs {I} (f g : I -> Z) (l : list I) :
  Zsum (concat (map (fun i => [f i; g i]) l)) = (Zsum (map f l) + Zsum (map g l))%Z.
Proof. induction l as [|i l IH]; simpl; [done | rewrite IH; lia]. Qed.

Lemma concat_singletons {I A} (f : I -> A) (l : list I) :
  concat (map (fun i => [f i]) l) = map f l.
Proof. induction l as [|i l IH]; simpl; [done | by rewrite IH]. Qed.

Lemma length_concat_pairs {I A} (f g : I -> A) (l : list I) :
  length (concat (map (fun i => [f i; g i]) l)) = 2 * length l.
Proof. induction l as [|i l IH]; simpl; [done | rewrite IH; lia]. Qed.

Lemma Zsum_map_opp {I} (f : I -> Z) (l : list I) :
  Zsum (map (fun i => (- f i)%Z) l) = (- Zsum (map f l))%Z.
Proof. induction l as [|i l IH]; simpl; [done | rewrite IH; lia]. Qed.

Lemma map_at_index (l : IndexList) : map (at_index l) (seq 0 (length l)) = l.
Proof.
  apply list_eq_same_length with (length l); [done | by rewrite length_map, length_seq |].
  intros i x y Hi Hx Hy.
  change (map (at_index l) (seq 0 (length l))) with (at_index l <$> seq 0 (length l)) in Hx.
  rewrite list_lookup_fmap, lookup_seq_lt in Hx by done. simpl in Hx.
  unfold at_index in Hx. apply list_lookup_total_correct in Hy. congruence.
Qed.

Lemma map_index_seq {A} (f : nat -> A) (l : IndexList) :
  map f l = map (fun i => f (at_index l i)) (seq 0 (length l)).
Proof. rewrite <- (map_map (at_index l) f). by rewrite map_at_index. Qed.

Lemma foldl_map {A B C} (f : A -> C -> A) (g : B -> C) (l : list B) (a : A) :
  foldl f a (map g l) = foldl (fun a b => f a (g b)) a l.
Proof. revert a. induction l as [|b l IH]; intros a; simpl; [done | apply IH]. Qed.

Lemma refresh_lane_deltas w m D removed added j x :
  refresh_lane w m D removed added j x
  = apply_deltas w x
      (map (fun i => (- column_at m D removed j i)%Z) (seq 0 (length removed))
       ++ map (column_at m D added j) (seq 0 (length added))).
Proof.
  unfold refresh_lane. rewrite apply_deltas_app.
  unfold column_at.
  rewrite <- (map_index_seq (fun idx => (- m (D * idx + j)%nat)%Z) removed).
  rewrite <- (map_index_seq (fun idx => m (D * idx + j)) added).
  unfold apply_deltas. rewrite !foldl_map.
  apply foldl_congr; [done|]. apply foldl_congr; [intros; f_equal; lia | done].
Qed.

Lemma Zsum_seq_app (f : nat -> Z) (s n k : nat) :
  Zsum (map f (seq s (n + k))) = (Zsum (map f (seq s n)) + Zsum (map f (seq (s + n) k)))%Z.
Proof. by rewrite seq_app, map_app, Zsum_app. Qed.

Lemma refresh_lane_fused_eq m D removed added j x :
  (Z.of_nat (length removed) < 2 ^ 64)%Z -> (Z.of_nat (length added) < 2 ^ 64)%Z ->
  refresh_lane_fused m D removed added j x = refresh_lane 16 m D removed added j x.
Proof.
  intros Hr Ha. rewrite refresh_lane_deltas. unfold refresh_lane_fused.
  set (a := column_at m D added j). set (r := column_at m D removed j).
  change (fun i => m (D * at_index added i + j)) with a.
  change (fun i => m (D * at_index removed i + j)) with r.
  set (nr := length removed) in *. set (na := length added) in *.
  set (b := paired_bound removed added).
  rewrite (foldl_congr _ (fun x i => apply_deltas 16 x [a i; (- r i)%Z]) (seq 0 b) x x)
    by (intros; simpl; by rewrite ?Z.add_opp_r).
  rewrite apply_deltas_concat.
  destruct (combineLast3 removed added) eqn:Hc.
  - assert (b = nr `min` na - 1 /\ (nr = na + 1 \/ na = nr + 1) /\ 2 < nr + na) as (Hb & Hd & Hs).
    { unfold combineLast3 in Hc. apply andb_prop in Hc as [H1 H2].
      apply Z.eqb_eq in H1. apply Nat.ltb_lt in H2. fold nr na in H1, H2.
      subst b. unfold paired_bound, size_t_sub, combineLast3. fold nr na.
      replace ((Z.abs (Z.of_nat nr - Z.of_nat na) =? 1)%Z && (2 <? nr + na)) with true
        by (symmetry; apply andb_true_intro; split;
            [by apply Z.eqb_eq | by apply Nat.ltb_lt]).
      rewrite Z.mod_small by lia. lia. }
    destruct (na <? nr) eqn:Hlt.
    + apply Nat.ltb_lt in Hlt.
      change (fused_lane 16 [Add; Sub; Sub] ?y [a b; r b; r (b + 1)])
        with (wrap 16 (wrap 16 (wrap 16 (y + a b) - r b) - r (b + 1)%nat)).
      transitivity (apply_deltas 16 x
        (concat (map (fun i => [a i; (- r i)%Z]) (seq 0 b))
         ++ [a b; (- r b)%Z; (- r (b + 1)%nat)%Z])).
      { rewrite apply_deltas_app. simpl. by rewrite ?Z.add_opp_r. }
      apply apply_deltas_eq.
      * rewrite !length_app, length_concat_pairs, !length_map, !length_seq. simpl. lia.
      * rewrite !Zsum_app, Zsum_concat_pairs, !Zsum_map_opp.
        replace nr with (b + 2) by lia. replace na with (b + 1) by lia.
        rewrite !Zsum_seq_app. simpl. rewrite ?Nat.add_1_r. lia.
    + apply Nat.ltb_ge in Hlt.
      change (fused_lane 16 [Add; Add; Sub] ?y [a b; a (b + 1); r b])
        with (wrap 16 (wrap 16 (wrap 16 (y + a b) + a (b + 1)%nat) - r b)).
      transitivity (apply_deltas 16 x
        (concat (map (fun i => [a i; (- r i)%Z]) (seq 0 b))
         ++ [a b; a (b + 1); (- r b)%Z])).
      { rewrite apply_deltas_app. simpl. by rewrite ?Z.add_opp_r. }
      apply apply_deltas_eq.
      * rewrite !length_app, length_concat_pairs, !length_map, !length_seq. simpl. lia.
      * rewrite !Zsum_app, Zsum_concat_pairs, !Zsum_map_opp.
        replace nr with (b + 1) by lia. replace na with (b + 2) by lia.
        rewrite !Zsum_seq_app. simpl. rewrite ?Nat.add_1_r. lia.
  - assert (b = nr `min` na) as Hb.
    { subst b. unfold paired_bound, size_t_sub. rewrite Hc.
      rewrite Z.sub_0_r, Z.mod_small by lia. lia. }
    rewrite (foldl_congr _ (fun x i => apply_deltas 16 x [(- r i)%Z])
               (seq b (nr - b)) _ _ ltac:(intros; simpl; by rewrite ?Z.add_opp_r) eq_refl).
    rewrite (foldl_congr _ (fun x i => apply_deltas 16 x [a i])
               (seq (b `max` nr) (na - b `max` nr)) _ _ ltac:(done) eq_refl).
    rewrite !apply_deltas_concat, !concat_singletons, <- !apply_deltas_app.
    apply apply_deltas_eq.
    + rewrite !length_app, length_concat_pairs, !length_map, !length_seq. lia.
    + rewrite !Zsum_app, Zsum_concat_pairs, !Zsum_map_opp.
      assert (Zsum (map r (seq 0 nr))
              = Zsum (map r (seq 0 b)) + Zsum (map r (seq b (nr - b))))%Z as HR.
      { replace (seq 0 nr) with (seq 0 (b + (nr - b))) by (f_equal; lia).
        by rewrite Zsum_seq_app. }
      assert (Zsum (map a (seq 0 na))
              = Zsum (map a (seq 0 b))
                + Zsum (map a (seq (b `max` nr) (na - b `max` nr))))%Z as HA.
      { destruct (decide (nr <= na)).
        - replace (b `max` nr) with b by lia.
          replace (seq 0 na) with (seq 0 (b + (na - b))) by (f_equal; lia).
          by rewrite Zsum_seq_app.
        - replace (na - b `max` nr) with 0 by lia.
          replace (seq 0 na) with (seq 0 b) by (f_equal; lia). simpl. lia. }
      rewrite HR, HA. lia.
Qed.

Lemma refresh_lane_psqt_eq m D removed added j x :
  refresh_lane_psqt m D removed added j x = refresh_lane 32 m D removed added j x.
Proof.
  rewrite refresh_lane_deltas. unfold refresh_lane_psqt.
  rewrite apply_deltas_app. unfold apply_deltas. rewrite !foldl_map.
  apply foldl_congr; [done|]. apply foldl_congr; [|done].
  intros. simpl. by rewrite Z.add_opp_r.
Qed.

(** * Bitboards *)

Lemma ctz_nonneg p : (0 <= ctz p)%Z.
Proof. induction p; simpl; lia. Qed.

Lemma ctz_bit p : Z.testbit (Zpos p) (ctz p) = true.
Proof.
  induction p as [p IH|p IH|]; try done.
  simpl ctz. change (Zpos p~0) with (2 * Zpos p)%Z.
  rewrite Z.testbit_even_succ by apply ctz_nonneg. done.
Qed.

Lemma ctz_low p i : (0 <= i < ctz p)%Z -> Z.testbit (Zpos p) i = false.
Proof.
  revert i. induction p as [p IH|p IH|]; intros i Hi; simpl in Hi; try lia.
  change (Zpos p~0) with (2 * Zpos p)%Z.
  destruct (decide (i = 0%Z)) as [->|Hne]; [apply Z.testbit_even_0|].
  replace i with (Z.succ (i - 1)) by lia.
  rewrite Z.testbit_even_succ by lia. apply IH. lia.
Qed.

Lemma pop_lsb_bits p i :
  (0 <= i)%Z ->
  Z.testbit (Z.land (Zpos p) (Zpos p - 1)) i
  = Z.testbit (Zpos p) i && negb (i =? ctz p)%Z.
Proof.
  revert i. induction p as [p IH|p IH|]; intros i Hi.
  - replace (Zpos p~1 - 1)%Z with (2 * Zpos p)%Z by lia.
    change (Zpos p~1) with (2 * Zpos p + 1)%Z.
    rewrite Z.land_spec. simpl ctz.
    destruct (decide (i = 0%Z)) as [->|Hne].
    + by rewrite Z.testbit_even_0, Z.testbit_odd_0.
    + replace i with (Z.succ (i - 1)) by lia.
      rewrite Z.testbit_even_succ, Z.testbit_odd_succ by lia.
      replace (Z.succ (i - 1) =? 0)%Z with false by (symmetry; apply Z.eqb_neq; lia).
      by destruct (Z.testbit (Zpos p) (i - 1)).
  - replace (Zpos p~0 - 1)%Z with (2 * (Zpos p - 1) + 1)%Z by lia.
    change (Zpos p~0) with (2 * Zpos p)%Z.
    rewrite Z.land_spec. simpl ctz.
    destruct (decide (i = 0%Z)) as [->|Hne].
    + by rewrite Z.testbit_even_0.
    + replace i with (Z.succ (i - 1)) by lia.
      rewrite Z.testbit_even_succ, Z.testbit_odd_succ by lia.
      rewrite <- Z.land_spec, IH by lia. f_equal. f_equal.
      destruct (Z.eqb_spec (i - 1) (ctz p)), (Z.eqb_spec (Z.succ (i - 1)) (Z.succ (ctz p)));
        try done; lia.
  - simpl. rewrite Z.testbit_0_l. simpl ctz.
    destruct (decide (i = 0%Z)) as [->|Hne]; [done|].
    replace (Z.testbit 1 i) with false; [done|].
    symmetry. apply (Z.pow2_bits_false 0). lia.
Qed.

Lemma filter_none {A} (f : A -> bool) (l : list A) :
  (forall x, In x l -> f x = false) -> List.filter f l = [].
Proof.
  induction l as [|x l IH]; intros H; simpl; [done|].
  rewrite H by (by left). apply IH. intros. apply H. by right.
Qed.

Lemma In_seqZ m n k : In k (seqZ m n) <-> (m <= k < m + n)%Z.
Proof. rewrite <- list_elem_of_In. apply elem_of_seqZ. Qed.

Lemma squares_step (bb bb' n : Z) :
  (0 <= n < 64)%Z ->
  Z.testbit bb n = true ->
  (forall i, (0 <= i < n)%Z -> Z.testbit bb i = false) ->
  (forall i, (0 <= i)%Z -> Z.testbit bb' i = Z.testbit bb i && negb (i =? n)%Z) ->
  squares bb = n :: squares bb'.
Proof.
  intros Hn Hset Hlow Hbits. unfold squares.
  replace 64%Z with (n + (1 + (64 - n - 1)))%Z by lia.
  rewrite !seqZ_app by lia. rewrite !List.filter_app.
  rewrite (filter_none _ (seqZ 0 n)).
  2:{ intros i Hi. apply In_seqZ in Hi. apply Hlow. lia. }
  rewrite (filter_none (fun sq => Z.testbit bb' sq) (seqZ 0 n)).
  2:{ intros i Hi. apply In_seqZ in Hi. rewrite Hbits, Hlow by lia. done. }
  change (seqZ (0 + n) 1) with [(0 + n)%Z]. simpl. rewrite !Z.add_0_l.
  rewrite Hset, Hbits by lia. rewrite Hset, Z.eqb_refl. simpl. f_equal.
  apply List.filter_ext_in. intros i Hi. apply In_seqZ in Hi.
  rewrite Hbits by lia.
  replace (i =? n)%Z with false by (symmetry; apply Z.eqb_neq; lia).
  by rewrite andb_true_r.
Qed.

Lemma squares_0 : squares 0 = [].
Proof. done. Qed.

Lemma push_squares_spec_aux fuel (f : Square -> IndexType) :
  forall bb out,
    (0 <= bb)%Z -> (forall i, (64 <= i)%Z -> Z.testbit bb i = false) ->
    length (squares bb) <= fuel ->
    push_squares fuel bb f out = out ++ map f (squares bb).
Proof.
  induction fuel as [|fuel IH]; intros bb out Hpos Hhigh Hcount.
  - destruct (squares bb) eqn:E; simpl in Hcount; [|lia].
    simpl. by rewrite app_nil_r.
  - simpl. destruct (Z.eqb_spec bb 0) as [->|Hne].
    { rewrite squares_0. simpl. by rewrite app_nil_r. }
    destruct bb as [|p|p]; try lia. simpl lsb.
    assert (ctz p < 64)%Z as Hlt.
    { destruct (Z.lt_ge_cases (ctz p) 64) as [|Hge]; [done|].
      pose proof (Hhigh _ Hge) as Hf. rewrite ctz_bit in Hf. done. }
    pose proof (ctz_nonneg p).
    rewrite (squares_step (Zpos p) (Z.land (Zpos p) (Zpos p - 1)) (ctz p)) in Hcount |- *;
      [| lia | apply ctz_bit | apply ctz_low | intros; by apply pop_lsb_bits
       | lia | apply ctz_bit | apply ctz_low | intros; by apply pop_lsb_bits].
    rewrite IH.
    + rewrite <- app_assoc. done.
    + apply Z.land_nonneg. lia.
    + intros i Hi. rewrite pop_lsb_bits by lia. rewrite Hhigh by done. done.
    + simpl in Hcount. lia.
Qed.

Lemma squares_length bb : length (squares bb) <= 64.
Proof.
  unfold squares. etrans; [apply List.filter_length_le|].
  by rewrite length_seqZ.
Qed.

Lemma bb_ok_high bb i : bb_ok bb -> (64 <= i)%Z -> Z.testbit bb i = false.
Proof.
  intros [H0 H1] Hi. destruct (decide (bb = 0%Z)) as [->|]; [apply Z.testbit_0_l|].
  apply Z.bits_above_log2; [lia|].
  assert (Z.log2 bb < 64)%Z; [|lia]. apply Z.log2_lt_pow2; lia.
Qed.

Lemma push_squares_spec bb (f : Square -> IndexType) out :
  bb_ok bb -> push_squares 64 bb f out = out ++ map f (squares bb).
Proof.
  intros Hbb. apply push_squares_spec_aux.
  - apply Hbb.
  - intros. by apply bb_ok_high.
  - apply squares_length.
Qed.

(** * Features of a placement *)

Section Features.

Context {DirtyPiece : Type} `{FS : FeatureSet DirtyPiece}.

Lemma features_of_ext p ksq f g :
  (forall c pt, f c pt = g c pt) -> features_of p ksq f = features_of p ksq g.
Proof.
  intros H. unfold features_of. f_equal. apply map_ext. intros c. f_equal.
  apply map_ext. intros pt. by rewrite H.
Qed.

Lemma foldl_append_pair {I A} (F G : I -> list A) (l : list I) (r a : list A) :
  foldl (fun '(r, a) i => (r ++ F i, a ++ G i)) (r, a) l
  = (r ++ concat (map F l), a ++ concat (map G l)).
Proof.
  revert r a. induction l as [|i l IH]; intros r a; simpl.
  - by rewrite !app_nil_r.
  - rewrite IH. by rewrite <- !app_assoc.
Qed.

Lemma bb_ok_land a b : bb_ok a -> (0 <= Z.land a b)%Z /\
  (forall i, (64 <= i)%Z -> Z.testbit (Z.land a b) i = false).
Proof.
  intros Ha. split.
  - apply Z.land_nonneg. left. apply Ha.
  - intros i Hi. rewrite Z.land_spec, (bb_ok_high a) by done. done.
Qed.

Lemma push_squares_land a b (f : Square -> IndexType) out :
  bb_ok a -> push_squares 64 (Z.land a b) f out = out ++ map f (squares (Z.land a b)).
Proof.
  intros Ha. destruct (bb_ok_land a b Ha). apply push_squares_spec_aux; try done.
  apply squares_length.
Qed.

Lemma refresh_delta_spec p pos entry ksq :
  (forall c, bb_ok (byColorBB entry c)) ->
  (forall c pt, bb_ok (pieces pos c pt)) ->
  refresh_delta p pos entry ksq
  = (features_of p ksq (to_remove (stored_boards entry) (pieces pos)),
     features_of p ksq (to_remove (pieces pos) (stored_boards entry))).
Proof.
  intros He Hp. unfold refresh_delta, features_of.
  set (F := fun c pt => map (fun sq => make_index p sq (make_piece c pt) ksq)
                            (squares (to_remove (stored_boards entry) (pieces pos) c pt))).
  set (G := fun c pt => map (fun sq => make_index p sq (make_piece c pt) ksq)
                            (squares (to_remove (pieces pos) (stored_boards entry) c pt))).
  rewrite (foldl_ext_in _
    (fun '(r, a) c => (r ++ concat (map (F c) PieceTypes), a ++ concat (map (G c) PieceTypes)))).
  2:{ intros [r a] c _.
      rewrite (foldl_ext_in _ (fun '(r, a) pt => (r ++ F c pt, a ++ G c pt))).
      2:{ intros [r' a'] pt _.
          rewrite (push_squares_land (Z.land (byColorBB entry c) (byTypeBB entry pt))).
          2:{ destruct (bb_ok_land (byColorBB entry c) (byTypeBB entry pt) (He c)) as [H0 H1].
              split; [done|]. destruct (Z.lt_ge_cases
                (Z.land (byColorBB entry c) (byTypeBB entry pt)) (2 ^ 64)) as [|Hge]; [done|].
              exfalso.
              assert (0 < Z.land (byColorBB entry c) (byTypeBB entry pt))%Z as Hpos by lia.
              pose proof (Z.bit_log2 _ Hpos) as Hb.
              rewrite H1 in Hb; [done|]. apply Z.log2_le_pow2; lia. }
          rewrite (push_squares_land (pieces pos c pt)) by done.
          done. }
      apply foldl_append_pair. }
  rewrite (foldl_append_pair (fun c => concat (map (F c) PieceTypes))
             (fun c => concat (map (G c) PieceTypes))).
  done.
Qed.

End Features.

Lemma Zsum_filter {A} (g : A -> Z) (f : A -> bool) (l : list A) :
  Zsum (map g (List.filter f l)) = Zsum (map (fun x => if f x then g x else 0%Z) l).
Proof.
  induction l as [|x l IH]; simpl; [done|].
  destruct (f x); simpl; rewrite IH; lia.
Qed.

Lemma bb_not_bit b i : (0 <= i < 64)%Z -> Z.testbit (bb_not b) i = negb (Z.testbit b i).
Proof.
  intros Hi. unfold bb_not. rewrite Z.lxor_spec, Z.ones_spec_low by lia.
  by destruct (Z.testbit b i).
Qed.

Lemma squares_sum_delta (g : Square -> Z) (O N : Bitboard) :
  Zsum (map g (squares N))
  = (Zsum (map g (squares O))
     - Zsum (map g (squares (Z.land O (bb_not N))))
     + Zsum (map g (squares (Z.land N (bb_not O)))))%Z.
Proof.
  unfold squares. rewrite !Zsum_filter.
  assert (forall l : list Z, (forall x, In x l -> (0 <= x < 64)%Z) ->
    Zsum (map (fun x => if Z.testbit N x then g x else 0%Z) l)
    = (Zsum (map (fun x => if Z.testbit O x then g x else 0%Z) l)
       - Zsum (map (fun x => if Z.testbit (Z.land O (bb_not N)) x then g x else 0%Z) l)
       + Zsum (map (fun x => if Z.testbit (Z.land N (bb_not O)) x then g x else 0%Z) l))%Z) as H.
  { induction l as [|x l IH]; intros Hl; simpl; [done|].
    rewrite IH by (intros; apply Hl; by right).
    rewrite !Z.land_spec, !bb_not_bit by (apply Hl; by left).
    destruct (Z.testbit N x), (Z.testbit O x); simpl; lia. }
  apply H. intros x Hx. apply In_seqZ in Hx. lia.
Qed.

Lemma column_sum_app m D l1 l2 k :
  column_sum m D (l1 ++ l2) k = (column_sum m D l1 k + column_sum m D l2 k)%Z.
Proof. unfold column_sum. by rewrite map_app, Zsum_app. Qed.

Lemma column_sum_concat4 {I} m D (FN FO FR FA : I -> IndexList) (l : list I) k :
  (forall i, column_sum m D (FN i) k
             = (column_sum m D (FO i) k - column_sum m D (FR i) k + column_sum m D (FA i) k)%Z) ->
  column_sum m D (concat (map FN l)) k
  = (column_sum m D (concat (map FO l)) k - column_sum m D (concat (map FR l)) k
     + column_sum m D (concat (map FA l)) k)%Z.
Proof.
  intros H. induction l as [|i l IH]; simpl; [done|].
  rewrite !column_sum_app, IH, H. lia.
Qed.

Section FeatureSums.

Context {DirtyPiece : Type} `{FS : FeatureSet DirtyPiece}.

Lemma column_sum_delta p ksq m D (O N : Color -> PieceType -> Bitboard) k :
  column_sum m D (features_of p ksq N) k
  = (column_sum m D (features_of p ksq O) k
     - column_sum m D (features_of p ksq (to_remove O N)) k
     + column_sum m D (features_of p ksq (to_remove N O)) k)%Z.
Proof.
  unfold features_of. apply column_sum_concat4. intros c.
  apply column_sum_concat4. intros pt.
  unfold column_sum, to_remove. rewrite !map_map.
  apply squares_sum_delta.
Qed.

End FeatureSums.


Lemma refresh_lane_sum w m D removed added j x :
  refresh_lane w m D removed added j (wrap w x)
  = wrap w (x - column_sum m D removed j + column_sum m D added j).
Proof.
  unfold refresh_lane.
  transitivity (apply_deltas w (wrap w x)
    (map (fun i => (- m (i * D + j)%nat)%Z) removed ++ map (fun i => m (i * D + j)) added)).
  - rewrite apply_deltas_app. unfold apply_deltas. rewrite !foldl_map.
    apply foldl_congr; [intros; by rewrite (Nat.mul_comm D)|].
    apply foldl_congr; [intros; rewrite (Nat.mul_comm D); f_equal; lia | done].
  - rewrite apply_deltas_wrapped. f_equal. unfold column_sum.
    rewrite Zsum_app, Zsum_map_opp. lia.
Qed.

Lemma length_concat_le {I A} (F : I -> list A) (l : list I) n :
  (forall i, length (F i) <= n) -> length (concat (map F l)) <= length l * n.
Proof.
  intros H. induction l as [|i l IH]; simpl; [done|].
  rewrite length_app. specialize (H i). lia.
Qed.

Lemma memcpy_spec (dst : list Z) (f : nat -> Z) n :
  length dst = n -> memcpy dst (map f (seq 0 n)) n = map f (seq 0 n).
Proof.
  intros Hn. unfold memcpy, vec_store, vec_load, of_array.
  rewrite <- (app_nil_r dst).
  rewrite list_inserts_0_r by (by rewrite length_map, length_seq).
  rewrite app_nil_r. apply map_seq_ext. intros i Hi. simpl.
  by rewrite lookup_total_map_seq by lia.
Qed.

Section RefreshSpec.
Context {DirtyPiece : Type} `{FS : FeatureSet DirtyPiece} `{HW : SIMD}.
Local Abbreviation State := (AccumulatorState DirtyPiece).

Lemma features_of_length p ksq bbs : length (features_of p ksq bbs) <= 768.
Proof.
  unfold features_of.
  etrans; [apply (length_concat_le _ _ (6 * 64))|done].
  intros c. etrans; [apply (length_concat_le _ _ 64)|done].
  intros pt. rewrite length_map. apply squares_length.
Qed.

(** Both builds compute the same lanes from the entry. *)
Lemma refresh_paths ft removed added (A P : list Z) entry :
  simd_ok (Dimensions ft) ->
  length removed <= 768 -> length added <= 768 ->
  length A = Dimensions ft -> length (entry_accumulation entry) = Dimensions ft ->
  length P = PSQTBuckets -> length (entry_psqtAccumulation entry) = PSQTBuckets ->
  let dense := map (fun i => refresh_lane 16 (weights ft) (Dimensions ft) removed added i
                               (entry_accumulation entry !!! i)) (seq 0 (Dimensions ft)) in
  let psqt := map (fun i => refresh_lane 32 (psqtWeights ft) PSQTBuckets removed added i
                              (entry_psqtAccumulation entry !!! i)) (seq 0 PSQTBuckets) in
  (if VECTOR then refresh_vector else refresh_scalar) ft removed added A P entry
  = {| new_accumulation := dense; new_psqtAccumulation := psqt;
       new_entry_accumulation := dense; new_entry_psqtAccumulation := psqt |}.
Proof.
  intros [Hl Ht] Hr Ha HA HE HP HEP dense psqt.
  destruct VECTOR.
  - rewrite refresh_vector_spec by auto. f_equal.
    all: apply map_seq_ext; intros i _.
    all: first [apply refresh_lane_fused_eq; lia | apply refresh_lane_psqt_eq].
  - unfold refresh_scalar. rewrite refresh_entry_scalar_spec by done.
    rewrite !memcpy_spec by done. done.
Qed.

End RefreshSpec.

Lemma bb_ok_land_ok a b : bb_ok a -> bb_ok (Z.land a b).
Proof.
  intros Ha. destruct (bb_ok_land a b Ha) as [H0 H1]. split; [done|].
  destruct (Z.lt_ge_cases (Z.land a b) (2 ^ 64)) as [|Hge]; [done|]. exfalso.
  assert (0 < Z.land a b)%Z as Hpos by lia.
  pose proof (Z.bit_log2 _ Hpos) as Hb.
  rewrite H1 in Hb; [done|]. apply Z.log2_le_pow2; lia.
Qed.

Section RefreshSpec2.
Context {DirtyPiece : Type} `{FS : FeatureSet DirtyPiece} `{HW : SIMD}.
Local Abbreviation State := (AccumulatorState DirtyPiece).

Lemma pos_ok_pieces pos c pt : pos_ok pos -> bb_ok (pieces pos c pt).
Proof. intros [H1 H2]. rewrite H2. by apply bb_ok_land_ok. Qed.

Lemma full_transform_length w m s f n : length (full_transform w m s f n) = n.
Proof. unfold full_transform. by rewrite length_map, length_seq. Qed.

Lemma refresh_lanes_transform w m D p ksq (O N : Color -> PieceType -> Bitboard) n :
  map (fun i => refresh_lane w m D
                  (features_of p ksq (to_remove O N)) (features_of p ksq (to_remove N O)) i
                  (full_transform w m D (features_of p ksq O) n !!! i)) (seq 0 n)
  = full_transform w m D (features_of p ksq N) n.
Proof.
  unfold full_transform. apply map_seq_ext. intros i Hi.
  rewrite lookup_total_map_seq by lia.
  rewrite refresh_lane_sum. f_equal. rewrite (column_sum_delta p ksq m D O N). done.
Qed.

Lemma refresh_cache_spec p accPtr ft pos (st : State) cache :
  simd_ok (Dimensions ft) -> pos_ok pos ->
  entry_ok ft p (square_KING pos p) (cache (square_KING pos p) p) ->
  acc_sized (Dimensions ft) (acc_get accPtr st) ->
  exists entry',
    update_accumulator_refresh_cache p accPtr ft pos st cache
    = (refreshed_state p accPtr ft pos st, cache_set cache (square_KING pos p) p entry')
    /\ entry_accumulation entry' = dense_of ft (active_features p pos)
    /\ entry_psqtAccumulation entry' = psqt_of ft (active_features p pos)
    /\ (forall c, byColorBB entry' c = pieces_color pos c)
    /\ (forall pt, byTypeBB entry' pt = pieces_type pos pt).
Proof.
  intros Hsimd Hpos (Hbb & Hacc & Hpsqt) Hsz.
  unfold update_accumulator_refresh_cache.
  set (ksq := square_KING pos p) in *. set (entry := cache ksq p) in *.
  rewrite refresh_delta_spec by (auto using pos_ok_pieces).
  unfold set_computed. rewrite !acc_get_set. cbn [accumulation psqtAccumulation computed].
  destruct (Hsz p) as [HA HP].
  rewrite refresh_paths;
    [| done | apply features_of_length | apply features_of_length | done
     | rewrite Hacc; apply full_transform_length | done
     | rewrite Hpsqt; apply full_transform_length].
  cbn [new_accumulation new_psqtAccumulation new_entry_accumulation
       new_entry_psqtAccumulation].
  rewrite Hacc, Hpsqt. unfold dense_of, psqt_of.
  rewrite !refresh_lanes_transform.
  eexists. split; [|split; [|split; [|split]]].
  - unfold refreshed_state, active_features, dense_of, psqt_of. fold ksq.
    destruct accPtr; reflexivity.
  - cbn [entry_accumulation]. unfold active_features. by fold ksq.
  - cbn [entry_psqtAccumulation]. unfold active_features. by fold ksq.
  - intros c. simpl. unfold set_color. by destruct c.
  - intros pt. simpl. unfold set_type. by destruct pt.
Qed.

End RefreshSpec2.


Lemma bind_assert {A} (b : bool) (f : unit -> option A) x :
  assert b ≫= f = Some x -> b = true /\ f () = Some x.
Proof. destruct b; simpl; [done | discriminate]. Qed.

Lemma size_t_sub_small a b :
  (0 <= b <= a)%Z -> (a < 2 ^ 64)%Z -> size_t_sub a b = (a - b)%Z.
Proof. intros. unfold size_t_sub. apply Z.mod_small. lia. Qed.

Lemma size_t_add_small a b :
  (0 <= a)%Z -> (0 <= b)%Z -> (a + b < 2 ^ 64)%Z -> size_t_add a b = (a + b)%Z.
Proof. intros. unfold size_t_add. apply Z.mod_small. lia. Qed.

Section StackBasics.
Context {DirtyPiece : Type} `{FS : FeatureSet DirtyPiece} `{HW : SIMD}.
Local Abbreviation State := (AccumulatorState DirtyPiece).
Local Abbreviation Stack := (AccumulatorStack DirtyPiece).

Lemma stack_at_nat (s : Stack) i : stack_at s (Z.of_nat i) = m_accumulators s !! i.
Proof. unfold stack_at. by rewrite Nat2Z.id. Qed.

Lemma find_loop_spec p accPtr (s : Stack) :
  (stack_size s < 2 ^ 64)%Z ->
  forall fuel c, c < length (m_accumulators s) -> c <= fuel ->
  exists k, k <= c /\
    find_last_usable_loop fuel p accPtr s (Z.of_nat c) = Some (Z.of_nat k) /\
    (k = 0 \/ exists st, m_accumulators s !! k = Some st /\ usable p accPtr st = true) /\
    (forall j st, k < j <= c -> m_accumulators s !! j = Some st ->
       usable p accPtr st = false).
Proof.
  intros Hsz. induction fuel as [|fuel IH]; intros c Hc Hf.
  - assert (c = 0) as -> by lia. exists 0. simpl. repeat split; auto. intros; lia.
  - destruct c as [|c].
    { exists 0. simpl. repeat split; auto. intros; lia. }
    cbn [find_last_usable_loop].
    replace (0 <? Z.of_nat (S c))%Z with true by (symmetry; apply Z.ltb_lt; lia).
    rewrite stack_at_nat.
    destruct (lookup_lt_is_Some_2 (m_accumulators s) (S c) Hc) as [st Hst].
    rewrite Hst. simpl.
    destruct (computed (acc_get accPtr st) p) eqn:Hcomp.
    { exists (S c). repeat split; auto.
      - right. exists st. split; [done|]. unfold usable. by rewrite Hcomp.
      - intros; lia. }
    destruct (requires_refresh (dirtyPiece st) p) eqn:Hrr.
    { exists (S c). repeat split; auto.
      - right. exists st. split; [done|]. unfold usable. by rewrite Hcomp, Hrr.
      - intros; lia. }
    unfold stack_size in Hsz.
    rewrite size_t_sub_small by lia.
    replace (Z.of_nat (S c) - 1)%Z with (Z.of_nat c) by lia.
    destruct (IH c ltac:(lia) ltac:(lia)) as (k & Hk & Hfind & Hu & Hno).
    exists k. repeat split; auto.
    intros j st' Hj Hl. destruct (decide (j = S c)) as [->|].
    + rewrite Hst in Hl. injection Hl as <-. unfold usable. by rewrite Hcomp, Hrr.
    + apply (Hno j); [lia | done].
Qed.

Lemma find_last_usable_spec p accPtr (s : Stack) :
  idx_ok s ->
  exists k, find_last_usable_accumulator p accPtr s = Some (Z.of_nat k)
            /\ is_last_usable p accPtr s k.
Proof.
  intros [[H1 H2] H3]. unfold find_last_usable_accumulator. unfold stack_size in *.
  rewrite size_t_sub_small by lia.
  replace (m_current_idx s - 1)%Z with (Z.of_nat (Z.to_nat (m_current_idx s) - 1)) by lia.
  destruct (find_loop_spec p accPtr s H3 (length (m_accumulators s))
              (Z.to_nat (m_current_idx s) - 1) ltac:(lia) ltac:(lia))
    as (k & Hk & Hfind & Hu & Hno).
  exists k. split; [done|]. split; [lia|]. split; [done|].
  intros j st Hj Hlt Hl. apply (Hno j); [lia | done].
Qed.

End StackBasics.

Section StackMono.
Context {DirtyPiece : Type} `{FS : FeatureSet DirtyPiece} `{HW : SIMD}.
Local Abbreviation State := (AccumulatorState DirtyPiece).
Local Abbreviation Stack := (AccumulatorStack DirtyPiece).

Lemma incremental_inv p dir accPtr ft ksq (target source t' : State) :
  update_accumulator_incremental p dir accPtr ft ksq target source = Some t' ->
  exists ops idxs,
    t' = set_computed accPtr (apply p accPtr ft source target ops idxs) p true.
Proof.
  unfold update_accumulator_incremental. intros H.
  repeat (apply bind_assert in H as [_ H]).
  destruct (incremental_indices p dir ksq target source) as [removed added].
  repeat (apply bind_assert in H as [_ H]).
  apply bind_Some in H as (u & Hu & H). injection H as <-.
  repeat case_match; apply bind_assert in Hu as [_ Hu]; injection Hu as <-; eauto.
Qed.

Lemma computed_apply p accPtr accPtr' ft (from to : State) ops idxs :
  computed (acc_get accPtr' (apply p accPtr ft from to ops idxs))
  = computed (acc_get accPtr' to).
Proof. unfold apply. by destruct accPtr, accPtr'. Qed.

Lemma dirtyPiece_apply p accPtr ft (from to : State) ops idxs :
  dirtyPiece (apply p accPtr ft from to ops idxs) = dirtyPiece to.
Proof. unfold apply. by rewrite dirtyPiece_acc_set. Qed.

Lemma flags_le_refl (st : State) : flags_le st st.
Proof. by intros ? ?. Qed.

Lemma flags_le_trans (a b c : State) : flags_le a b -> flags_le b c -> flags_le a c.
Proof. intros H1 H2 ? ? ?. by apply H2, H1. Qed.

Lemma set_computed_flags accPtr (st : State) p :
  flags_le st (set_computed accPtr st p true)
  /\ dirtyPiece (set_computed accPtr st p true) = dirtyPiece st
  /\ computed (acc_get accPtr (set_computed accPtr st p true)) p = true.
Proof.
  unfold set_computed. rewrite dirtyPiece_acc_set, acc_get_set. simpl.
  rewrite set_color_eq. repeat split; try done.
  intros a' p' H. destruct (decide (a' = accPtr)) as [->|Hne].
  - rewrite acc_get_set. simpl. unfold set_color. by case_decide.
  - by rewrite acc_get_set_ne.
Qed.

Lemma incremental_flags p dir accPtr ft ksq (target source t' : State) :
  update_accumulator_incremental p dir accPtr ft ksq target source = Some t' ->
  flags_le target t' /\ dirtyPiece t' = dirtyPiece target
  /\ computed (acc_get accPtr t') p = true.
Proof.
  intros H. apply incremental_inv in H as (ops & idxs & ->).
  destruct (set_computed_flags accPtr (apply p accPtr ft source target ops idxs) p)
    as (H1 & H2 & H3).
  rewrite dirtyPiece_apply in H2. repeat split; try done.
  intros a' p' Hc. apply H1. by rewrite computed_apply.
Qed.

Lemma refresh_flags p accPtr ft pos (st : State) cache :
  let st' := fst (update_accumulator_refresh_cache p accPtr ft pos st cache) in
  flags_le st st' /\ dirtyPiece st' = dirtyPiece st
  /\ computed (acc_get accPtr st') p = true.
Proof.
  unfold update_accumulator_refresh_cache.
  destruct (refresh_delta _ _ _ _) as [removed added]. cbn [fst].
  rewrite dirtyPiece_acc_set.
  destruct (set_computed_flags accPtr st p) as (H1 & H2 & H3).
  repeat split; try done.
  - intros a' p' Hc. destruct (decide (a' = accPtr)) as [->|Hne].
    + rewrite acc_get_set. simpl. by apply H1.
    + by rewrite acc_get_set_ne.
  - rewrite acc_get_set. simpl. exact H3.
Qed.

Lemma stack_le_refl (s : Stack) : stack_le s s.
Proof.
  repeat split. intros i st H. exists st. auto using flags_le_refl.
Qed.

Lemma stack_le_trans (a b c : Stack) : stack_le a b -> stack_le b c -> stack_le a c.
Proof.
  intros (H1 & H2 & H3) (G1 & G2 & G3). split; [congruence|]. split; [congruence|].
  intros i st Hi. destruct (H3 i st Hi) as (st' & Hi' & Hf & Hd).
  destruct (G3 i st' Hi') as (st'' & Hi'' & Hf' & Hd').
  exists st''. split; [done|]. split; [by eapply flags_le_trans | congruence].
Qed.

Lemma stack_le_set (s : Stack) i st st' :
  m_accumulators s !! i = Some st -> flags_le st st' -> dirtyPiece st' = dirtyPiece st ->
  stack_le s (stack_set s (Z.of_nat i) st').
Proof.
  intros Hi Hf Hd. unfold stack_set. rewrite Nat2Z.id. split; [done|].
  split; [apply length_insert|]. cbn [m_accumulators].
  intros j stj Hj. destruct (decide (j = i)) as [->|Hne].
  - exists st'. rewrite list_lookup_insert_eq by (by eapply lookup_lt_Some).
    rewrite Hi in Hj. injection Hj as <-. auto.
  - exists stj. rewrite list_lookup_insert_ne by done. auto using flags_le_refl.
Qed.

Lemma propagate_step_le dir p accPtr ft ksq (s s' : Stack) i :
  propagate_step dir p accPtr ft ksq s i = Some s' ->
  stack_le s s' /\ is_computed p accPtr (m_accumulators s' !! i) = true.
Proof.
  unfold propagate_step. intros H.
  apply bind_Some in H as (target & Ht & H).
  apply bind_Some in H as (source & Hs & H).
  apply bind_Some in H as (t' & Hk & H). injection H as <-.
  apply incremental_flags in Hk as (Hf & Hd & Hc). split.
  - by eapply stack_le_set.
  - unfold stack_set. cbn [m_accumulators]. rewrite Nat2Z.id.
    rewrite list_lookup_insert_eq by (by eapply lookup_lt_Some). done.
Qed.

Lemma is_computed_le p accPtr (s s' : Stack) i :
  stack_le s s' -> is_computed p accPtr (m_accumulators s !! i) = true ->
  is_computed p accPtr (m_accumulators s' !! i) = true.
Proof.
  intros (_ & _ & H) Hc. destruct (m_accumulators s !! i) as [st|] eqn:E; [|done].
  destruct (H i st E) as (st' & -> & Hf & _). simpl in *. by apply Hf.
Qed.

Lemma propagate_le dir p accPtr ft ksq idxs (s s' : Stack) :
  propagate dir p accPtr ft ksq idxs s = Some s' ->
  stack_le s s' /\
  forall i, i ∈ idxs -> is_computed p accPtr (m_accumulators s' !! i) = true.
Proof.
  revert s. induction idxs as [|i idxs IH]; intros s H; simpl in H.
  - injection H as <-. split; [apply stack_le_refl|]. intros i Hi. by apply elem_of_nil in Hi.
  - apply bind_Some in H as (s1 & H1 & H).
    apply propagate_step_le in H1 as [Hle Hc].
    destruct (IH s1 H) as [Hle' Hall]. split; [by eapply stack_le_trans|].
    intros j Hj. apply elem_of_cons in Hj as [->|Hj]; [|by apply Hall].
    by eapply is_computed_le.
Qed.

End StackMono.

Section LoopsAsLists.
Context {DirtyPiece : Type} `{FS : FeatureSet DirtyPiece} `{HW : SIMD}.
Local Abbreviation State := (AccumulatorState DirtyPiece).
Local Abbreviation Stack := (AccumulatorStack DirtyPiece).

Lemma idx_ok_le (s s' : Stack) : stack_le s s' -> idx_ok s -> idx_ok s'.
Proof. intros (H1 & H2 & _). unfold idx_ok, stack_size. by rewrite H1, H2. Qed.

Lemma forward_loop_propagate p accPtr ft ksq :
  forall c fuel next (s : Stack),
    idx_ok s -> 1 <= next -> (Z.of_nat next + Z.of_nat c = m_current_idx s)%Z -> c <= fuel ->
    forward_loop fuel p accPtr ft ksq s (Z.of_nat next)
    = propagate FORWARD p accPtr ft ksq (seq next c) s.
Proof.
  induction c as [|c IH]; intros fuel next s Hok Hn Hc Hf.
  - destruct fuel; simpl;
      (replace (Z.of_nat next <? m_current_idx s)%Z with false
         by (symmetry; apply Z.ltb_ge; lia)); done.
  - destruct fuel as [|fuel]; [lia|]. cbn [forward_loop seq propagate].
    replace (Z.of_nat next <? m_current_idx s)%Z with true
      by (symmetry; apply Z.ltb_lt; lia).
    destruct Hok as [[H1 H2] H3].
    rewrite size_t_sub_small by lia. rewrite size_t_add_small by lia.
    replace (Z.of_nat next - 1)%Z with (Z.of_nat (next - 1)) by lia.
    rewrite !stack_at_nat. unfold propagate_step.
    destruct (m_accumulators s !! next) as [target|] eqn:Et; [|done]. simpl.
    destruct (m_accumulators s !! (next - 1)) as [source|] eqn:Es; [|done]. simpl.
    destruct (update_accumulator_incremental p FORWARD accPtr ft ksq target source)
      as [t'|] eqn:Ek; [|done]. simpl.
    replace (Z.of_nat next + 1)%Z with (Z.of_nat (S next)) by lia.
    apply IH; try lia.
    + eapply idx_ok_le; [|done].
      apply incremental_flags in Ek as (Hfl & Hd & _). by eapply stack_le_set.
    + unfold stack_set. simpl. lia.
Qed.

Lemma backward_loop_propagate p accPtr ft ksq end_ :
  1 <= end_ ->
  forall c fuel (s : Stack),
    idx_ok s -> (Z.of_nat (end_ + c) <= stack_size s)%Z -> c <= fuel ->
    backward_loop fuel p accPtr ft ksq (Z.of_nat end_) s (Z.of_nat (end_ + c) - 1)
    = propagate BACKWARD p accPtr ft ksq (rev (seq end_ c)) s.
Proof.
  intros He. induction c as [|c IH]; intros fuel s Hok Hc Hf.
  - destruct fuel; simpl;
      (replace (Z.of_nat end_ <=? Z.of_nat (end_ + 0) - 1)%Z with false
         by (symmetry; apply Z.leb_gt; lia)); done.
  - destruct fuel as [|fuel]; [lia|].
    rewrite seq_S, rev_app_distr. cbn [backward_loop rev app propagate].
    replace (Z.of_nat end_ <=? Z.of_nat (end_ + S c) - 1)%Z with true
      by (symmetry; apply Z.leb_le; lia).
    destruct Hok as [[H1 H2] H3].
    replace (Z.of_nat (end_ + S c) - 1)%Z with (Z.of_nat (end_ + c)) by lia.
    rewrite size_t_sub_small by lia. rewrite size_t_add_small by lia.
    replace (Z.of_nat (end_ + c) + 1)%Z with (Z.of_nat (end_ + c + 1)) by lia.
    rewrite !stack_at_nat. unfold propagate_step.
    destruct (m_accumulators s !! (end_ + c)) as [target|] eqn:Et; [|done]. simpl.
    destruct (m_accumulators s !! (end_ + c + 1)) as [source|] eqn:Es; [|done]. simpl.
    destruct (update_accumulator_incremental p BACKWARD accPtr ft ksq target source)
      as [t'|] eqn:Ek; [|done]. simpl.
    apply incremental_flags in Ek as (Hfl & Hd & _).
    pose proof (stack_le_set s (end_ + c) target t' Et Hfl Hd) as Hle.
    apply IH; try lia.
    + by eapply idx_ok_le.
    + destruct Hle as (_ & Hlen & _). unfold stack_size in *. rewrite Hlen. lia.
Qed.

End LoopsAsLists.


Section EvaluateSide.
Context {DirtyPiece : Type} `{FS : FeatureSet DirtyPiece} `{HW : SIMD}.
Local Abbreviation State := (AccumulatorState DirtyPiece).
Local Abbreviation Stack := (AccumulatorStack DirtyPiece).

Lemma assert_true {A} (b : bool) (k : unit -> option A) :
  b = true -> assert b ≫= k = k ().
Proof. by intros ->. Qed.

Lemma evaluate_side_refines_aux p accPtr pos ft cache (s : Stack) k :
  idx_ok s ->
  is_computed p accPtr (m_accumulators s !! 0) = true ->
  find_last_usable_accumulator p accPtr s = Some (Z.of_nat k) ->
  is_last_usable p accPtr s k ->
  evaluate_side p accPtr pos ft cache s = evaluate_side_spec p accPtr pos ft cache s k.
Proof.
  intros Hok Hroot Hfind (Hk & Hus & Hno).
  pose proof Hok as [[H1 H2] H3]. unfold stack_size in *.
  unfold evaluate_side, evaluate_side_spec. rewrite Hfind. cbn [mbind option_bind].
  rewrite stack_at_nat.
  set (n := Z.to_nat (m_current_idx s)).
  assert (m_current_idx s = Z.of_nat n) as Hn by lia.
  destruct (m_accumulators s !! k) as [stk|] eqn:Ek; [|done]. cbn [mbind option_bind].
  destruct (computed (acc_get accPtr stk) p) eqn:Hcomp.
  - unfold forward_update_incremental.
    rewrite assert_true by (apply Z.ltb_lt; unfold stack_size; lia).
    rewrite stack_at_nat, Ek. rewrite assert_true by done.
    rewrite size_t_add_small by lia.
    replace (Z.of_nat k + 1)%Z with (Z.of_nat (k + 1)) by lia.
    rewrite (forward_loop_propagate p accPtr ft (square_KING pos p) (n - 1 - k)) by (done || lia).
    destruct (propagate FORWARD p accPtr ft (square_KING pos p) (seq (k + 1) (n - 1 - k)) s)
      as [s'|] eqn:Ep; [|done]. cbn [mbind option_bind].
    apply propagate_le in Ep as [Hle Hall].
    rewrite assert_true; [done|].
    unfold latest. destruct Hle as (Hidx & Hlen & Hst).
    rewrite Hidx, size_t_sub_small by lia.
    replace (m_current_idx s - 1)%Z with (Z.of_nat (n - 1)) by lia. rewrite stack_at_nat.
    destruct (decide (k = n - 1)) as [->|Hne].
    + destruct (Hst _ _ Ek) as (st' & -> & Hf & _). simpl. by apply Hf.
    + apply Hall. apply elem_of_seq. lia.
  - assert (1 <= k) as Hk1.
    { destruct k; [|lia]. rewrite Ek in Hroot. simpl in Hroot. congruence. }
    rewrite size_t_sub_small by lia.
    replace (m_current_idx s - 1)%Z with (Z.of_nat (n - 1)) by lia. rewrite stack_at_nat.
    destruct (m_accumulators s !! (n - 1)) as [stl|] eqn:El; [|done]. cbn [mbind option_bind].
    pose proof (refresh_flags p accPtr ft pos stl cache) as Hrf.
    destruct (update_accumulator_refresh_cache p accPtr ft pos stl cache) as [stl' cache'].
    cbn [fst] in Hrf. destruct Hrf as (Hf & Hd & Hc).
    pose proof (stack_le_set s (n - 1) stl stl' El Hf Hd) as Hle1.
    set (s1 := stack_set s (Z.of_nat (n - 1)) stl') in *.
    pose proof (idx_ok_le _ _ Hle1 Hok) as Hok1.
    destruct Hle1 as (Hidx1 & Hlen1 & Hst1).
    assert (m_accumulators s1 !! (n - 1) = Some stl') as El1.
    { unfold s1, stack_set. cbn [m_accumulators]. rewrite Nat2Z.id.
      apply list_lookup_insert_eq. by eapply lookup_lt_Some. }
    unfold backward_update_incremental.
    rewrite assert_true by (apply Z.ltb_lt; unfold stack_size; lia).
    rewrite assert_true by (apply Z.ltb_lt; lia).
    rewrite assert_true.
    2:{ unfold latest. rewrite Hidx1, size_t_sub_small by lia.
        replace (m_current_idx s - 1)%Z with (Z.of_nat (n - 1)) by lia.
        rewrite stack_at_nat, El1. done. }
    rewrite Hidx1, size_t_sub_small by lia.
    replace (m_current_idx s - 2)%Z with (Z.of_nat (k + (n - 1 - k)) - 1)%Z by lia.
    rewrite (backward_loop_propagate p accPtr ft (square_KING pos p) k Hk1 (n - 1 - k));
      [| done | unfold stack_size; lia | lia].
    destruct (propagate BACKWARD p accPtr ft (square_KING pos p) (rev (seq k (n - 1 - k))) s1)
      as [s'|] eqn:Ep; [|done]. cbn [mbind option_bind].
    apply propagate_le in Ep as [Hle Hall].
    rewrite assert_true; [done|]. rewrite stack_at_nat.
    destruct (decide (k = n - 1)) as [->|Hne].
    + eapply is_computed_le; [done|]. rewrite El1. done.
    + apply Hall. apply list_elem_of_In. apply -> in_rev. apply in_seq. lia.
Qed.

End EvaluateSide.


Lemma column_sum_perm m D (l1 l2 : list nat) k :
  l1 ≡ₚ l2 -> column_sum m D l1 k = column_sum m D l2 k.
Proof.
  unfold column_sum. induction 1; simpl; lia.
Qed.

Lemma incremental_dense_correct w m D (prev next removed added : list nat) n :
  next ++ removed ≡ₚ prev ++ added ->
  incremental_dense m D w (full_transform w m D prev n) removed added n
  = full_transform w m D next n.
Proof.
  intros Hp. unfold incremental_dense, full_transform. apply map_seq_ext. intros k Hk.
  rewrite lookup_total_map_seq by lia.
  pose proof (column_sum_perm m D _ _ k Hp) as Hs. rewrite !column_sum_app in Hs.
  rewrite <- Z.add_sub_assoc, wrap_add_l. f_equal. lia.
Qed.

Section Correctness.
Context {DirtyPiece : Type} `{FS : FeatureSet DirtyPiece} `{HW : SIMD}.
Local Abbreviation State := (AccumulatorState DirtyPiece).
Local Abbreviation Stack := (AccumulatorStack DirtyPiece).

Lemma acc_sized_lengths D (a : Accumulator) p :
  acc_sized D a ->
  length (accumulation a p) = D /\ length (psqtAccumulation a p) = PSQTBuckets.
Proof. intros H. apply H. Qed.

Lemma incremental_result_sized networks p accPtr (target source : State) removed added :
  state_sized networks target ->
  state_sized networks
    (incremental_result p accPtr (net_of networks accPtr) target source removed added).
Proof.
  intros Hs a' p'. unfold incremental_result.
  destruct (decide (a' = accPtr)) as [->|Hne].
  - rewrite acc_get_set. simpl. unfold set_color. case_decide.
    + unfold incremental_dense. by rewrite !length_map, !length_seq.
    + apply Hs.
  - rewrite acc_get_set_ne by done. apply Hs.
Qed.

(** One incremental step from a correct source gives a correct target. *)
Lemma incremental_result_ok networks p accPtr (target source : State)
    (pos_t pos_s : Position) removed added :
  state_ok networks pos_t target ->
  state_ok networks pos_s source ->
  computed (acc_get accPtr source) p = true ->
  active_features p pos_t ++ removed ≡ₚ active_features p pos_s ++ added ->
  state_ok networks pos_t
    (incremental_result p accPtr (net_of networks accPtr) target source removed added).
Proof.
  intros Ht Hs Hc Hp a' p'. unfold incremental_result.
  destruct (decide (a' = accPtr)) as [->|Hne].
  - rewrite acc_get_set. simpl. unfold set_color. case_decide as Hpp.
    + subst p'. intros _. destruct (Hs accPtr p Hc) as [-> ->].
      unfold dense_of, psqt_of.
      by rewrite !(incremental_dense_correct _ _ _ _ (active_features p pos_t)) by done.
    + apply Ht.
  - rewrite acc_get_set_ne by done. apply Ht.
Qed.

Lemma flags_le_incremental_result p accPtr ft (target source : State) removed added :
  flags_le target (incremental_result p accPtr ft target source removed added)
  /\ dirtyPiece (incremental_result p accPtr ft target source removed added)
     = dirtyPiece target
  /\ computed (acc_get accPtr (incremental_result p accPtr ft target source removed added)) p
     = true.
Proof.
  unfold incremental_result. rewrite dirtyPiece_acc_set, acc_get_set. simpl.
  rewrite set_color_eq. repeat split; try done.
  intros a' p' H. destruct (decide (a' = accPtr)) as [->|Hne].
  - rewrite acc_get_set. simpl. unfold set_color. by case_decide.
  - by rewrite acc_get_set_ne.
Qed.

(** Replacing one state by a better one keeps the invariant. *)
Lemma stack_inv_set networks path (s : Stack) i st st' :
  stack_inv networks path s ->
  m_accumulators s !! i = Some st ->
  state_sized networks st' ->
  (forall pos, path !! i = Some pos -> state_ok networks pos st') ->
  dirtyPiece st' = dirtyPiece st ->
  flags_le st st' ->
  stack_inv networks path (stack_set s (Z.of_nat i) st').
Proof.
  intros (Hidx & Hlen & Hsz & Hok & Hdelta & Hroot) Hi Hsz' Hok' Hd Hf.
  assert (i < length (m_accumulators s)) as Hlt by (by eapply lookup_lt_Some).
  unfold stack_set. rewrite Nat2Z.id. split; [|split; [|split; [|split; [|split]]]].
  - unfold idx_ok, stack_size in *. cbn [m_accumulators m_current_idx].
    by rewrite length_insert.
  - done.
  - intros j stj. cbn [m_accumulators]. destruct (decide (j = i)) as [->|Hne].
    + rewrite list_lookup_insert_eq by done. by intros [= <-].
    + rewrite list_lookup_insert_ne by done. apply Hsz.
  - intros j stj pos. cbn [m_accumulators]. destruct (decide (j = i)) as [->|Hne].
    + rewrite list_lookup_insert_eq by done. intros [= <-] Hp. split; [by apply Hok'|].
      by destruct (Hok i st pos Hi Hp).
    + rewrite list_lookup_insert_ne by done. apply Hok.
  - intros j stj prev pos. cbn [m_accumulators]. destruct (decide (S j = i)) as [<-|Hne].
    + rewrite list_lookup_insert_eq by done. intros [= <-] Hp Hn. rewrite Hd.
      by eapply Hdelta.
    + rewrite list_lookup_insert_ne by done. apply Hdelta.
  - destruct Hroot as (root & Hr & Hall). cbn [m_accumulators]. unfold root_computed.
    cbn [m_accumulators]. destruct (decide (i = 0)) as [->|Hne].
    + exists st'. rewrite list_lookup_insert_eq by done. split; [done|].
      intros a p. apply Hf. rewrite Hr in Hi. injection Hi as <-. apply Hall.
    + exists root. rewrite list_lookup_insert_ne by done. done.
Qed.

End Correctness.

Section Propagation.
Context {DirtyPiece : Type} `{FS : FeatureSet DirtyPiece} `{HW : SIMD}.
Local Abbreviation State := (AccumulatorState DirtyPiece).
Local Abbreviation Stack := (AccumulatorStack DirtyPiece).

Lemma usable_false p accPtr (st : State) :
  usable p accPtr st = false ->
  computed (acc_get accPtr st) p = false /\ requires_refresh (dirtyPiece st) p = false.
Proof. unfold usable. intros H. by apply orb_false_elim in H. Qed.

Lemma stack_set_lookup_ne (s : Stack) i j st :
  j <> i -> m_accumulators (stack_set s (Z.of_nat i) st) !! j = m_accumulators s !! j.
Proof.
  intros. unfold stack_set. cbn [m_accumulators]. rewrite Nat2Z.id.
  by apply list_lookup_insert_ne.
Qed.

Lemma stack_set_lookup_eq (s : Stack) i st st0 :
  m_accumulators s !! i = Some st0 ->
  m_accumulators (stack_set s (Z.of_nat i) st) !! i = Some st.
Proof.
  intros H. unfold stack_set. cbn [m_accumulators]. rewrite Nat2Z.id.
  apply list_lookup_insert_eq. by eapply lookup_lt_Some.
Qed.

Lemma forward_step_ok networks path (s : Stack) p accPtr i target source pos ksq :
  stack_inv networks path s -> nets_ok networks ->
  m_accumulators s !! (S i) = Some target ->
  m_accumulators s !! i = Some source ->
  path !! (S i) = Some pos ->
  computed (acc_get accPtr source) p = true ->
  usable p accPtr target = false ->
  ksq = square_KING pos p ->
  exists t',
    propagate_step FORWARD p accPtr (net_of networks accPtr) ksq s (S i)
    = Some (stack_set s (Z.of_nat (S i)) t')
    /\ stack_inv networks path (stack_set s (Z.of_nat (S i)) t')
    /\ stack_le s (stack_set s (Z.of_nat (S i)) t')
    /\ computed (acc_get accPtr t') p = true.
Proof.
  intros Hinv Hnets Ht Hs Hpos Hc Hu ->.
  pose proof Hinv as (Hidx & Hlen & Hsz & Hok & Hdelta & Hroot).
  apply usable_false in Hu as [Hct Hrr].
  destruct (lookup_lt_is_Some_2 path i) as [prev Hprev].
  { apply lookup_lt_Some in Hpos. lia. }
  destruct (Hdelta i target prev pos Ht Hprev Hpos p Hrr)
    as (Hk & removed & added & Hidxs & Hcontract & Hperm).
  exists (incremental_result p accPtr (net_of networks accPtr) target source removed added).
  unfold propagate_step. rewrite Ht. cbn [mbind option_bind].
  replace (S i - 1) with i by lia. rewrite Hs. cbn [mbind option_bind].
  destruct (Hsz _ _ Ht accPtr p) as [HlenA HlenP].
  rewrite (incremental_spec p FORWARD accPtr _ _ target source removed added);
    [| done | done | done | done | apply Hnets | done | done].
  cbn [mbind option_bind]. split; [done|].
  destruct (flags_le_incremental_result p accPtr (net_of networks accPtr)
              target source removed added) as (Hf & Hd & Hc').
  split; [|split; [by eapply stack_le_set | done]].
  eapply stack_inv_set; try done.
  - apply incremental_result_sized. by eapply Hsz.
  - intros pos' Hpos'. rewrite Hpos in Hpos'. injection Hpos' as <-.
    eapply incremental_result_ok; try done.
    + by destruct (Hok _ _ _ Ht Hpos).
    + by destruct (Hok _ _ _ Hs Hprev).
Qed.

Lemma sizes_contract_swap removed added :
  sizes_contract FORWARD removed added -> sizes_contract BACKWARD added removed.
Proof. intros (H1 & H2 & H3). repeat split; done. Qed.

Lemma backward_step_ok networks path (s : Stack) p accPtr i target source pos ksq :
  stack_inv networks path s -> nets_ok networks ->
  m_accumulators s !! i = Some target ->
  m_accumulators s !! (S i) = Some source ->
  path !! (S i) = Some pos ->
  computed (acc_get accPtr source) p = true ->
  computed (acc_get accPtr target) p = false ->
  requires_refresh (dirtyPiece source) p = false ->
  ksq = square_KING pos p ->
  exists t',
    propagate_step BACKWARD p accPtr (net_of networks accPtr) ksq s i
    = Some (stack_set s (Z.of_nat i) t')
    /\ stack_inv networks path (stack_set s (Z.of_nat i) t')
    /\ stack_le s (stack_set s (Z.of_nat i) t')
    /\ computed (acc_get accPtr t') p = true.
Proof.
  intros Hinv Hnets Ht Hs Hpos Hc Hct Hrr ->.
  pose proof Hinv as (Hidx & Hlen & Hsz & Hok & Hdelta & Hroot).
  destruct (lookup_lt_is_Some_2 path i) as [prev Hprev].
  { apply lookup_lt_Some in Hpos. lia. }
  destruct (Hdelta i source prev pos Hs Hprev Hpos p Hrr)
    as (Hk & removed & added & Hidxs & Hcontract & Hperm).
  exists (incremental_result p accPtr (net_of networks accPtr) target source added removed).
  unfold propagate_step. rewrite Ht. cbn [mbind option_bind].
  replace (i + 1) with (S i) by lia. rewrite Hs. cbn [mbind option_bind].
  destruct (Hsz _ _ Ht accPtr p) as [HlenA HlenP].
  rewrite (incremental_spec p BACKWARD accPtr _ _ target source added removed);
    [| done | done | unfold incremental_indices; by rewrite Hidxs
     | by apply sizes_contract_swap | apply Hnets | done | done].
  cbn [mbind option_bind]. split; [done|].
  destruct (flags_le_incremental_result p accPtr (net_of networks accPtr)
              target source added removed) as (Hf & Hd & Hc').
  split; [|split; [by eapply stack_le_set | done]].
  eapply stack_inv_set; try done.
  - apply incremental_result_sized. by eapply Hsz.
  - intros pos' Hpos'. rewrite Hprev in Hpos'. injection Hpos' as <-.
    eapply incremental_result_ok; try done.
    + by destruct (Hok _ _ _ Ht Hprev).
    + by destruct (Hok _ _ _ Hs Hpos).
Qed.

Lemma stack_inv_bounds networks path (s : Stack) :
  stack_inv networks path s ->
  1 <= length path /\ length path <= length (m_accumulators s)
  /\ Z.to_nat (m_current_idx s) = length path.
Proof.
  intros ([[H1 H2] H3] & Hlen & _). unfold stack_size in *. lia.
Qed.

Lemma forward_propagate_ok networks path p accPtr ksq :
  nets_ok networks ->
  forall c i (s : Stack),
    stack_inv networks path s ->
    is_computed p accPtr (m_accumulators s !! i) = true ->
    (forall j st, i < j <= i + c -> m_accumulators s !! j = Some st ->
       usable p accPtr st = false) ->
    (forall j pos, i < j <= i + c -> path !! j = Some pos -> square_KING pos p = ksq) ->
    i + c < length path ->
    exists s',
      propagate FORWARD p accPtr (net_of networks accPtr) ksq (seq (S i) c) s = Some s'
      /\ stack_inv networks path s' /\ stack_le s s'.
Proof.
  intros Hnets. induction c as [|c IH]; intros i s Hinv Hc Hno Hk Hlt.
  - exists s. simpl. auto using stack_le_refl.
  - destruct (stack_inv_bounds _ _ _ Hinv) as (_ & Hb & _).
    destruct (lookup_lt_is_Some_2 (m_accumulators s) (S i) ltac:(lia)) as [target Ht].
    destruct (m_accumulators s !! i) as [source|] eqn:Hs; [|done]. simpl in Hc.
    destruct (lookup_lt_is_Some_2 path (S i) ltac:(lia)) as [pos Hpos].
    destruct (forward_step_ok networks path s p accPtr i target source pos ksq)
      as (t' & Hstep & Hinv1 & Hle1 & Hc1); try done.
    { apply (Hno (S i)); [lia | done]. }
    { symmetry. apply (Hk (S i)); [lia | done]. }
    cbn [seq propagate]. rewrite Hstep. cbn [mbind option_bind].
    destruct (IH (S i) (stack_set s (Z.of_nat (S i)) t')) as (s' & Hp & Hinv' & Hle'); try done.
    + by rewrite (stack_set_lookup_eq s (S i) t' target).
    + intros j st Hj. rewrite stack_set_lookup_ne by lia. apply Hno. lia.
    + intros j pos' Hj. apply Hk. lia.
    + lia.
    + exists s'. split; [done|]. split; [done|]. by eapply stack_le_trans.
Qed.

Lemma backward_propagate_ok networks path p accPtr ksq e :
  nets_ok networks ->
  forall c (s : Stack),
    stack_inv networks path s ->
    is_computed p accPtr (m_accumulators s !! (e + c)) = true ->
    (forall j st, e <= j < e + c -> m_accumulators s !! j = Some st ->
       computed (acc_get accPtr st) p = false) ->
    (forall j st, e < j <= e + c -> m_accumulators s !! j = Some st ->
       requires_refresh (dirtyPiece st) p = false) ->
    (forall j pos, e < j <= e + c -> path !! j = Some pos -> square_KING pos p = ksq) ->
    e + c < length path ->
    exists s',
      propagate BACKWARD p accPtr (net_of networks accPtr) ksq (rev (seq e c)) s = Some s'
      /\ stack_inv networks path s' /\ stack_le s s'.
Proof.
  intros Hnets. induction c as [|c IH]; intros s Hinv Hc Hnc Hrr Hk Hlt.
  - exists s. simpl. auto using stack_le_refl.
  - destruct (stack_inv_bounds _ _ _ Hinv) as (_ & Hb & _).
    replace (e + S c) with (S (e + c)) in * by lia.
    destruct (lookup_lt_is_Some_2 (m_accumulators s) (e + c) ltac:(lia)) as [target Ht].
    destruct (m_accumulators s !! S (e + c)) as [source|] eqn:Hs; [|done]. simpl in Hc.
    destruct (lookup_lt_is_Some_2 path (S (e + c)) ltac:(lia)) as [pos Hpos].
    destruct (backward_step_ok networks path s p accPtr (e + c) target source pos ksq)
      as (t' & Hstep & Hinv1 & Hle1 & Hc1); try done.
    { apply (Hnc (e + c)); [lia | done]. }
    { apply (Hrr (S (e + c))); [lia | done]. }
    { symmetry. apply (Hk (S (e + c))); [lia | done]. }
    rewrite seq_S, rev_app_distr. cbn [rev app propagate]. rewrite Hstep.
    cbn [mbind option_bind].
    destruct (IH (stack_set s (Z.of_nat (e + c)) t')) as (s' & Hp & Hinv' & Hle'); try done.
    + by rewrite (stack_set_lookup_eq s (e + c) t' target).
    + intros j st Hj. rewrite stack_set_lookup_ne by lia. apply Hnc. lia.
    + intros j st Hj Hl. destruct (decide (j = e + c)) as [->|Hne].
      * rewrite (stack_set_lookup_eq s (e + c) t' target) in Hl by done.
        injection Hl as <-. destruct Hle1 as (_ & _ & H).
        destruct (H _ _ Ht) as (t'' & Ht'' & _ & Hd).
        rewrite (stack_set_lookup_eq s (e + c) t' target) in Ht'' by done.
        injection Ht'' as <-. rewrite Hd. apply (Hrr (e + c)); [lia | done].
      * rewrite stack_set_lookup_ne in Hl by done. apply (Hrr j); [lia | done].
    + intros j pos' Hj. apply Hk. lia.
    + lia.
    + exists s'. split; [done|]. split; [done|]. by eapply stack_le_trans.
Qed.

End Propagation.


Section RefreshInv.
Context {DirtyPiece : Type} `{FS : FeatureSet DirtyPiece} `{HW : SIMD}.
Local Abbreviation State := (AccumulatorState DirtyPiece).
Local Abbreviation Stack := (AccumulatorStack DirtyPiece).

Lemma cache_set_eq (cache : Cache) ksq p e : cache_set cache ksq p e ksq p = e.
Proof. unfold cache_set. by rewrite decide_True. Qed.

Lemma cache_set_ne (cache : Cache) ksq p e k c :
  ~ (k = ksq /\ c = p) -> cache_set cache ksq p e k c = cache k c.
Proof. intros. unfold cache_set. by rewrite decide_False. Qed.

(** The refresh kernel keeps the cache invariant, and its entry then
    stores the boards of the position. *)
Lemma refresh_cache_ok p accPtr ft pos (st : State) cache :
  simd_ok (Dimensions ft) -> pos_ok pos -> cache_ok ft cache ->
  acc_sized (Dimensions ft) (acc_get accPtr st) ->
  exists cache',
    update_accumulator_refresh_cache p accPtr ft pos st cache
    = (refreshed_state p accPtr ft pos st, cache')
    /\ cache_ok ft cache'
    /\ (forall c, byColorBB (cache' (square_KING pos p) p) c = pieces_color pos c)
    /\ (forall pt, byTypeBB (cache' (square_KING pos p) p) pt = pieces_type pos pt)
    /\ entry_accumulation (cache' (square_KING pos p) p) = dense_of ft (active_features p pos)
    /\ entry_psqtAccumulation (cache' (square_KING pos p) p)
       = psqt_of ft (active_features p pos)
    /\ (forall k c, ~ (k = square_KING pos p /\ c = p) -> cache' k c = cache k c).
Proof.
  intros Hsimd Hpos Hcache Hsz.
  destruct (refresh_cache_spec p accPtr ft pos st cache Hsimd Hpos (Hcache _ _) Hsz)
    as (entry' & Heq & Hacc & Hpsqt & Hcol & Htyp).
  exists (cache_set cache (square_KING pos p) p entry'). rewrite cache_set_eq.
  split; [done|]. split; [|split; [done|split; [done|split; [done|split; [done|]]]]].
  - intros k c. destruct (decide (k = square_KING pos p /\ c = p)) as [[-> ->]|Hne].
    + rewrite cache_set_eq.
      assert (features_of p (square_KING pos p) (stored_boards entry')
              = active_features p pos) as Hfeat.
      { unfold active_features. apply features_of_ext. intros c pt.
        unfold stored_boards. rewrite Hcol, Htyp. symmetry. apply Hpos. }
      split; [|split].
      * intros c. rewrite Hcol. apply Hpos.
      * by rewrite Hfeat.
      * by rewrite Hfeat.
    + rewrite cache_set_ne by done. apply Hcache.
  - intros k c Hne. by apply cache_set_ne.
Qed.

Lemma refreshed_state_sized networks p accPtr pos (st : State) :
  state_sized networks st ->
  state_sized networks (refreshed_state p accPtr (net_of networks accPtr) pos st).
Proof.
  intros Hs a' p'. unfold refreshed_state.
  destruct (decide (a' = accPtr)) as [->|Hne].
  - rewrite acc_get_set. simpl. unfold set_color. case_decide.
    + unfold dense_of, psqt_of. by rewrite !full_transform_length.
    + apply Hs.
  - rewrite acc_get_set_ne by done. apply Hs.
Qed.

Lemma refreshed_state_flags p accPtr ft pos (st : State) :
  flags_le st (refreshed_state p accPtr ft pos st)
  /\ dirtyPiece (refreshed_state p accPtr ft pos st) = dirtyPiece st
  /\ computed (acc_get accPtr (refreshed_state p accPtr ft pos st)) p = true.
Proof.
  unfold refreshed_state. rewrite dirtyPiece_acc_set, acc_get_set. simpl.
  rewrite set_color_eq. repeat split; try done.
  intros a' p' H. destruct (decide (a' = accPtr)) as [->|Hne].
  - rewrite acc_get_set. simpl. unfold set_color. by case_decide.
  - by rewrite acc_get_set_ne.
Qed.

Lemma refreshed_state_ok networks p accPtr pos (st : State) :
  state_ok networks pos st ->
  state_ok networks pos (refreshed_state p accPtr (net_of networks accPtr) pos st).
Proof.
  intros Hok a' p'. unfold refreshed_state.
  destruct (decide (a' = accPtr)) as [->|Hne].
  - rewrite acc_get_set. simpl. unfold set_color. case_decide as Hp.
    + by subst.
    + apply Hok.
  - rewrite acc_get_set_ne by done. apply Hok.
Qed.

Lemma usable_false_rr p accPtr (st : State) :
  usable p accPtr st = false -> requires_refresh (dirtyPiece st) p = false.
Proof. intros H. by apply usable_false in H as [_ ?]. Qed.

Lemma usable_false_computed p accPtr (st : State) :
  usable p accPtr st = false -> computed (acc_get accPtr st) p = false.
Proof. intros H. by apply usable_false in H as [? _]. Qed.

Lemma ksq_chain networks path (s : Stack) p k pos :
  stack_inv networks path s ->
  (forall j st, k < j < length path -> m_accumulators s !! j = Some st ->
     requires_refresh (dirtyPiece st) p = false) ->
  last path = Some pos ->
  forall j pj, k <= j -> path !! j = Some pj -> square_KING pj p = square_KING pos p.
Proof.
  intros Hinv Hrr Hlast.
  pose proof Hinv as (Hidx & Hlen & Hsz & Hok & Hdelta & Hroot).
  destruct (stack_inv_bounds _ _ _ Hinv) as (Hb1 & Hb2 & _).
  rewrite last_lookup in Hlast.
  assert (forall d j pj, j + d = pred (length path) -> k <= j ->
            path !! j = Some pj -> square_KING pj p = square_KING pos p) as H.
  { induction d as [|d IH]; intros j pj Hd Hk Hj.
    - replace j with (pred (length path)) in Hj by lia. congruence.
    - destruct (lookup_lt_is_Some_2 path (S j) ltac:(lia)) as [pn Hpn].
      destruct (lookup_lt_is_Some_2 (m_accumulators s) (S j) ltac:(lia)) as [st Hst].
      destruct (Hdelta j st pj pn Hst Hj Hpn p) as [Heq _].
      { apply (Hrr (S j)); [lia | done]. }
      rewrite <- Heq. apply (IH (S j)); [lia | lia | done]. }
  intros j pj Hk Hj. apply (H (pred (length path) - j) j); try done.
  apply lookup_lt_Some in Hj. lia.
Qed.

Lemma evaluate_side_ok networks path (s : Stack) p accPtr pos cache :
  stack_inv networks path s -> nets_ok networks ->
  cache_ok (net_of networks accPtr) cache ->
  last path = Some pos ->
  exists s' cache',
    evaluate_side p accPtr pos (net_of networks accPtr) cache s = Some (s', cache')
    /\ stack_inv networks path s'
    /\ cache_ok (net_of networks accPtr) cache'
    /\ stack_le s s'
    /\ is_computed p accPtr (m_accumulators s' !! pred (length path)) = true.
Proof.
  intros Hinv Hnets Hcache Hlast.
  pose proof Hinv as (Hidx & Hlen & Hsz & Hok & Hdelta & Hroot).
  destruct (stack_inv_bounds _ _ _ Hinv) as (Hb1 & Hb2 & Hn).
  destruct (find_last_usable_spec p accPtr s Hidx) as (k & Hfind & Hlu).
  assert (is_computed p accPtr (m_accumulators s !! 0) = true) as Hr0.
  { destruct Hroot as (root & -> & Hall). apply Hall. }
  rewrite (evaluate_side_refines_aux p accPtr pos _ cache s k) by done.
  destruct Hlu as (Hk & Hus & Hno).
  unfold evaluate_side_spec. rewrite Hn.
  assert (k < length path) as Hkl by lia.
  destruct (lookup_lt_is_Some_2 (m_accumulators s) k ltac:(lia)) as [stk Ek].
  rewrite Ek. cbn [mbind option_bind].
  assert (forall j pj, k <= j -> path !! j = Some pj ->
            square_KING pj p = square_KING pos p) as Hchain.
  { apply (ksq_chain networks path s p k pos); try done.
    intros j st Hj Hl. apply (usable_false_rr p accPtr). apply (Hno j); [lia | lia | done]. }
  destruct (computed (acc_get accPtr stk) p) eqn:Hcomp.
  - destruct (forward_propagate_ok networks path p accPtr (square_KING pos p) Hnets
                (length path - 1 - k) k s) as (s' & Hp & Hinv' & Hle); try done.
    + by rewrite Ek.
    + intros j st Hj Hl. apply (Hno j); [lia | lia | done].
    + intros j pj Hj Hl. apply (Hchain j); [lia | done].
    + lia.
    + rewrite Nat.add_1_r, Hp. cbn [mbind option_bind].
      exists s', cache. do 4 (split; [done|]).
      destruct (decide (k = pred (length path))) as [->|Hne].
      * eapply is_computed_le; [done|]. by rewrite Ek.
      * apply propagate_le in Hp as [_ Hall]. apply Hall. apply elem_of_seq. lia.
  - assert (1 <= k) as Hk1.
    { destruct k; [|lia]. rewrite Ek in Hr0. simpl in Hr0. congruence. }
    replace (length path - 1) with (pred (length path)) by lia.
    destruct (lookup_lt_is_Some_2 (m_accumulators s) (pred (length path)) ltac:(lia))
      as [stl El].
    rewrite El. cbn [mbind option_bind].
    rewrite last_lookup in Hlast.
    destruct (Hok _ _ _ El Hlast) as [Hokl Hposl].
    destruct (refresh_cache_ok p accPtr (net_of networks accPtr) pos stl cache)
      as (cache' & Heq & Hcache' & _); try done.
    { by eapply Hsz. }
    rewrite Heq.
    destruct (refreshed_state_flags p accPtr (net_of networks accPtr) pos stl)
      as (Hf & Hd & Hc).
    set (stl' := refreshed_state p accPtr (net_of networks accPtr) pos stl) in *.
    pose proof (stack_le_set s _ stl stl' El Hf Hd) as Hle1.
    assert (stack_inv networks path (stack_set s (Z.of_nat (pred (length path))) stl')) as Hinv1.
    { eapply stack_inv_set; try done.
      - apply refreshed_state_sized. by eapply Hsz.
      - intros pos' Hpos'. rewrite Hlast in Hpos'. injection Hpos' as <-.
        by apply refreshed_state_ok. }
    set (s1 := stack_set s (Z.of_nat (pred (length path))) stl') in *.
    destruct (backward_propagate_ok networks path p accPtr (square_KING pos p) k Hnets
                (pred (length path) - k) s1) as (s' & Hp & Hinv' & Hle); try done.
    + replace (k + (pred (length path) - k)) with (pred (length path)) by lia.
      unfold s1. by rewrite (stack_set_lookup_eq s _ stl' stl).
    + intros j st Hj. unfold s1. rewrite stack_set_lookup_ne by lia. intros Hl.
      destruct (decide (j = k)) as [->|Hne]; [congruence|].
      apply (usable_false_computed p accPtr). apply (Hno j); [lia | lia | done].
    + intros j st Hj Hl. destruct (decide (j = pred (length path))) as [->|Hne].
      * unfold s1 in Hl. rewrite (stack_set_lookup_eq s _ stl' stl) in Hl by done.
        injection Hl as <-. rewrite Hd. apply (usable_false_rr p accPtr).
        apply (Hno (pred (length path))); [lia | lia | done].
      * unfold s1 in Hl. rewrite stack_set_lookup_ne in Hl by done.
        apply (usable_false_rr p accPtr). apply (Hno j); [lia | lia | done].
    + intros j pj Hj Hl. apply (Hchain j); [lia | done].
    + lia.
    + fold s1. rewrite Hp. cbn [mbind option_bind].
      exists s', cache'. do 3 (split; [done|]). split; [by eapply stack_le_trans|].
      eapply is_computed_le; [done|].
      unfold s1. by rewrite (stack_set_lookup_eq s _ stl' stl).
Qed.

End RefreshInv.


Section Operations.
Context {DirtyPiece : Type} `{FS : FeatureSet DirtyPiece} `{HW : SIMD}.
Local Abbreviation State := (AccumulatorState DirtyPiece).
Local Abbreviation Stack := (AccumulatorStack DirtyPiece).

Lemma evaluate_ok networks path (s : Stack) accPtr pos cache :
  stack_inv networks path s -> nets_ok networks ->
  cache_ok (net_of networks accPtr) cache ->
  last path = Some pos ->
  exists s' cache',
    evaluate accPtr pos (net_of networks accPtr) cache s = Some (s', cache')
    /\ stack_inv networks path s'
    /\ cache_ok (net_of networks accPtr) cache'
    /\ stack_le s s'
    /\ forall p, is_computed p accPtr (m_accumulators s' !! pred (length path)) = true.
Proof.
  intros Hinv Hnets Hcache Hlast. unfold evaluate.
  destruct (evaluate_side_ok networks path s WHITE accPtr pos cache)
    as (s1 & c1 & -> & Hinv1 & Hc1 & Hle1 & Hw); try done.
  cbn [mbind option_bind].
  destruct (evaluate_side_ok networks path s1 BLACK accPtr pos c1)
    as (s2 & c2 & -> & Hinv2 & Hc2 & Hle2 & Hb); try done.
  exists s2, c2. do 3 (split; [done|]). split; [by eapply stack_le_trans|].
  intros [|]; [|done]. by eapply is_computed_le.
Qed.

Lemma reset_root_ok networks pos (st : State) :
  let r :=
    refreshed_state BLACK accumulatorSmallPtr (small networks) pos
      (refreshed_state WHITE accumulatorSmallPtr (small networks) pos
         (refreshed_state BLACK accumulatorBigPtr (big networks) pos
            (refreshed_state WHITE accumulatorBigPtr (big networks) pos st))) in
  state_ok networks pos r /\ (forall a p, computed (acc_get a r) p = true).
Proof.
  split.
  - intros a p _. destruct a, p; split; reflexivity.
  - intros a p. by destruct a, p.
Qed.

Lemma reset_ok networks (s0 : Stack) rootPos caches :
  nets_ok networks -> caches_ok networks caches -> pos_ok rootPos ->
  stack_sized networks s0 ->
  1 <= length (m_accumulators s0) -> (stack_size s0 < 2 ^ 64)%Z ->
  exists s1 caches1,
    AccumulatorStack_reset s0 rootPos networks caches = Some (s1, caches1)
    /\ stack_inv networks [rootPos] s1 /\ caches_ok networks caches1
    /\ length (m_accumulators s1) = length (m_accumulators s0).
Proof.
  intros Hnets Hcaches Hpos Hsz Hlen Hsize. unfold AccumulatorStack_reset.
  destruct (lookup_lt_is_Some_2 (m_accumulators s0) 0 ltac:(lia)) as [root Hroot].
  unfold stack_at. cbn [m_accumulators]. change (Z.to_nat 0) with 0. rewrite Hroot.
  cbn [mbind option_bind].
  pose proof (Hsz _ _ Hroot) as Hsr.
  destruct (refresh_cache_ok WHITE accumulatorBigPtr (big networks) rootPos root
              (caches_big caches)) as (cb1 & -> & Hcb1 & _);
    [apply (Hnets accumulatorBigPtr) | done | apply (Hcaches accumulatorBigPtr)
     | apply (Hsr accumulatorBigPtr) |].
  pose proof (refreshed_state_sized networks WHITE accumulatorBigPtr rootPos root Hsr) as Hs1.
  cbn [net_of] in Hs1.
  set (r1 := refreshed_state WHITE accumulatorBigPtr (big networks) rootPos root) in *.
  destruct (refresh_cache_ok BLACK accumulatorBigPtr (big networks) rootPos r1 cb1)
    as (cb2 & -> & Hcb2 & _);
    [apply (Hnets accumulatorBigPtr) | done | done | apply (Hs1 accumulatorBigPtr) |].
  pose proof (refreshed_state_sized networks BLACK accumulatorBigPtr rootPos _ Hs1) as Hs2.
  cbn [net_of] in Hs2.
  set (r2 := refreshed_state BLACK accumulatorBigPtr (big networks) rootPos r1) in *.
  destruct (refresh_cache_ok WHITE accumulatorSmallPtr (small networks) rootPos r2
              (caches_small caches)) as (cs1 & -> & Hcs1 & _);
    [apply (Hnets accumulatorSmallPtr) | done | apply (Hcaches accumulatorSmallPtr)
     | apply (Hs2 accumulatorSmallPtr) |].
  pose proof (refreshed_state_sized networks WHITE accumulatorSmallPtr rootPos _ Hs2) as Hs3.
  cbn [net_of] in Hs3.
  set (r3 := refreshed_state WHITE accumulatorSmallPtr (small networks) rootPos r2) in *.
  destruct (refresh_cache_ok BLACK accumulatorSmallPtr (small networks) rootPos r3 cs1)
    as (cs2 & -> & Hcs2 & _);
    [apply (Hnets accumulatorSmallPtr) | done | done | apply (Hs3 accumulatorSmallPtr) |].
  pose proof (refreshed_state_sized networks BLACK accumulatorSmallPtr rootPos _ Hs3) as Hs4.
  cbn [net_of] in Hs4.
  destruct (reset_root_ok networks rootPos root) as [Hok Hall].
  eexists _, _. split; [done|].
  unfold stack_set. cbn [m_accumulators m_current_idx]. change (Z.to_nat 0) with 0.
  split; [|split].
  - split; [|split; [|split; [|split; [|split]]]];
      unfold root_computed; cbn [m_accumulators m_current_idx]; change (Z.to_nat 0) with 0.
    + unfold idx_ok, stack_size. cbn [m_accumulators m_current_idx].
      rewrite length_insert. unfold stack_size in Hsize. lia.
    + done.
    + intros i st. cbn [m_accumulators]. destruct (decide (i = 0)) as [->|Hne].
      * rewrite list_lookup_insert_eq by lia. by intros [= <-].
      * rewrite list_lookup_insert_ne by done. apply Hsz.
    + intros i st pos Hi Hp. destruct i as [|i]; [|done]. simpl in Hp.
      injection Hp as <-. cbn [m_accumulators] in Hi.
      rewrite list_lookup_insert_eq in Hi by lia.
      injection Hi as <-. done.
    + intros i st prev pos _ _ Hp. by destruct i.
    + eexists. split; [apply list_lookup_insert_eq; lia|]. exact Hall.
  - intros a. destruct a; done.
  - apply length_insert.
Qed.

Lemma AccumulatorState_reset_sized networks (st : State) dp :
  state_sized networks st -> state_sized networks (AccumulatorState_reset st dp).
Proof.
  intros H a p. destruct a.
  - apply (H accumulatorBigPtr p).
  - apply (H accumulatorSmallPtr p).
Qed.

Lemma push_ok networks path (s : Stack) dp prev after :
  stack_inv networks path s ->
  length path + 1 < length (m_accumulators s) ->
  pos_ok after -> last path = Some prev ->
  (forall p, delta_ok p dp prev after) ->
  exists s', push s dp = Some s'
    /\ stack_inv networks (path ++ [after]) s'
    /\ length (m_accumulators s') = length (m_accumulators s).
Proof.
  intros Hinv Hcap Hpos Hlast Hdp.
  pose proof Hinv as (Hidx & Hlen & Hsz & Hok & Hdelta & Hroot).
  destruct (stack_inv_bounds _ _ _ Hinv) as (Hb1 & Hb2 & Hn).
  destruct Hidx as [[H1 H2] H3]. unfold stack_size in *.
  unfold push. rewrite size_t_add_small by lia.
  rewrite assert_true by (apply Z.ltb_lt; unfold stack_size; lia).
  rewrite Hlen, stack_at_nat.
  destruct (lookup_lt_is_Some_2 (m_accumulators s) (length path) ltac:(lia)) as [st Hst].
  rewrite Hst. cbn [mbind option_bind]. eexists. split; [done|].
  unfold stack_set. cbn [m_accumulators m_current_idx]. rewrite Nat2Z.id.
  rewrite ?Hlen. rewrite ?size_t_add_small by lia.
  rewrite last_lookup in Hlast.
  split; [|apply length_insert].
  split; [|split; [|split; [|split; [|split]]]];
    unfold root_computed; cbn [m_accumulators m_current_idx].
  - unfold idx_ok, stack_size. cbn [m_accumulators m_current_idx].
    rewrite length_insert. lia.
  - rewrite length_app. simpl. lia.
  - intros i sti. cbn [m_accumulators]. destruct (decide (i = length path)) as [->|Hne].
    + rewrite list_lookup_insert_eq by lia. intros [= <-].
      apply AccumulatorState_reset_sized. by eapply Hsz.
    + rewrite list_lookup_insert_ne by done. apply Hsz.
  - intros i sti pos. cbn [m_accumulators]. destruct (decide (i = length path)) as [->|Hne].
    + rewrite list_lookup_insert_eq by lia. intros [= <-].
      rewrite lookup_app_r, Nat.sub_diag by lia. intros [= <-]. split; [|done].
      intros a p. by destruct a.
    + rewrite list_lookup_insert_ne by done. intros Hi Hp.
      apply lookup_app_Some in Hp as [Hp|[Hge Hp]].
      * by eapply Hok.
      * apply lookup_lt_Some in Hp. simpl in Hp. lia.
  - intros i sti pv pos. cbn [m_accumulators]. destruct (decide (S i = length path)) as [He|Hne].
    + rewrite He, list_lookup_insert_eq by lia. intros [= <-].
      rewrite lookup_app_l by lia. rewrite lookup_app_r, Nat.sub_diag by lia.
      replace i with (pred (length path)) by lia. rewrite Hlast.
      intros [= <-] [= <-]. exact Hdp.
    + rewrite list_lookup_insert_ne by done. intros Hi Hpv Hp.
      apply lookup_app_Some in Hp as [Hp|[Hge Hp]].
      * apply lookup_app_Some in Hpv as [Hpv|[Hge Hpv]].
        -- by eapply Hdelta.
        -- apply lookup_lt_Some in Hp. lia.
      * apply lookup_lt_Some in Hp. simpl in Hp. lia.
  - destruct Hroot as (root & Hr & Hall). exists root.
    rewrite list_lookup_insert_ne by lia. done.
Qed.

Lemma removelast_take {A} (l : list A) : removelast l = take (pred (length l)) l.
Proof. apply removelast_firstn_len. Qed.

Lemma pop_ok networks path (s : Stack) :
  stack_inv networks path s -> 1 < length path ->
  exists s', pop s = Some s'
    /\ stack_inv networks (removelast path) s'
    /\ length (m_accumulators s') = length (m_accumulators s).
Proof.
  intros Hinv Hcap.
  pose proof Hinv as (Hidx & Hlen & Hsz & Hok & Hdelta & Hroot).
  destruct Hidx as [[H1 H2] H3]. unfold stack_size in *.
  unfold pop. rewrite assert_true by (apply Z.ltb_lt; lia).
  cbn [mbind option_bind]. eexists. split; [done|]. split; [|done].
  rewrite size_t_sub_small by lia. rewrite removelast_take.
  assert (forall i (x : Position), take (pred (length path)) path !! i = Some x ->
            path !! i = Some x) as Htake.
  { intros i x Hx. apply lookup_take_Some in Hx. tauto. }
  split; [|split; [|split; [|split; [|split]]]];
    unfold root_computed; cbn [m_accumulators m_current_idx].
  - unfold idx_ok, stack_size. cbn [m_accumulators m_current_idx]. lia.
  - rewrite length_take. lia.
  - done.
  - intros i st pos Hi Hp. eapply Hok; eauto.
  - intros i st pv pos Hi Hpv Hp. eapply Hdelta; eauto.
  - done.
Qed.

End Operations.


Section Runs.
Context {DirtyPiece : Type} `{FS : FeatureSet DirtyPiece} `{HW : SIMD}.
Local Abbreviation State := (AccumulatorState DirtyPiece).
Local Abbreviation Stack := (AccumulatorStack DirtyPiece).

Lemma caches_ok_set networks caches accPtr c :
  caches_ok networks caches -> cache_ok (net_of networks accPtr) c ->
  caches_ok networks (set_cache caches accPtr c).
Proof.
  intros H Hc a. destruct accPtr, a; simpl; try done.
  - apply (H accumulatorSmallPtr).
  - apply (H accumulatorBigPtr).
Qed.

(** A run of operations that respects the preconditions succeeds and
    keeps the invariants. *)
Lemma run_ops_ok networks :
  nets_ok networks ->
  forall ops path (s : Stack) caches,
    stack_inv networks path s -> caches_ok networks caches ->
    ops_ok (length (m_accumulators s)) path ops ->
    exists s' caches',
      run_ops networks ops (s, caches) = Some (s', caches')
      /\ stack_inv networks (path_after path ops) s'
      /\ caches_ok networks caches'
      /\ length (m_accumulators s') = length (m_accumulators s).
Proof.
  intros Hnets. induction ops as [|op ops IH]; intros path s caches Hinv Hc Hops.
  - exists s, caches. simpl. done.
  - destruct op as [dp after| |accPtr pos]; cbn [ops_ok] in Hops; cbn [run_ops run_op path_after].
    + destruct Hops as (Hcap & Hpos & (prev & Hlast & Hdp) & Hrest).
      destruct (push_ok networks path s dp prev after) as (s1 & -> & Hinv1 & Hlen1); try done.
      cbn [mbind option_bind].
      destruct (IH (path ++ [after]) s1 caches) as (s' & c' & Hrun & Hinv' & Hc' & Hlen');
        try done.
      { by rewrite Hlen1. }
      exists s', c'. split; [done|]. split; [done|]. split; [done|]. congruence.
    + destruct Hops as (Hcap & Hrest).
      destruct (pop_ok networks path s) as (s1 & -> & Hinv1 & Hlen1); try done.
      cbn [mbind option_bind].
      destruct (IH (removelast path) s1 caches) as (s' & c' & Hrun & Hinv' & Hc' & Hlen');
        try done.
      { by rewrite Hlen1. }
      exists s', c'. split; [done|]. split; [done|]. split; [done|]. congruence.
    + destruct Hops as (Hlast & Hrest).
      destruct (evaluate_ok networks path s accPtr pos (cache_of caches accPtr))
        as (s1 & c1 & -> & Hinv1 & Hc1 & Hle1 & _); [done | done | apply Hc | done |].
      cbn [mbind option_bind].
      destruct Hle1 as (_ & Hlen1 & _).
      assert (ops_ok (length (m_accumulators s1)) path ops) as Hrest1
        by (by rewrite Hlen1).
      destruct (IH path s1 (set_cache caches accPtr c1) Hinv1
                  (caches_ok_set _ _ _ _ Hc Hc1) Hrest1)
        as (s' & c' & Hrun & Hinv' & Hc' & Hlen').
      exists s', c'. split; [done|]. split; [done|]. split; [done|]. congruence.
Qed.

Lemma run_ops_app networks ops1 ops2 (w : Stack * AccumulatorCaches) :
  run_ops networks (ops1 ++ ops2) w = run_ops networks ops1 w ≫= run_ops networks ops2.
Proof.
  revert w. induction ops1 as [|op ops1 IH]; intros w; simpl; [done|].
  destruct (run_op networks op w) as [w'|]; simpl; [apply IH | done].
Qed.

Lemma path_after_app path (ops1 ops2 : list (Op DirtyPiece)) :
  path_after path (ops1 ++ ops2) = path_after (path_after path ops1) ops2.
Proof.
  revert path. induction ops1 as [|op ops1 IH]; intros path; simpl; [done|].
  destruct op; apply IH.
Qed.

Lemma ops_ok_app cap path (ops1 ops2 : list (Op DirtyPiece)) :
  ops_ok cap path (ops1 ++ ops2) <->
  ops_ok cap path ops1 /\ ops_ok cap (path_after path ops1) ops2.
Proof.
  revert path. induction ops1 as [|op ops1 IH]; intros path; simpl; [tauto|].
  destruct op; rewrite IH; tauto.
Qed.

Lemma empty_cache_ok ft : cache_ok ft (empty_cache (Dimensions ft)).
Proof.
  intros ksq p. split; [|split]; cbn.
  - intros c. split; [done|]. by apply Z.pow_pos_nonneg.
  - unfold dense_of, full_transform.
    apply list_eq_same_length with (Dimensions ft);
      [by rewrite length_map, length_seq | by rewrite length_replicate|].
    intros i x y Hi Hx Hy. apply lookup_replicate in Hx as [-> _].
    change (map ?f ?l) with (f <$> l) in Hy.
    rewrite list_lookup_fmap, lookup_seq_lt in Hy by done. by injection Hy as <-.
  - unfold psqt_of, full_transform.
    apply list_eq_same_length with PSQTBuckets;
      [by rewrite length_map, length_seq | by rewrite length_replicate|].
    intros i x y Hi Hx Hy. apply lookup_replicate in Hx as [-> _].
    change (map ?f ?l) with (f <$> l) in Hy.
    rewrite list_lookup_fmap, lookup_seq_lt in Hy by done. by injection Hy as <-.
Qed.

(** A refresh from scratch gives the transform of the position. *)
Lemma refresh_from_scratch_spec p accPtr ft pos (st : State) :
  simd_ok (Dimensions ft) -> pos_ok pos ->
  acc_sized (Dimensions ft) (acc_get accPtr st) ->
  refresh_from_scratch p accPtr ft pos st = refreshed_state p accPtr ft pos st.
Proof.
  intros Hs Hp Hsz. unfold refresh_from_scratch.
  destruct (refresh_cache_ok p accPtr ft pos st (empty_cache (Dimensions ft)))
    as (c' & -> & _); try done.
  apply empty_cache_ok.
Qed.

End Runs.


Section Flags.
Context {DirtyPiece : Type} `{FS : FeatureSet DirtyPiece} `{HW : SIMD}.
Local Abbreviation State := (AccumulatorState DirtyPiece).
Local Abbreviation Stack := (AccumulatorStack DirtyPiece).

Lemma stack_le_set_at (s : Stack) (i : Z) st st' :
  stack_at s i = Some st -> flags_le st st' -> dirtyPiece st' = dirtyPiece st ->
  stack_le s (stack_set s i st').
Proof.
  intros Hi Hf Hd. unfold stack_at in Hi.
  pose proof (stack_le_set s (Z.to_nat i) st st' Hi Hf Hd) as H.
  unfold stack_set in *. by rewrite Nat2Z.id in H.
Qed.

Lemma forward_loop_le p accPtr ft ksq :
  forall fuel (s s' : Stack) next,
    forward_loop fuel p accPtr ft ksq s next = Some s' -> stack_le s s'.
Proof.
  induction fuel as [|fuel IH]; intros s s' next H; simpl in H.
  - destruct (next <? m_current_idx s)%Z; [done|]. injection H as <-. apply stack_le_refl.
  - destruct (next <? m_current_idx s)%Z; [|injection H as <-; apply stack_le_refl].
    apply bind_Some in H as (target & Ht & H).
    apply bind_Some in H as (source & Hs & H).
    apply bind_Some in H as (t' & Hk & H).
    apply incremental_flags in Hk as (Hf & Hd & _).
    eapply stack_le_trans;
      [exact (stack_le_set_at s next target t' Ht Hf Hd) | eapply IH; exact H].
Qed.

Lemma backward_loop_le p accPtr ft ksq end_ :
  forall fuel (s s' : Stack) next,
    backward_loop fuel p accPtr ft ksq end_ s next = Some s' -> stack_le s s'.
Proof.
  induction fuel as [|fuel IH]; intros s s' next H; simpl in H.
  - destruct (end_ <=? next)%Z; [done|]. injection H as <-. apply stack_le_refl.
  - destruct (end_ <=? next)%Z; [|injection H as <-; apply stack_le_refl].
    apply bind_Some in H as (target & Ht & H).
    apply bind_Some in H as (source & Hs & H).
    apply bind_Some in H as (t' & Hk & H).
    apply incremental_flags in Hk as (Hf & Hd & _).
    eapply stack_le_trans;
      [exact (stack_le_set_at s next target t' Ht Hf Hd) | eapply IH; exact H].
Qed.

(** [evaluate_side] never clears a flag, never moves [m_current_idx] and
    never touches a dirty piece. *)
Lemma evaluate_side_le p accPtr pos ft cache (s s' : Stack) cache' :
  evaluate_side p accPtr pos ft cache s = Some (s', cache') -> stack_le s s'.
Proof.
  unfold evaluate_side. intros H.
  apply bind_Some in H as (k & Hk & H).
  apply bind_Some in H as (stk & Hstk & H).
  destruct (computed (acc_get accPtr stk) p).
  - apply bind_Some in H as (s1 & H1 & H). injection H as <- <-.
    unfold forward_update_incremental in H1.
    do 2 apply bind_assert in H1 as [_ H1].
    apply bind_Some in H1 as (s2 & H2 & H1).
    apply bind_assert in H1 as [_ H1]. injection H1 as <-.
    by eapply forward_loop_le.
  - apply bind_Some in H as (stl & Hl & H).
    pose proof (refresh_flags p accPtr ft pos stl cache) as Hrf.
    destruct (update_accumulator_refresh_cache p accPtr ft pos stl cache) as [stl' c1].
    cbn [fst] in Hrf. destruct Hrf as (Hf & Hd & _).
    apply bind_Some in H as (s1 & H1 & H). injection H as <- <-.
    unfold backward_update_incremental in H1.
    do 3 apply bind_assert in H1 as [_ H1].
    apply bind_Some in H1 as (s2 & H2 & H1).
    apply bind_assert in H1 as [_ H1]. injection H1 as <-.
    eapply stack_le_trans;
      [exact (stack_le_set_at s _ stl stl' Hl Hf Hd) | eapply backward_loop_le; exact H2].
Qed.

Lemma evaluate_le accPtr pos ft cache (s s' : Stack) cache' :
  evaluate accPtr pos ft cache s = Some (s', cache') -> stack_le s s'.
Proof.
  unfold evaluate. intros H. apply bind_Some in H as ([s1 c1] & H1 & H2).
  eapply stack_le_trans; by eapply evaluate_side_le.
Qed.

Lemma root_computed_le (s s' : Stack) : stack_le s s' -> root_computed s -> root_computed s'.
Proof.
  intros (_ & _ & H) (root & Hr & Hall). destruct (H _ _ Hr) as (root' & Hr' & Hf & _).
  exists root'. split; [done|]. intros a p. apply Hf, Hall.
Qed.

Lemma reset_root networks (s0 s1 : Stack) rootPos caches caches1 :
  AccumulatorStack_reset s0 rootPos networks caches = Some (s1, caches1) ->
  root_computed s1 /\ m_current_idx s1 = 1%Z
  /\ length (m_accumulators s1) = length (m_accumulators s0).
Proof.
  unfold AccumulatorStack_reset. intros H.
  apply bind_Some in H as (root & Hroot & H).
  unfold stack_at in Hroot. cbn [m_accumulators] in Hroot.
  change (Z.to_nat 0) with 0 in Hroot.
  pose proof (refresh_flags WHITE accumulatorBigPtr (big networks) rootPos root
                (caches_big caches)) as H1.
  destruct (update_accumulator_refresh_cache WHITE accumulatorBigPtr _ _ root _) as [r1 cb1].
  pose proof (refresh_flags BLACK accumulatorBigPtr (big networks) rootPos r1 cb1) as H2.
  destruct (update_accumulator_refresh_cache BLACK accumulatorBigPtr _ _ r1 _) as [r2 cb2].
  pose proof (refresh_flags WHITE accumulatorSmallPtr (small networks) rootPos r2
                (caches_small caches)) as H3.
  destruct (update_accumulator_refresh_cache WHITE accumulatorSmallPtr _ _ r2 _) as [r3 cs1].
  pose proof (refresh_flags BLACK accumulatorSmallPtr (small networks) rootPos r3 cs1) as H4.
  destruct (update_accumulator_refresh_cache BLACK accumulatorSmallPtr _ _ r3 _) as [r4 cs2].
  cbn [fst] in *. injection H as <- <-.
  unfold stack_set. cbn [m_accumulators m_current_idx]. change (Z.to_nat 0) with 0.
  split; [|split; [done | apply length_insert]].
  exists r4. cbn [m_accumulators].
  split; [apply list_lookup_insert_eq; by eapply lookup_lt_Some|].
  destruct H1 as (F1 & _ & C1), H2 as (F2 & _ & C2), H3 as (F3 & _ & C3),
    H4 as (F4 & _ & C4).
  intros a p. destruct a, p; auto.
Qed.

Lemma push_root (s s' : Stack) dp :
  idx_ok s -> root_computed s -> push s dp = Some s' ->
  idx_ok s' /\ root_computed s'
  /\ m_current_idx s' = (m_current_idx s + 1)%Z.
Proof.
  intros [[H1 H2] H3] (root & Hr & Hall) H. unfold push in H. unfold stack_size in *.
  apply bind_assert in H as [Ha H].
  apply bind_Some in H as (st & Hst & H). injection H as <-.
  unfold stack_at in Hst. apply lookup_lt_Some in Hst.
  rewrite size_t_add_small in Ha |- * by lia. apply Z.ltb_lt in Ha.
  unfold stack_set, idx_ok, root_computed, stack_size in *.
  cbn [m_accumulators m_current_idx] in *. rewrite length_insert.
  split; [lia|]. split; [|done].
  exists root. rewrite list_lookup_insert_ne by lia. done.
Qed.

Lemma pop_root (s s' : Stack) :
  idx_ok s -> root_computed s -> pop s = Some s' ->
  idx_ok s' /\ root_computed s'
  /\ m_current_idx s' = (m_current_idx s - 1)%Z.
Proof.
  intros [[H1 H2] H3] Hroot H. unfold pop in H. unfold stack_size in *.
  apply bind_assert in H as [Ha H]. injection H as <-. apply Z.ltb_lt in Ha.
  rewrite size_t_sub_small by lia.
  unfold idx_ok, root_computed, stack_size in *.
  cbn [m_accumulators m_current_idx] in *. split; [lia|]. done.
Qed.

Lemma run_ops_root networks :
  forall ops (s s' : Stack) caches caches',
    idx_ok s -> root_computed s ->
    run_ops networks ops (s, caches) = Some (s', caches') ->
    idx_ok s' /\ root_computed s'.
Proof.
  induction ops as [|op ops IH]; intros s s' caches caches' Hidx Hroot H; simpl in H.
  - by injection H as <- <-.
  - apply bind_Some in H as ([s1 c1] & H1 & H).
    destruct op as [dp after| |accPtr pos]; simpl in H1.
    + apply bind_Some in H1 as (s2 & H2 & H1). injection H1 as <- <-.
      destruct (push_root _ _ _ Hidx Hroot H2) as (? & ? & _). by eapply IH.
    + apply bind_Some in H1 as (s2 & H2 & H1). injection H1 as <- <-.
      destruct (pop_root _ _ Hidx Hroot H2) as (? & ? & _). by eapply IH.
    + apply bind_Some in H1 as ([s2 c2] & H2 & H1). injection H1 as <- <-.
      apply evaluate_le in H2. eapply IH; [| |done].
      * by eapply idx_ok_le.
      * by eapply root_computed_le.
Qed.

End Flags.


Section Sizes.
Context {DirtyPiece : Type} `{FS : FeatureSet DirtyPiece} `{HW : SIMD}.
Local Abbreviation State := (AccumulatorState DirtyPiece).
Local Abbreviation Stack := (AccumulatorStack DirtyPiece).

Lemma apply_sized networks p accPtr (from to : State) ops idxs :
  lanes_ok (Dimensions (net_of networks accPtr)) ->
  state_sized networks to ->
  state_sized networks (apply p accPtr (net_of networks accPtr) from to ops idxs).
Proof.
  intros Hl Hs. destruct (Hs accPtr p) as [HA HP].
  rewrite apply_spec by done. cbv zeta. intros a' p'.
  destruct (decide (a' = accPtr)) as [->|Hne].
  - rewrite acc_get_set. simpl. unfold set_color. case_decide.
    + by rewrite !length_map, !length_seq.
    + apply Hs.
  - rewrite acc_get_set_ne by done. apply Hs.
Qed.

Lemma set_computed_sized networks accPtr (st : State) p b :
  state_sized networks st -> state_sized networks (set_computed accPtr st p b).
Proof.
  intros Hs a' p'. unfold set_computed.
  destruct (decide (a' = accPtr)) as [->|Hne].
  - rewrite acc_get_set. simpl. apply Hs.
  - rewrite acc_get_set_ne by done. apply Hs.
Qed.

Lemma incremental_sized networks p dir accPtr ksq (target source t' : State) :
  lanes_ok (Dimensions (net_of networks accPtr)) ->
  state_sized networks target ->
  update_accumulator_incremental p dir accPtr (net_of networks accPtr) ksq target source
  = Some t' ->
  state_sized networks t'.
Proof.
  intros Hl Hs H. apply incremental_inv in H as (ops & idxs & ->).
  by apply set_computed_sized, apply_sized.
Qed.

Lemma stack_sized_set networks (s : Stack) i st :
  stack_sized networks s -> state_sized networks st ->
  stack_sized networks (stack_set s i st).
Proof.
  intros Hs Hst j stj. unfold stack_set. cbn [m_accumulators]. intros Hj.
  apply list_lookup_insert_Some in Hj as [(_ & <- & _)|[_ Hj]]; [done|]. by eapply Hs.
Qed.

Lemma forward_loop_sized networks p accPtr ksq :
  lanes_ok (Dimensions (net_of networks accPtr)) ->
  forall fuel (s s' : Stack) next,
    stack_sized networks s ->
    forward_loop fuel p accPtr (net_of networks accPtr) ksq s next = Some s' ->
    stack_sized networks s'.
Proof.
  intros Hl. induction fuel as [|fuel IH]; intros s s' next Hs H; simpl in H.
  - destruct (next <? m_current_idx s)%Z; [done|]. by injection H as <-.
  - destruct (next <? m_current_idx s)%Z; [|by injection H as <-].
    apply bind_Some in H as (target & Ht & H).
    apply bind_Some in H as (source & Hsrc & H).
    apply bind_Some in H as (t' & Hk & H).
    eapply IH; [|exact H]. apply stack_sized_set; [done|].
    eapply incremental_sized; [done| |exact Hk]. by eapply Hs.
Qed.

Lemma backward_loop_sized networks p accPtr ksq end_ :
  lanes_ok (Dimensions (net_of networks accPtr)) ->
  forall fuel (s s' : Stack) next,
    stack_sized networks s ->
    backward_loop fuel p accPtr (net_of networks accPtr) ksq end_ s next = Some s' ->
    stack_sized networks s'.
Proof.
  intros Hl. induction fuel as [|fuel IH]; intros s s' next Hs H; simpl in H.
  - destruct (end_ <=? next)%Z; [done|]. by injection H as <-.
  - destruct (end_ <=? next)%Z; [|by injection H as <-].
    apply bind_Some in H as (target & Ht & H).
    apply bind_Some in H as (source & Hsrc & H).
    apply bind_Some in H as (t' & Hk & H).
    eapply IH; [|exact H]. apply stack_sized_set; [done|].
    eapply incremental_sized; [done| |exact Hk]. by eapply Hs.
Qed.

(** Whatever the stack holds, [evaluate_side] keeps the array sizes and
    the cache invariant. *)
Lemma evaluate_side_cache networks p accPtr pos cache (s s' : Stack) cache' :
  nets_ok networks -> pos_ok pos ->
  stack_sized networks s -> cache_ok (net_of networks accPtr) cache ->
  evaluate_side p accPtr pos (net_of networks accPtr) cache s = Some (s', cache') ->
  stack_sized networks s' /\ cache_ok (net_of networks accPtr) cache'.
Proof.
  intros Hnets Hpos Hs Hc H. unfold evaluate_side in H.
  destruct (Hnets accPtr) as [Hl Ht].
  apply bind_Some in H as (k & Hk & H).
  apply bind_Some in H as (stk & Hstk & H).
  destruct (computed (acc_get accPtr stk) p).
  - apply bind_Some in H as (s1 & H1 & H). injection H as <- <-.
    unfold forward_update_incremental in H1.
    do 2 apply bind_assert in H1 as [_ H1].
    apply bind_Some in H1 as (s2 & H2 & H1).
    apply bind_assert in H1 as [_ H1]. injection H1 as <-.
    split; [|done]. by eapply forward_loop_sized.
  - apply bind_Some in H as (stl & Hl' & H).
    destruct (refresh_cache_ok p accPtr (net_of networks accPtr) pos stl cache)
      as (c1 & Heq & Hc1 & _); [apply Hnets | done | done | by eapply Hs |].
    rewrite Heq in H.
    apply bind_Some in H as (s1 & H1 & H). injection H as <- <-.
    unfold backward_update_incremental in H1.
    do 3 apply bind_assert in H1 as [_ H1].
    apply bind_Some in H1 as (s2 & H2 & H1).
    apply bind_assert in H1 as [_ H1]. injection H1 as <-.
    split; [|done]. eapply backward_loop_sized; [done| |exact H2].
    apply stack_sized_set; [done|]. apply refreshed_state_sized. by eapply Hs.
Qed.

Lemma evaluate_cache networks accPtr pos cache (s s' : Stack) cache' :
  nets_ok networks -> pos_ok pos ->
  stack_sized networks s -> cache_ok (net_of networks accPtr) cache ->
  evaluate accPtr pos (net_of networks accPtr) cache s = Some (s', cache') ->
  stack_sized networks s' /\ cache_ok (net_of networks accPtr) cache'.
Proof.
  intros Hnets Hpos Hs Hc H. unfold evaluate in H.
  apply bind_Some in H as ([s1 c1] & H1 & H2).
  destruct (evaluate_side_cache _ _ _ _ _ _ _ _ Hnets Hpos Hs Hc H1) as [Hs1 Hc1].
  by eapply evaluate_side_cache.
Qed.

Lemma push_sized networks (s s' : Stack) dp :
  stack_sized networks s -> push s dp = Some s' -> stack_sized networks s'.
Proof.
  intros Hs H. unfold push in H. apply bind_assert in H as [_ H].
  apply bind_Some in H as (st & Hst & H). injection H as <-.
  intros j stj. cbn [m_accumulators]. apply stack_sized_set; [done|].
  apply AccumulatorState_reset_sized. by eapply Hs.
Qed.

Lemma pop_sized networks (s s' : Stack) :
  stack_sized networks s -> pop s = Some s' -> stack_sized networks s'.
Proof.
  intros Hs H. unfold pop in H. apply bind_assert in H as [_ H]. by injection H as <-.
Qed.

End Sizes.

(** * The claims *)

Section Claims1.
Context {DirtyPiece : Type} `{FS : FeatureSet DirtyPiece} `{HW : SIMD}.
Local Abbreviation State := (AccumulatorState DirtyPiece).
Local Abbreviation Stack := (AccumulatorStack DirtyPiece).

(** C8: [AccumulatorState::reset(dp)] stores [dp], clears the computed
    flags of both networks for both perspectives, and leaves every dense
    and every PSQT vector of both networks as it was. *)
Theorem C8_state_reset_frame (st : State) (dp : DirtyPiece) :
  dirtyPiece (AccumulatorState_reset st dp) = dp
  /\ (forall accPtr p, computed (acc_get accPtr (AccumulatorState_reset st dp)) p = false)
  /\ (forall accPtr p,
        accumulation (acc_get accPtr (AccumulatorState_reset st dp)) p
          = accumulation (acc_get accPtr st) p
        /\ psqtAccumulation (acc_get accPtr (AccumulatorState_reset st dp)) p
          = psqtAccumulation (acc_get accPtr st) p).
Proof.
  split; [done|]. split; intros accPtr p; by destruct accPtr.
Qed.

(** C3: called on a source computed for [p] and a target not computed
    for [p], with index lists that obey the contract of
    [append_changed_indices] (taken from the target's dirty piece going
    FORWARD, from the source's with the two lists swapped going
    BACKWARD), the incremental kernel succeeds; lane [k] of the target is
    the source's lane plus the added columns minus the removed columns,
    in 16-bit arithmetic for the dense vector and 32-bit for PSQT; and
    the target is then computed for [p]. *)
Theorem C3_incremental_kernel p Direction accPtr ft ksq (target source : State)
    (removed added : IndexList) :
  computed (acc_get accPtr source) p = true ->
  computed (acc_get accPtr target) p = false ->
  match Direction with
  | FORWARD => append_changed_indices p ksq (dirtyPiece target) [] [] = (removed, added)
  | BACKWARD => append_changed_indices p ksq (dirtyPiece source) [] [] = (added, removed)
  end ->
  sizes_contract Direction removed added ->
  lanes_ok (Dimensions ft) ->
  length (accumulation (acc_get accPtr target) p) = Dimensions ft ->
  length (psqtAccumulation (acc_get accPtr target) p) = PSQTBuckets ->
  exists target',
    update_accumulator_incremental p Direction accPtr ft ksq target source = Some target'
    /\ accumulation (acc_get accPtr target') p
       = map (fun k => wrap 16 (accumulation (acc_get accPtr source) p !!! k
                                + column_sum (weights ft) (Dimensions ft) added k
                                - column_sum (weights ft) (Dimensions ft) removed k))
             (seq 0 (Dimensions ft))
    /\ psqtAccumulation (acc_get accPtr target') p
       = map (fun b => wrap 32 (psqtAccumulation (acc_get accPtr source) p !!! b
                                + column_sum (psqtWeights ft) PSQTBuckets added b
                                - column_sum (psqtWeights ft) PSQTBuckets removed b))
             (seq 0 PSQTBuckets)
    /\ computed (acc_get accPtr target') p = true.
Proof.
  intros Hs Ht Hidx Hc Hl HA HP.
  exists (incremental_result p accPtr ft target source removed added).
  split.
  - apply incremental_spec; try done.
    unfold incremental_indices. destruct Direction; by rewrite Hidx.
  - unfold incremental_result. rewrite acc_get_set. simpl.
    by rewrite !set_color_eq.
Qed.

Lemma map_lookup_total_id (l : list Z) n :
  length l = n -> map (fun k => l !!! k) (seq 0 n) = l.
Proof.
  intros Hn. apply list_eq_same_length with n; [done | by rewrite length_map, length_seq|].
  intros i x y Hi Hx Hy.
  change (map ?f ?l') with (f <$> l') in Hx.
  rewrite list_lookup_fmap, lookup_seq_lt in Hx by done. simpl in Hx.
  apply list_lookup_total_correct in Hy. congruence.
Qed.

Lemma incremental_dense_roundtrip w m D (src : list Z) removed added n :
  (0 < w)%Z -> length src = n -> Forall (in_range w) src ->
  incremental_dense m D w (incremental_dense m D w src removed added n) added removed n = src.
Proof.
  intros Hw Hn Hr. rewrite <- (map_lookup_total_id src n Hn) at 2.
  unfold incremental_dense. apply map_seq_ext. intros k Hk.
  rewrite lookup_total_map_seq by lia.
  rewrite <- Z.add_sub_assoc, wrap_add_l.
  transitivity (wrap w (src !!! k)); [f_equal; lia|].
  apply wrap_in_range; [done|].
  rewrite Forall_lookup in Hr. apply (Hr k).
  apply list_lookup_lookup_total_lt. lia.
Qed.

(** C4: from a computed source whose lanes are 16-bit (32-bit for PSQT)
    values, the FORWARD kernel with a delta and then the BACKWARD kernel
    with the same delta both succeed, whatever the weights (overflowing
    sums wrap), and give back the source's vectors exactly. *)
Theorem C4_forward_backward_roundtrip p accPtr ft ksq (source target back : State)
    (removed added : IndexList) :
  computed (acc_get accPtr source) p = true ->
  computed (acc_get accPtr target) p = false ->
  computed (acc_get accPtr back) p = false ->
  append_changed_indices p ksq (dirtyPiece target) [] [] = (removed, added) ->
  sizes_contract FORWARD removed added ->
  lanes_ok (Dimensions ft) ->
  acc_sized (Dimensions ft) (acc_get accPtr source) ->
  acc_sized (Dimensions ft) (acc_get accPtr target) ->
  acc_sized (Dimensions ft) (acc_get accPtr back) ->
  Forall (in_range 16) (accumulation (acc_get accPtr source) p) ->
  Forall (in_range 32) (psqtAccumulation (acc_get accPtr source) p) ->
  exists target' back',
    update_accumulator_incremental p FORWARD accPtr ft ksq target source = Some target'
    /\ update_accumulator_incremental p BACKWARD accPtr ft ksq back target' = Some back'
    /\ accumulation (acc_get accPtr back') p = accumulation (acc_get accPtr source) p
    /\ psqtAccumulation (acc_get accPtr back') p
       = psqtAccumulation (acc_get accPtr source) p.
Proof.
  intros Hs Ht Hb Hidx Hc Hl Hss Hst Hsb Hr16 Hr32.
  destruct (Hss p) as [HsA HsP], (Hst p) as [HtA HtP], (Hsb p) as [HbA HbP].
  set (t' := incremental_result p accPtr ft target source removed added).
  exists t', (incremental_result p accPtr ft back t' added removed).
  split; [by apply incremental_spec|].
  split.
  - apply incremental_spec; try done.
    + unfold t', incremental_result. rewrite acc_get_set. simpl. apply set_color_eq.
    + unfold incremental_indices, t', incremental_result.
      by rewrite dirtyPiece_acc_set, Hidx.
    + by apply sizes_contract_swap.
  - unfold t', incremental_result. rewrite !acc_get_set. simpl.
    rewrite !set_color_eq. split; by apply incremental_dense_roundtrip.
Qed.

(** C7: on every pair of index lists, the path compiled with [VECTOR]
    (tiles of registers, one fused add-sub per pair of indices, one fused
    triple when the lengths differ by one and their total exceeds two,
    the rest one by one) leaves in the accumulator and in the cache entry
    exactly what the path without [VECTOR] leaves (every removed column
    subtracted, then every added column added). *)
Theorem C7_fused_equals_sequential ft (removed added : IndexList)
    (accumulation_p psqtAccumulation_p : list Z) (entry : CacheEntry) :
  tiling_ok (Dimensions ft) ->
  (Z.of_nat (length removed) < 2 ^ 64)%Z -> (Z.of_nat (length added) < 2 ^ 64)%Z ->
  length accumulation_p = Dimensions ft ->
  length (entry_accumulation entry) = Dimensions ft ->
  length psqtAccumulation_p = PSQTBuckets ->
  length (entry_psqtAccumulation entry) = PSQTBuckets ->
  refresh_vector ft removed added accumulation_p psqtAccumulation_p entry
  = refresh_scalar ft removed added accumulation_p psqtAccumulation_p entry.
Proof.
  intros Ht Hr Ha HA HE HP HEP.
  rewrite refresh_vector_spec by done.
  unfold refresh_scalar. rewrite refresh_entry_scalar_spec by done.
  rewrite !memcpy_spec by done.
  f_equal; apply map_seq_ext; intros i _;
    first [by apply refresh_lane_fused_eq | apply refresh_lane_psqt_eq].
Qed.

End Claims1.


Section Claims2.
Context {DirtyPiece : Type} `{FS : FeatureSet DirtyPiece} `{HW : SIMD}.
Local Abbreviation State := (AccumulatorState DirtyPiece).
Local Abbreviation Stack := (AccumulatorStack DirtyPiece).

(** C2: when the cache entry of the position's king square satisfies the
    cache invariant, after the refresh kernel lane [k] of the state's
    dense vector for [p] is the sum, over the features active in [pos]
    from [p], of lane [k] of their weight columns (in 16-bit arithmetic),
    and likewise for PSQT (in 32-bit arithmetic); the removed and added
    lists are, per (color, piece type), the squares of
    [old & ~new] and of [new & ~old], where [old] is
    [entry.byColorBB[c] & entry.byTypeBB[pt]] and [new] is
    [pos.pieces(c, pt)]. *)
Theorem C2_refresh_sums_active_features p accPtr ft pos (st : State) cache :
  simd_ok (Dimensions ft) -> pos_ok pos ->
  entry_ok ft p (square_KING pos p) (cache (square_KING pos p) p) ->
  acc_sized (Dimensions ft) (acc_get accPtr st) ->
  let st' := fst (update_accumulator_refresh_cache p accPtr ft pos st cache) in
  let entry := cache (square_KING pos p) p in
  accumulation (acc_get accPtr st') p
    = map (fun k => wrap 16 (column_sum (weights ft) (Dimensions ft) (active_features p pos) k))
          (seq 0 (Dimensions ft))
  /\ psqtAccumulation (acc_get accPtr st') p
    = map (fun b => wrap 32 (column_sum (psqtWeights ft) PSQTBuckets (active_features p pos) b))
          (seq 0 PSQTBuckets)
  /\ computed (acc_get accPtr st') p = true
  /\ refresh_delta p pos entry (square_KING pos p)
     = (features_of p (square_KING pos p)
          (fun c pt => Z.land (Z.land (byColorBB entry c) (byTypeBB entry pt))
                              (bb_not (pieces pos c pt))),
        features_of p (square_KING pos p)
          (fun c pt => Z.land (pieces pos c pt)
                              (bb_not (Z.land (byColorBB entry c) (byTypeBB entry pt))))).
Proof.
  intros Hsimd Hpos Hentry Hsz st' entry.
  destruct (refresh_cache_spec p accPtr ft pos st cache Hsimd Hpos Hentry Hsz)
    as (entry' & Heq & _).
  unfold st'. rewrite Heq. cbn [fst]. unfold refreshed_state. rewrite acc_get_set.
  cbn [accumulation psqtAccumulation computed]. rewrite !set_color_eq.
  do 3 (split; [done|]).
  apply refresh_delta_spec.
  - apply Hentry.
  - intros c pt. by apply pos_ok_pieces.
Qed.

(** C6: after the refresh kernel, the entry of the position's king
    square and perspective stores the boards of the position and its
    snapshot is the transform of the position those boards describe,
    seen from that perspective with the king on that square; and the
    cache invariant, once it holds, holds after the refresh kernel, after
    [AccumulatorStack::reset] and after every [push], [pop] and
    [evaluate]. *)
Theorem C6_cache_invariant networks :
  nets_ok networks ->
  (forall p accPtr pos (st : State) cache,
     pos_ok pos -> cache_ok (net_of networks accPtr) cache ->
     acc_sized (Dimensions (net_of networks accPtr)) (acc_get accPtr st) ->
     let cache' :=
       snd (update_accumulator_refresh_cache p accPtr (net_of networks accPtr) pos st cache) in
     let entry := cache' (square_KING pos p) p in
     (forall c, byColorBB entry c = pieces_color pos c)
     /\ (forall pt, byTypeBB entry pt = pieces_type pos pt)
     /\ entry_accumulation entry
        = dense_of (net_of networks accPtr)
            (features_of p (square_KING pos p) (stored_boards entry))
     /\ entry_psqtAccumulation entry
        = psqt_of (net_of networks accPtr)
            (features_of p (square_KING pos p) (stored_boards entry))
     /\ features_of p (square_KING pos p) (stored_boards entry) = active_features p pos
     /\ cache_ok (net_of networks accPtr) cache')
  /\ (forall (s0 s1 : Stack) rootPos caches caches1,
        pos_ok rootPos -> caches_ok networks caches -> stack_sized networks s0 ->
        AccumulatorStack_reset s0 rootPos networks caches = Some (s1, caches1) ->
        caches_ok networks caches1 /\ stack_sized networks s1)
  /\ (forall op (s s' : Stack) caches caches',
        match op with OpEvaluate _ pos => pos_ok pos | _ => True end ->
        caches_ok networks caches -> stack_sized networks s ->
        run_op networks op (s, caches) = Some (s', caches') ->
        caches_ok networks caches' /\ stack_sized networks s').
Proof.
  intros Hnets. split; [|split].
  - intros p accPtr pos st cache Hpos Hc Hsz cache' entry.
    destruct (refresh_cache_ok p accPtr (net_of networks accPtr) pos st cache)
      as (c1 & Heq & Hc1 & Hcol & Htyp & Hacc & Hpsqt & _); try done.
    unfold entry, cache'. rewrite Heq. cbn [snd].
    assert (features_of p (square_KING pos p) (stored_boards (c1 (square_KING pos p) p))
            = active_features p pos) as Hfeat.
    { unfold active_features. apply features_of_ext. intros c pt.
      unfold stored_boards. rewrite Hcol, Htyp. symmetry. apply Hpos. }
    rewrite Hfeat. done.
  - intros s0 s1 rootPos caches caches1 Hpos Hc Hsz H.
    unfold AccumulatorStack_reset in H.
    apply bind_Some in H as (root & Hroot & H).
    pose proof (Hsz _ _ Hroot) as Hsr.
    destruct (refresh_cache_ok WHITE accumulatorBigPtr (big networks) rootPos root
                (caches_big caches)) as (cb1 & Heq1 & Hcb1 & _);
      [apply (Hnets accumulatorBigPtr) | done | apply (Hc accumulatorBigPtr)
       | apply (Hsr accumulatorBigPtr) |].
    rewrite Heq1 in H.
    pose proof (refreshed_state_sized networks WHITE accumulatorBigPtr rootPos root Hsr) as Hs1.
    cbn [net_of] in Hs1.
    set (r1 := refreshed_state WHITE accumulatorBigPtr (big networks) rootPos root) in *.
    destruct (refresh_cache_ok BLACK accumulatorBigPtr (big networks) rootPos r1 cb1)
      as (cb2 & Heq2 & Hcb2 & _);
      [apply (Hnets accumulatorBigPtr) | done | done | apply (Hs1 accumulatorBigPtr) |].
    rewrite Heq2 in H.
    pose proof (refreshed_state_sized networks BLACK accumulatorBigPtr rootPos _ Hs1) as Hs2.
    cbn [net_of] in Hs2.
    set (r2 := refreshed_state BLACK accumulatorBigPtr (big networks) rootPos r1) in *.
    destruct (refresh_cache_ok WHITE accumulatorSmallPtr (small networks) rootPos r2
                (caches_small caches)) as (cs1 & Heq3 & Hcs1 & _);
      [apply (Hnets accumulatorSmallPtr) | done | apply (Hc accumulatorSmallPtr)
       | apply (Hs2 accumulatorSmallPtr) |].
    rewrite Heq3 in H.
    pose proof (refreshed_state_sized networks WHITE accumulatorSmallPtr rootPos _ Hs2) as Hs3.
    cbn [net_of] in Hs3.
    set (r3 := refreshed_state WHITE accumulatorSmallPtr (small networks) rootPos r2) in *.
    destruct (refresh_cache_ok BLACK accumulatorSmallPtr (small networks) rootPos r3 cs1)
      as (cs2 & Heq4 & Hcs2 & _);
      [apply (Hnets accumulatorSmallPtr) | done | done | apply (Hs3 accumulatorSmallPtr) |].
    rewrite Heq4 in H.
    pose proof (refreshed_state_sized networks BLACK accumulatorSmallPtr rootPos _ Hs3) as Hs4.
    cbn [net_of] in Hs4.
    injection H as <- <-. split.
    + intros a. by destruct a.
    + by apply stack_sized_set.
  - intros op s s' caches caches' Hop Hc Hsz H.
    destruct op as [dp after| |accPtr pos]; simpl in H.
    + apply bind_Some in H as (s1 & H1 & H). injection H as <- <-.
      split; [done|]. by eapply push_sized.
    + apply bind_Some in H as (s1 & H1 & H). injection H as <- <-.
      split; [done|]. by eapply pop_sized.
    + apply bind_Some in H as ([s1 c1] & H1 & H). injection H as <- <-.
      destruct (evaluate_cache networks accPtr pos _ s s1 c1 Hnets Hop Hsz (Hc accPtr) H1)
        as [Hs1 Hc1].
      split; [by apply caches_ok_set | done].
Qed.

(** C5: for a stack with [1 <= current_idx <= capacity] whose root is
    computed for [p], [evaluate] for perspective [p] selects the largest
    index [k] below [current_idx] whose state is computed for [p] or (for
    [k > 0]) whose dirty piece requires a refresh, 0 if there is none; if
    [states[k]] is computed it applies the FORWARD kernel into
    [states[i]] from [states[i-1]] for [i] ascending over
    (k, current_idx); otherwise it refreshes [states[current_idx-1]] and
    applies the BACKWARD kernel into [states[i]] from [states[i+1]]
    (whose dirty piece it uses) for [i] descending from
    [current_idx - 2] to [k]. *)
Theorem C5_evaluate_side_strategy p accPtr pos ft cache (s : Stack) :
  idx_ok s ->
  is_computed p accPtr (m_accumulators s !! 0) = true ->
  exists k,
    find_last_usable_accumulator p accPtr s = Some (Z.of_nat k)
    /\ is_last_usable p accPtr s k
    /\ evaluate_side p accPtr pos ft cache s = evaluate_side_spec p accPtr pos ft cache s k.
Proof.
  intros Hidx Hroot.
  destruct (find_last_usable_spec p accPtr s Hidx) as (k & Hfind & Hlu).
  exists k. split; [done|]. split; [done|]. by apply evaluate_side_refines_aux.
Qed.

(** C9: after [AccumulatorStack::reset] the root state is computed for
    both networks and both perspectives, and it stays so, with
    [current_idx >= 1], after every sequence of [push], [pop] and
    [evaluate] calls that meets their assertions. *)
Theorem C9_root_stays_computed networks (s0 s1 s' : Stack) rootPos caches caches1 caches'
    (ops : list (Op DirtyPiece)) :
  (stack_size s0 < 2 ^ 64)%Z ->
  AccumulatorStack_reset s0 rootPos networks caches = Some (s1, caches1) ->
  run_ops networks ops (s1, caches1) = Some (s', caches') ->
  root_computed s1 /\ root_computed s' /\ (1 <= m_current_idx s')%Z.
Proof.
  intros Hsz Hreset Hrun.
  destruct (reset_root _ _ _ _ _ _ Hreset) as (Hroot & Hidx & Hlen).
  assert (idx_ok s1) as Hok.
  { unfold idx_ok, stack_size in *. rewrite Hidx, Hlen.
    destruct Hroot as (root & Hr & _). apply lookup_lt_Some in Hr. lia. }
  destruct (run_ops_root networks ops s1 s' caches1 caches' Hok Hroot Hrun) as [Hok' Hroot'].
  split; [done|]. split; [done|]. apply Hok'.
Qed.

End Claims2.


Lemma backward_accesses_spec e :
  1 <= e ->
  forall c fuel, c <= fuel -> (Z.of_nat (e + c) < 2 ^ 64)%Z ->
    backward_accesses fuel (Z.of_nat e) (Z.of_nat (e + c) - 1)
    = Some (map (fun i => (Z.of_nat i, (Z.of_nat i + 1)%Z)) (rev (seq e c))).
Proof.
  intros He. induction c as [|c IH]; intros fuel Hf Hlt.
  - destruct fuel; simpl;
      (replace (Z.of_nat e <=? Z.of_nat (e + 0) - 1)%Z with false
         by (symmetry; apply Z.leb_gt; lia)); done.
  - destruct fuel as [|fuel]; [lia|].
    rewrite seq_S, rev_app_distr. cbn [backward_accesses rev app map].
    replace (Z.of_nat e <=? Z.of_nat (e + S c) - 1)%Z with true
      by (symmetry; apply Z.leb_le; lia).
    replace (Z.of_nat (e + S c) - 1)%Z with (Z.of_nat (e + c)) by lia.
    rewrite size_t_sub_small by lia. rewrite size_t_add_small by lia.
    rewrite IH by lia. done.
Qed.

(** With [end = 0] the unsigned test [next >= end] never fails: the loop
    does not stop. *)
Lemma backward_accesses_end_0 fuel next :
  (0 <= next)%Z -> backward_accesses fuel 0 next = None.
Proof.
  revert next. induction fuel as [|fuel IH]; intros next Hn; simpl.
  - by replace (0 <=? next)%Z with true by (symmetry; apply Z.leb_le; lia).
  - replace (0 <=? next)%Z with true by (symmetry; apply Z.leb_le; lia).
    rewrite IH; [done|]. unfold size_t_sub. apply Z.mod_pos_bound. done.
Qed.

Section Claims3.
Context {DirtyPiece : Type} `{FS : FeatureSet DirtyPiece} `{HW : SIMD}.
Local Abbreviation State := (AccumulatorState DirtyPiece).
Local Abbreviation Stack := (AccumulatorStack DirtyPiece).

(** The index trace is the trace of the loop: wherever the loop returns,
    the trace exists. *)
Lemma backward_loop_accesses p accPtr ft ksq end_ :
  forall fuel (s s' : Stack) next,
    backward_loop fuel p accPtr ft ksq end_ s next = Some s' ->
    is_Some (backward_accesses fuel end_ next).
Proof.
  induction fuel as [|fuel IH]; intros s s' next H; simpl in *.
  - destruct (end_ <=? next)%Z; [done | eauto].
  - destruct (end_ <=? next)%Z; [|eauto].
    apply bind_Some in H as (target & Ht & H).
    apply bind_Some in H as (source & Hs & H).
    apply bind_Some in H as (t' & Hk & H).
    destruct (IH _ _ _ H) as [l ->]. simpl. eauto.
Qed.

(** C10 (amended): in a stack with [1 <= current_idx <= capacity] whose
    root is computed for [p], whenever [evaluate_side] takes the refresh
    branch the index [end] it passes to [backward_update_incremental] is
    at least 1; the descending loop then stops without wrapping; each
    target index [next] lies in [end, current_idx - 2] and each source
    index is [next + 1], in [end + 1, current_idx - 1]. *)
Theorem C10_backward_stays_in_range p accPtr (s : Stack) (last_usable_accum : Z) :
  idx_ok s ->
  is_computed p accPtr (m_accumulators s !! 0) = true ->
  find_last_usable_accumulator p accPtr s = Some last_usable_accum ->
  is_computed p accPtr (stack_at s last_usable_accum) = false ->
  (1 <= last_usable_accum < m_current_idx s)%Z
  /\ exists accesses,
       backward_accesses (length (m_accumulators s)) last_usable_accum
         (size_t_sub (m_current_idx s) 2) = Some accesses
       /\ forall target source, (target, source) ∈ accesses ->
            (last_usable_accum <= target <= m_current_idx s - 2)%Z
            /\ source = (target + 1)%Z
            /\ (last_usable_accum + 1 <= source <= m_current_idx s - 1)%Z.
Proof.
  intros Hidx Hroot Hfind Hnc.
  destruct (find_last_usable_spec p accPtr s Hidx) as (k & Hfind' & Hk & _).
  rewrite Hfind in Hfind'. injection Hfind' as ->.
  rewrite stack_at_nat in Hnc.
  assert (1 <= k) as Hk1.
  { destruct k; [|lia]. congruence. }
  destruct Hidx as [[H1 H2] H3]. unfold stack_size in *.
  split; [lia|].
  set (n := Z.to_nat (m_current_idx s)).
  rewrite size_t_sub_small by lia.
  replace (m_current_idx s - 2)%Z with (Z.of_nat (k + (n - 1 - k)) - 1)%Z by lia.
  rewrite (backward_accesses_spec k Hk1 (n - 1 - k)) by lia.
  eexists. split; [done|].
  intros target source Hin. apply list_elem_of_In, in_map_iff in Hin as (i & Heq & Hi).
  injection Heq as <- <-. apply in_rev, in_seq in Hi. lia.
Qed.

(** C1: after [reset] on a legal root position, for every sequence of
    [push], [pop] and [evaluate] calls within the depth bounds whose
    deltas are consistent with the positions, followed by one more
    [evaluate] on the current position, all calls succeed; the latest
    state [states[current_idx - 1]] is then computed for both
    perspectives of the selected network; its dense and PSQT vectors
    for each perspective are the transform of the current position (the
    wrapped sums of the weight columns of its active features), and
    they are exactly the vectors that a refresh of the current position
    from scratch, on the initial cache, writes into any state of the
    right size. *)
Theorem C1_evaluate_matches_refresh networks (s0 : Stack) rootPos caches
    (ops : list (Op DirtyPiece)) accPtr pos :
  nets_ok networks -> caches_ok networks caches -> pos_ok rootPos ->
  stack_sized networks s0 ->
  1 <= length (m_accumulators s0) -> (stack_size s0 < 2 ^ 64)%Z ->
  ops_ok (length (m_accumulators s0)) [rootPos] (ops ++ [OpEvaluate accPtr pos]) ->
  exists s1 caches1 s' caches' st,
    AccumulatorStack_reset s0 rootPos networks caches = Some (s1, caches1)
    /\ run_ops networks (ops ++ [OpEvaluate accPtr pos]) (s1, caches1) = Some (s', caches')
    /\ latest s' = Some st
    /\ forall p,
         computed (acc_get accPtr st) p = true
         /\ accumulation (acc_get accPtr st) p
            = dense_of (net_of networks accPtr) (active_features p pos)
         /\ psqtAccumulation (acc_get accPtr st) p
            = psqt_of (net_of networks accPtr) (active_features p pos)
         /\ forall fresh : State,
              acc_sized (Dimensions (net_of networks accPtr)) (acc_get accPtr fresh) ->
              accumulation (acc_get accPtr st) p
              = accumulation
                  (acc_get accPtr
                     (refresh_from_scratch p accPtr (net_of networks accPtr) pos fresh)) p
              /\ psqtAccumulation (acc_get accPtr st) p
                 = psqtAccumulation
                     (acc_get accPtr
                        (refresh_from_scratch p accPtr (net_of networks accPtr) pos fresh)) p.
Proof.
  intros Hnets Hcaches Hpos Hsz Hlen Hsize Hops.
  destruct (reset_ok networks s0 rootPos caches) as (s1 & c1 & Hreset & Hinv1 & Hc1 & Hlen1);
    try done.
  apply ops_ok_app in Hops as [Hops [Hlast _]].
  destruct (run_ops_ok networks Hnets ops [rootPos] s1 c1 Hinv1 Hc1)
    as (s2 & c2 & Hrun & Hinv2 & Hc2 & Hlen2); [by rewrite Hlen1|].
  set (path := path_after [rootPos] ops) in *.
  destruct (evaluate_ok networks path s2 accPtr pos (cache_of c2 accPtr))
    as (s' & c' & Hev & Hinv' & Hc' & Hle & Hcomp); [done | done | apply Hc2 | done |].
  destruct (stack_inv_bounds _ _ _ Hinv') as (Hb1 & Hb2 & Hn).
  destruct (lookup_lt_is_Some_2 (m_accumulators s') (pred (length path)) ltac:(lia))
    as [st Hst].
  exists s1, c1, s', (set_cache c2 accPtr c'), st.
  split; [done|]. split.
  { rewrite run_ops_app, Hrun. cbn [mbind option_bind run_ops run_op].
    rewrite Hev. done. }
  pose proof Hinv' as (Hidx & Hlenp & Hsized & Hok & _).
  split.
  { unfold latest. destruct Hidx as [[H1 H2] H3].
    rewrite size_t_sub_small by lia.
    replace (m_current_idx s' - 1)%Z with (Z.of_nat (pred (length path))) by lia.
    by rewrite stack_at_nat. }
  intros p. specialize (Hcomp p). rewrite Hst in Hcomp. simpl in Hcomp.
  split; [done|].
  rewrite last_lookup in Hlast.
  destruct (Hok _ _ _ Hst Hlast) as [Hstok Hposok].
  destruct (Hstok accPtr p Hcomp) as [Hd Hp].
  split; [exact Hd|]. split; [exact Hp|].
  intros fresh Hfresh.
  rewrite refresh_from_scratch_spec; [| apply Hnets | done | done].
  unfold refreshed_state. rewrite acc_get_set. cbn [accumulation psqtAccumulation].
  rewrite !set_color_eq. done.
Qed.

End Claims3.

(** * The claims on the small instance *)

Import Example.

Lemma example_lanes_ok_big : lanes_ok (H := vector_build) 8.
Proof. repeat split; simpl; lia. Qed.

Lemma example_nets_ok : nets_ok (HW := vector_build) networks.
Proof.
  intros a. destruct a; (split; [repeat split; simpl; lia|]);
    intros _; repeat split; unfold TileHeight, PsqtTileHeight; simpl; lia.
Qed.

Lemma example_caches_ok : caches_ok networks caches.
Proof. intros a. destruct a; apply (empty_cache_ok (DirtyPiece := Move)). Qed.

Lemma example_board_ok wk pawn :
  (0 <= wk < 60)%Z -> (0 <= pawn < 60)%Z -> pos_ok (board wk pawn).
Proof.
  intros Hw Hp. split; [|done]. intros c.
  assert (0 < 2 ^ wk < 2 ^ 60)%Z by (split; [apply Z.pow_pos_nonneg | apply Z.pow_lt_mono_r]; lia).
  assert (0 < 2 ^ pawn < 2 ^ 60)%Z
    by (split; [apply Z.pow_pos_nonneg | apply Z.pow_lt_mono_r]; lia).
  unfold bb_ok. destruct c; simpl; lia.
Qed.

Lemma example_stack_sized : stack_sized networks fresh_stack.
Proof.
  intros i st Hi. apply lookup_replicate in Hi as [-> _].
  intros a p. by destruct a.
Qed.

Lemma example_zero_sized a : acc_sized (Dimensions (net_of networks a)) (acc_get a zero_state).
Proof. intros p. by destruct a. Qed.

(** C3 on the instance: the pawn move e2-e4, forward. *)
Lemma C3_witness :
  exists target',
    update_accumulator_incremental (HW := vector_build) WHITE FORWARD accumulatorBigPtr ft_big 4
      zero_state computed_state = Some target'
    /\ accumulation (acc_get accumulatorBigPtr target') WHITE
       = map (fun k => wrap 16 (accumulation (acc_get accumulatorBigPtr computed_state) WHITE !!! k
                                + column_sum (weights ft_big) 8 [index_of WHITE 28 (WHITE, PAWN) 4] k
                                - column_sum (weights ft_big) 8 [index_of WHITE 12 (WHITE, PAWN) 4] k))
             (seq 0 8)
    /\ psqtAccumulation (acc_get accumulatorBigPtr target') WHITE
       = map (fun b => wrap 32 (psqtAccumulation (acc_get accumulatorBigPtr computed_state) WHITE !!! b
                                + column_sum (psqtWeights ft_big) PSQTBuckets
                                    [index_of WHITE 28 (WHITE, PAWN) 4] b
                                - column_sum (psqtWeights ft_big) PSQTBuckets
                                    [index_of WHITE 12 (WHITE, PAWN) 4] b))
             (seq 0 PSQTBuckets)
    /\ computed (acc_get accumulatorBigPtr target') WHITE = true.
Proof.
  apply (C3_incremental_kernel (HW := vector_build) WHITE FORWARD accumulatorBigPtr ft_big 4
           zero_state computed_state
           [index_of WHITE 12 (WHITE, PAWN) 4] [index_of WHITE 28 (WHITE, PAWN) 4]).
  - reflexivity.
  - reflexivity.
  - reflexivity.
  - repeat split; simpl; lia.
  - repeat split; simpl; lia.
  - reflexivity.
  - reflexivity.
Defined.

Lemma example_zeros_in_range w n : (0 < w)%Z -> Forall (in_range w) (replicate n 0%Z).
Proof.
  intros Hw. apply Forall_replicate. unfold in_range.
  assert (0 < 2 ^ (w - 1))%Z by (apply Z.pow_pos_nonneg; lia). lia.
Qed.

(** C4 on the instance: e2-e4 forward, then backward. *)
Lemma C4_witness :
  exists target' back',
    update_accumulator_incremental (HW := vector_build) WHITE FORWARD accumulatorBigPtr ft_big 4
      zero_state computed_state = Some target'
    /\ update_accumulator_incremental (HW := vector_build) WHITE BACKWARD accumulatorBigPtr
         ft_big 4 zero_state target' = Some back'
    /\ accumulation (acc_get accumulatorBigPtr back') WHITE
       = accumulation (acc_get accumulatorBigPtr computed_state) WHITE
    /\ psqtAccumulation (acc_get accumulatorBigPtr back') WHITE
       = psqtAccumulation (acc_get accumulatorBigPtr computed_state) WHITE.
Proof.
  apply (C4_forward_backward_roundtrip (HW := vector_build) WHITE accumulatorBigPtr ft_big 4
           computed_state zero_state zero_state
           [index_of WHITE 12 (WHITE, PAWN) 4] [index_of WHITE 28 (WHITE, PAWN) 4]).
  - reflexivity.
  - reflexivity.
  - reflexivity.
  - reflexivity.
  - repeat split; simpl; lia.
  - repeat split; simpl; lia.
  - intros p. split; reflexivity.
  - intros p. split; reflexivity.
  - intros p. split; reflexivity.
  - apply example_zeros_in_range. lia.
  - apply example_zeros_in_range. lia.
Defined.

(** C7 on the instance: two removed and one added index, so that the
    fused triple is taken. *)
Lemma C7_witness :
  refresh_vector (HW := vector_build) ft_big [3; 5] [7]
    (replicate 8 0%Z) (replicate PSQTBuckets 0%Z) example_entry
  = refresh_scalar ft_big [3; 5] [7]
      (replicate 8 0%Z) (replicate PSQTBuckets 0%Z) example_entry.
Proof.
  apply (C7_fused_equals_sequential (HW := vector_build) ft_big [3; 5] [7]).
  - repeat split; unfold TileHeight, PsqtTileHeight; simpl; lia.
  - simpl. lia.
  - simpl. lia.
  - reflexivity.
  - reflexivity.
  - reflexivity.
  - reflexivity.
Defined.

(** C2 on the instance: a refresh of the start position on the initial
    cache. *)
Lemma C2_witness :
  let st' := fst (update_accumulator_refresh_cache (HW := vector_build) WHITE accumulatorBigPtr
                    ft_big startpos zero_state (empty_cache 8)) in
  let entry := empty_cache 8 (square_KING startpos WHITE) WHITE in
  accumulation (acc_get accumulatorBigPtr st') WHITE
    = map (fun k => wrap 16 (column_sum (weights ft_big) 8 (active_features WHITE startpos) k))
          (seq 0 8)
  /\ psqtAccumulation (acc_get accumulatorBigPtr st') WHITE
    = map (fun b => wrap 32 (column_sum (psqtWeights ft_big) PSQTBuckets
                               (active_features WHITE startpos) b))
          (seq 0 PSQTBuckets)
  /\ computed (acc_get accumulatorBigPtr st') WHITE = true
  /\ refresh_delta WHITE startpos entry (square_KING startpos WHITE)
     = (features_of WHITE (square_KING startpos WHITE)
          (fun c pt => Z.land (Z.land (byColorBB entry c) (byTypeBB entry pt))
                              (bb_not (pieces startpos c pt))),
        features_of WHITE (square_KING startpos WHITE)
          (fun c pt => Z.land (pieces startpos c pt)
                              (bb_not (Z.land (byColorBB entry c) (byTypeBB entry pt))))).
Proof.
  apply (C2_refresh_sums_active_features (HW := vector_build) WHITE accumulatorBigPtr ft_big
           startpos zero_state (empty_cache 8)).
  - apply (example_nets_ok accumulatorBigPtr).
  - apply example_board_ok; lia.
  - apply (empty_cache_ok (DirtyPiece := Move) ft_big).
  - apply (example_zero_sized accumulatorBigPtr).
Defined.

(** C5 on the instance: the stack after two pushes, the first a king
    move. *)
Lemma C5_witness :
  exists k,
    find_last_usable_accumulator WHITE accumulatorBigPtr (fst (world king_then_pawn))
    = Some (Z.of_nat k)
    /\ is_last_usable WHITE accumulatorBigPtr (fst (world king_then_pawn)) k
    /\ evaluate_side (HW := vector_build) WHITE accumulatorBigPtr after_Kf1 ft_big
         (empty_cache 8) (fst (world king_then_pawn))
       = evaluate_side_spec (HW := vector_build) WHITE accumulatorBigPtr after_Kf1 ft_big
           (empty_cache 8) (fst (world king_then_pawn)) k.
Proof.
  apply (C5_evaluate_side_strategy (HW := vector_build)).
  - vm_compute. repeat split; intros H; discriminate H.
  - vm_compute. reflexivity.
Defined.

(** C6 on the instance. *)
Lemma C6_witness :
  (forall p accPtr pos (st : AccumulatorState Move) cache,
     pos_ok pos -> cache_ok (net_of networks accPtr) cache ->
     acc_sized (Dimensions (net_of networks accPtr)) (acc_get accPtr st) ->
     let cache' :=
       snd (update_accumulator_refresh_cache (HW := vector_build) p accPtr
              (net_of networks accPtr) pos st cache) in
     let entry := cache' (square_KING pos p) p in
     (forall c, byColorBB entry c = pieces_color pos c)
     /\ (forall pt, byTypeBB entry pt = pieces_type pos pt)
     /\ entry_accumulation entry
        = dense_of (net_of networks accPtr)
            (features_of p (square_KING pos p) (stored_boards entry))
     /\ entry_psqtAccumulation entry
        = psqt_of (net_of networks accPtr)
            (features_of p (square_KING pos p) (stored_boards entry))
     /\ features_of p (square_KING pos p) (stored_boards entry) = active_features p pos
     /\ cache_ok (net_of networks accPtr) cache')
  /\ (forall (s0 s1 : AccumulatorStack Move) rootPos caches caches1,
        pos_ok rootPos -> caches_ok networks caches -> stack_sized networks s0 ->
        AccumulatorStack_reset (HW := vector_build) s0 rootPos networks caches
        = Some (s1, caches1) ->
        caches_ok networks caches1 /\ stack_sized networks s1)
  /\ (forall op (s s' : AccumulatorStack Move) caches caches',
        match op with OpEvaluate _ pos => pos_ok pos | _ => True end ->
        caches_ok networks caches -> stack_sized networks s ->
        run_op (HW := vector_build) networks op (s, caches) = Some (s', caches') ->
        caches_ok networks caches' /\ stack_sized networks s').
Proof.
  apply (C6_cache_invariant (HW := vector_build) networks). apply example_nets_ok.
Defined.

(** C9 on the instance: reset, then a push, an evaluate and a pop. *)
Lemma C9_witness :
  root_computed (fst (world []))
  /\ root_computed
       (fst (world [OpPush e2e4 after_e4; OpEvaluate accumulatorBigPtr after_e4; OpPop]))
  /\ (1 <= m_current_idx
            (fst (world [OpPush e2e4 after_e4; OpEvaluate accumulatorBigPtr after_e4; OpPop])))%Z.
Proof.
  apply (C9_root_stays_computed (HW := vector_build) networks fresh_stack
           (fst (world [])) _ startpos caches (snd (world [])) 
           (snd (world [OpPush e2e4 after_e4; OpEvaluate accumulatorBigPtr after_e4; OpPop]))
           [OpPush e2e4 after_e4; OpEvaluate accumulatorBigPtr after_e4; OpPop]).
  - vm_compute. reflexivity.
  - vm_compute. reflexivity.
  - vm_compute. reflexivity.
Defined.

(** C10 on the instance: after a king move and a pawn move, the refresh
    branch is taken with [end = 1]. *)
Lemma C10_witness :
  (1 <= 1 < m_current_idx (fst (world king_then_pawn)))%Z
  /\ exists accesses,
       backward_accesses (length (m_accumulators (fst (world king_then_pawn)))) 1
         (size_t_sub (m_current_idx (fst (world king_then_pawn))) 2) = Some accesses
       /\ forall target source, (target, source) ∈ accesses ->
            (1 <= target <= m_current_idx (fst (world king_then_pawn)) - 2)%Z
            /\ source = (target + 1)%Z
            /\ (1 + 1 <= source <= m_current_idx (fst (world king_then_pawn)) - 1)%Z.
Proof.
  apply (C10_backward_stays_in_range WHITE accumulatorBigPtr
           (fst (world king_then_pawn)) 1).
  - vm_compute. repeat split; intros H; discriminate H.
  - vm_compute. reflexivity.
  - vm_compute. reflexivity.
  - vm_compute. reflexivity.
Defined.

(** C10 as stated fails: on the stack reached by reset, a king move and
    a pawn move ([current_idx = 3]), [evaluate] for WHITE takes the
    refresh branch with [end = 1], and the loop reads
    [m_accumulators[2]], outside [end, current_idx - 2] = [1, 1]. *)
Lemma C10_counterexample :
  let s := fst (world king_then_pawn) in
  m_current_idx s = 3%Z
  /\ find_last_usable_accumulator WHITE accumulatorBigPtr s = Some 1%Z
  /\ is_computed WHITE accumulatorBigPtr (stack_at s 1) = false
  /\ backward_accesses (length (m_accumulators s)) 1 (size_t_sub (m_current_idx s) 2)
     = Some [(1%Z, 2%Z)]
  /\ ~ (forall target source,
          (target, source) ∈ [(1%Z, 2%Z)] ->
          (1 <= target <= m_current_idx s - 2)%Z /\ (1 <= source <= m_current_idx s - 2)%Z).
Proof.
  split; [by vm_compute|]. split; [by vm_compute|]. split; [by vm_compute|].
  split; [by vm_compute|].
  intros H. destruct (H 1%Z 2%Z) as [_ [_ Hs]]; [by left|].
  vm_compute in Hs. by apply Hs.
Qed.

Lemma example_pawn_delta p : delta_ok p e2e4 startpos after_e4.
Proof.
  intros _. split; [by destruct p|].
  exists [index_of p 12 (WHITE, PAWN) (square_KING after_e4 p)],
         [index_of p 28 (WHITE, PAWN) (square_KING after_e4 p)].
  split; [reflexivity|]. split; [repeat split; simpl; lia|].
  destruct p; apply (bool_decide_unpack _); vm_compute; exact I.
Qed.

Lemma example_king_delta p : delta_ok p Ke1f1 after_e4 after_Kf1.
Proof.
  destruct p; intros Hr; [discriminate Hr|]. split; [done|].
  exists [index_of BLACK 4 (WHITE, KING) 7], [index_of BLACK 5 (WHITE, KING) 7].
  split; [reflexivity|]. split; [repeat split; simpl; lia|].
  apply (bool_decide_unpack _); vm_compute; exact I.
Qed.

(** C1 on the instance: a pawn move, an evaluation of the small network,
    a king move, then the evaluation of the big network. *)
Lemma C1_witness :
  exists s1 caches1 s' caches' st,
    AccumulatorStack_reset (HW := vector_build) fresh_stack startpos networks caches
    = Some (s1, caches1)
    /\ run_ops (HW := vector_build) networks
         (pawn_then_king ++ [OpEvaluate accumulatorBigPtr after_Kf1]) (s1, caches1)
       = Some (s', caches')
    /\ latest s' = Some st
    /\ forall p,
         computed (acc_get accumulatorBigPtr st) p = true
         /\ accumulation (acc_get accumulatorBigPtr st) p
            = dense_of (net_of networks accumulatorBigPtr) (active_features p after_Kf1)
         /\ psqtAccumulation (acc_get accumulatorBigPtr st) p
            = psqt_of (net_of networks accumulatorBigPtr) (active_features p after_Kf1)
         /\ forall fresh : AccumulatorState Move,
              acc_sized (Dimensions (net_of networks accumulatorBigPtr))
                (acc_get accumulatorBigPtr fresh) ->
              accumulation (acc_get accumulatorBigPtr st) p
              = accumulation
                  (acc_get accumulatorBigPtr
                     (refresh_from_scratch (HW := vector_build) p accumulatorBigPtr
                        (net_of networks accumulatorBigPtr) after_Kf1 fresh)) p
              /\ psqtAccumulation (acc_get accumulatorBigPtr st) p
                 = psqtAccumulation
                     (acc_get accumulatorBigPtr
                        (refresh_from_scratch (HW := vector_build) p accumulatorBigPtr
                           (net_of networks accumulatorBigPtr) after_Kf1 fresh)) p.
Proof.
  apply (C1_evaluate_matches_refresh (HW := vector_build) networks fresh_stack startpos caches
           pawn_then_king accumulatorBigPtr after_Kf1).
  - apply example_nets_ok.
  - apply example_caches_ok.
  - apply example_board_ok; lia.
  - apply example_stack_sized.
  - simpl. lia.
  - vm_compute. reflexivity.
  - simpl. split; [lia|]. split; [apply example_board_ok; lia|].
    split; [exists startpos; split; [reflexivity | apply example_pawn_delta]|].
    split; [reflexivity|].
    split; [lia|]. split; [apply example_board_ok; lia|].
    split; [exists after_e4; split; [reflexivity | apply example_king_delta]|].
    split; [reflexivity | exact I].
Defined.

(** * Further properties of the kernels *)

Section KernelFrames.
Context {DirtyPiece : Type} `{FS : FeatureSet DirtyPiece} `{HW : SIMD}.
Local Abbreviation State := (AccumulatorState DirtyPiece).

Lemma side_view_acc_set a' p' accPtr p (st : State) (acc : Accumulator) :
  (a', p') <> (accPtr, p) ->
  accumulation acc p' = accumulation (acc_get accPtr st) p' \/ a' <> accPtr ->
  psqtAccumulation acc p' = psqtAccumulation (acc_get accPtr st) p' \/ a' <> accPtr ->
  computed acc p' = computed (acc_get accPtr st) p' \/ a' <> accPtr ->
  side_view a' p' (acc_set accPtr st acc) = side_view a' p' st.
Proof.
  intros Hne H1 H2 H3. unfold side_view.
  destruct (decide (a' = accPtr)) as [->|Ha].
  - rewrite acc_get_set.
    destruct H1 as [->|]; [|done]. destruct H2 as [->|]; [|done].
    by destruct H3 as [->|].
  - by rewrite acc_get_set_ne.
Qed.

Lemma side_view_apply a' p' p accPtr ft (from to : State) ops idxs :
  (a', p') <> (accPtr, p) ->
  side_view a' p' (apply p accPtr ft from to ops idxs) = side_view a' p' to.
Proof.
  intros Hne. unfold apply. apply (side_view_acc_set a' p' accPtr p); [done|..]; cbn.
  - destruct (decide (a' = accPtr)) as [->|]; [left|by right].
    rewrite set_color_ne; [done|]. congruence.
  - destruct (decide (a' = accPtr)) as [->|]; [left|by right].
    rewrite set_color_ne; [done|]. congruence.
  - by left.
Qed.

Lemma side_view_set_computed a' p' p accPtr (st : State) b :
  (a', p') <> (accPtr, p) ->
  side_view a' p' (set_computed accPtr st p b) = side_view a' p' st.
Proof.
  intros Hne. unfold set_computed. apply (side_view_acc_set a' p' accPtr p); [done|..]; cbn.
  - by left.
  - by left.
  - destruct (decide (a' = accPtr)) as [->|]; [left|by right].
    rewrite set_color_ne; [done|]. congruence.
Qed.

Lemma incremental_side_view p dir accPtr ft ksq (target source t' : State) a' p' :
  update_accumulator_incremental p dir accPtr ft ksq target source = Some t' ->
  (a', p') <> (accPtr, p) ->
  side_view a' p' t' = side_view a' p' target.
Proof.
  intros H Hne. apply incremental_inv in H as (ops & idxs & ->).
  by rewrite side_view_set_computed, side_view_apply.
Qed.

Lemma refresh_side_view p accPtr ft pos (st : State) cache a' p' :
  (a', p') <> (accPtr, p) ->
  side_view a' p' (fst (update_accumulator_refresh_cache p accPtr ft pos st cache))
  = side_view a' p' st.
Proof.
  intros Hne. unfold update_accumulator_refresh_cache.
  destruct (refresh_delta _ _ _ _) as [removed added]. cbn [fst].
  apply (side_view_acc_set a' p' accPtr p); [done|..]; cbn [accumulation psqtAccumulation computed].
  - destruct (decide (a' = accPtr)) as [->|]; [left|by right].
    rewrite set_color_ne by congruence.
    unfold set_computed. by rewrite acc_get_set.
  - destruct (decide (a' = accPtr)) as [->|]; [left|by right].
    rewrite set_color_ne by congruence.
    unfold set_computed. by rewrite acc_get_set.
  - destruct (decide (a' = accPtr)) as [->|]; [left|by right].
    unfold set_computed. rewrite acc_get_set. cbn.
    rewrite set_color_ne; [done|]. congruence.
Qed.

(** X1: the incremental kernel writes one perspective of one accumulator:
    when it succeeds, the target keeps its dirty piece, and the vectors
    and the flag of the other perspective and of the other network are
    those of the target before the call. *)
Theorem incremental_kernel_frame p dir accPtr ft ksq (target source t' : State) :
  update_accumulator_incremental p dir accPtr ft ksq target source = Some t' ->
  dirtyPiece t' = dirtyPiece target
  /\ forall a' p', (a', p') <> (accPtr, p) -> side_view a' p' t' = side_view a' p' target.
Proof.
  intros H. split.
  - by apply incremental_flags in H as (_ & ? & _).
  - intros a' p' Hne. by apply (incremental_side_view _ _ _ _ _ _ _ _ _ _ H).
Qed.

(** X2: the refresh kernel writes one perspective of one accumulator and one
    cache entry: the state keeps its dirty piece and the vectors and flag
    of the other perspective and of the other network, and every cache
    entry but the one of the position's king square and the perspective
    is left as it was. *)
Theorem refresh_kernel_frame p accPtr ft pos (st : State) cache :
  dirtyPiece (fst (update_accumulator_refresh_cache p accPtr ft pos st cache)) = dirtyPiece st
  /\ (forall a' p', (a', p') <> (accPtr, p) ->
        side_view a' p' (fst (update_accumulator_refresh_cache p accPtr ft pos st cache))
        = side_view a' p' st)
  /\ (forall sq c, (sq, c) <> (square_KING pos p, p) ->
        snd (update_accumulator_refresh_cache p accPtr ft pos st cache) sq c = cache sq c).
Proof.
  split; [|split].
  - by destruct (refresh_flags p accPtr ft pos st cache) as (_ & ? & _).
  - intros a' p' Hne. by apply refresh_side_view.
  - intros sq c Hne. unfold update_accumulator_refresh_cache.
    destruct (refresh_delta _ _ _ _) as [removed added]. cbn [snd].
    apply cache_set_ne. intros [-> ->]. done.
Qed.

End KernelFrames.

Section RefreshMore.
Context {DirtyPiece : Type} `{FS : FeatureSet DirtyPiece} `{HW : SIMD}.
Local Abbreviation State := (AccumulatorState DirtyPiece).

(** The refresh kernel on any entry of the right shape, whatever its
    snapshot holds. *)
Lemma refresh_on_entry p accPtr ft pos (st : State) cache :
  simd_ok (Dimensions ft) -> pos_ok pos ->
  (forall c, bb_ok (byColorBB (cache (square_KING pos p) p) c)) ->
  length (entry_accumulation (cache (square_KING pos p) p)) = Dimensions ft ->
  length (entry_psqtAccumulation (cache (square_KING pos p) p)) = PSQTBuckets ->
  acc_sized (Dimensions ft) (acc_get accPtr st) ->
  let ksq := square_KING pos p in
  let entry := cache ksq p in
  let removed := features_of p ksq (to_remove (stored_boards entry) (pieces pos)) in
  let added := features_of p ksq (to_remove (pieces pos) (stored_boards entry)) in
  let dense := map (fun i => refresh_lane 16 (weights ft) (Dimensions ft) removed added i
                               (entry_accumulation entry !!! i)) (seq 0 (Dimensions ft)) in
  let psqt := map (fun i => refresh_lane 32 (psqtWeights ft) PSQTBuckets removed added i
                              (entry_psqtAccumulation entry !!! i)) (seq 0 PSQTBuckets) in
  update_accumulator_refresh_cache p accPtr ft pos st cache
  = (acc_set accPtr st
       {| accumulation := set_color (accumulation (acc_get accPtr st)) p dense;
          psqtAccumulation := set_color (psqtAccumulation (acc_get accPtr st)) p psqt;
          computed := set_color (computed (acc_get accPtr st)) p true |},
     cache_set cache ksq p
       {| entry_accumulation := dense;
          entry_psqtAccumulation := psqt;
          byColorBB := foldl (fun bb c => set_color bb c (pieces_color pos c))
                         (byColorBB entry) Colors;
          byTypeBB := foldl (fun bb pt => set_type bb pt (pieces_type pos pt))
                        (byTypeBB entry) PieceTypes |}).
Proof.
  intros Hsimd Hpos Hbb Hacc Hpsqt Hsz. cbv zeta.
  unfold update_accumulator_refresh_cache.
  rewrite refresh_delta_spec by (auto using pos_ok_pieces).
  unfold set_computed. rewrite !acc_get_set. cbn [accumulation psqtAccumulation computed].
  destruct (Hsz p) as [HA HP].
  rewrite refresh_paths;
    [| done | apply features_of_length | apply features_of_length | done..].
  cbn [new_accumulation new_psqtAccumulation new_entry_accumulation
       new_entry_psqtAccumulation].
  done.
Qed.

Lemma refresh_lanes_sums w m D removed added (E : list Z) n :
  (0 < w)%Z -> Forall (in_range w) E -> n <= length E ->
  map (fun i => refresh_lane w m D removed added i (E !!! i)) (seq 0 n)
  = map (fun k => wrap w (E !!! k - column_sum m D removed k + column_sum m D added k))
        (seq 0 n).
Proof.
  intros Hw HE Hn. apply map_ext_in. intros i Hi. apply in_seq in Hi.
  rewrite <- (wrap_in_range w (E !!! i)) at 1; [apply refresh_lane_sum | done |].
  apply Forall_lookup_total_1; [done | lia].
Qed.

(** X4: from any cache entry of the right shape, whether or not its
    snapshot matches its boards, the refresh kernel leaves in the state
    and in the entry the same vectors: lane by lane the entry's old
    snapshot minus the removed columns plus the added columns, the two
    index lists being those of [refresh_delta]. *)
Theorem refresh_adds_delta_to_entry p accPtr ft pos (st : State) cache :
  simd_ok (Dimensions ft) -> pos_ok pos ->
  (forall c, bb_ok (byColorBB (cache (square_KING pos p) p) c)) ->
  length (entry_accumulation (cache (square_KING pos p) p)) = Dimensions ft ->
  length (entry_psqtAccumulation (cache (square_KING pos p) p)) = PSQTBuckets ->
  Forall (in_range 16) (entry_accumulation (cache (square_KING pos p) p)) ->
  Forall (in_range 32) (entry_psqtAccumulation (cache (square_KING pos p) p)) ->
  acc_sized (Dimensions ft) (acc_get accPtr st) ->
  let ksq := square_KING pos p in
  let entry := cache ksq p in
  let removed := fst (refresh_delta p pos entry ksq) in
  let added := snd (refresh_delta p pos entry ksq) in
  let r := update_accumulator_refresh_cache p accPtr ft pos st cache in
  accumulation (acc_get accPtr (fst r)) p
  = map (fun k => wrap 16 (entry_accumulation entry !!! k
                           - column_sum (weights ft) (Dimensions ft) removed k
                           + column_sum (weights ft) (Dimensions ft) added k))
        (seq 0 (Dimensions ft))
  /\ psqtAccumulation (acc_get accPtr (fst r)) p
     = map (fun b => wrap 32 (entry_psqtAccumulation entry !!! b
                              - column_sum (psqtWeights ft) PSQTBuckets removed b
                              + column_sum (psqtWeights ft) PSQTBuckets added b))
           (seq 0 PSQTBuckets)
  /\ entry_accumulation (snd r ksq p) = accumulation (acc_get accPtr (fst r)) p
  /\ entry_psqtAccumulation (snd r ksq p) = psqtAccumulation (acc_get accPtr (fst r)) p.
Proof.
  intros Hsimd Hpos Hbb Hacc Hpsqt Hr16 Hr32 Hsz. cbv zeta.
  rewrite refresh_on_entry by done.
  rewrite refresh_delta_spec by (auto using pos_ok_pieces).
  cbn [fst snd]. rewrite acc_get_set, cache_set_eq.
  cbn [accumulation psqtAccumulation entry_accumulation entry_psqtAccumulation].
  rewrite !set_color_eq.
  rewrite (refresh_lanes_sums 16), (refresh_lanes_sums 32) by (done || lia).
  done.
Qed.

Lemma land_bb_not b : bb_ok b -> Z.land b (bb_not b) = 0%Z.
Proof.
  intros Hb. apply Z.bits_inj'. intros i Hi. rewrite Z.land_spec, Z.bits_0.
  destruct (decide (i < 64)%Z).
  - rewrite bb_not_bit by lia. by destruct (Z.testbit b i).
  - rewrite (bb_ok_high b) by (done || lia). done.
Qed.

Lemma features_of_empty p ksq : features_of p ksq (fun _ _ => 0%Z) = [].
Proof. unfold features_of. rewrite squares_0. reflexivity. Qed.

Lemma refreshed_state_acc_sized p accPtr ft pos (st : State) :
  acc_sized (Dimensions ft) (acc_get accPtr st) ->
  acc_sized (Dimensions ft) (acc_get accPtr (refreshed_state p accPtr ft pos st)).
Proof.
  intros Hs p'. unfold refreshed_state. rewrite acc_get_set. simpl.
  unfold set_color. case_decide.
  - unfold dense_of, psqt_of. by rewrite !full_transform_length.
  - apply Hs.
Qed.

Lemma refreshed_state_twice p accPtr ft pos (st : State) a' p' :
  side_view a' p' (refreshed_state p accPtr ft pos (refreshed_state p accPtr ft pos st))
  = side_view a' p' (refreshed_state p accPtr ft pos st).
Proof.
  unfold side_view, refreshed_state.
  destruct (decide (a' = accPtr)) as [->|Hne].
  - rewrite !acc_get_set. cbn [accumulation psqtAccumulation computed].
    unfold set_color. by destruct (decide (p' = p)).
  - by rewrite !acc_get_set_ne.
Qed.

(** X5: a cache hit: right after a refresh, a second refresh of the same
    position finds nothing to remove and nothing to add, and leaves the
    state and the snapshot of the entry as the first refresh left
    them. *)
Theorem refresh_twice_changes_nothing p accPtr ft pos (st : State) cache :
  simd_ok (Dimensions ft) -> pos_ok pos -> cache_ok ft cache ->
  acc_sized (Dimensions ft) (acc_get accPtr st) ->
  let ksq := square_KING pos p in
  let r1 := update_accumulator_refresh_cache p accPtr ft pos st cache in
  let r2 := update_accumulator_refresh_cache p accPtr ft pos (fst r1) (snd r1) in
  refresh_delta p pos (snd r1 ksq p) ksq = ([], [])
  /\ (forall a' p', side_view a' p' (fst r2) = side_view a' p' (fst r1))
  /\ dirtyPiece (fst r2) = dirtyPiece (fst r1)
  /\ entry_accumulation (snd r2 ksq p) = entry_accumulation (snd r1 ksq p)
  /\ entry_psqtAccumulation (snd r2 ksq p) = entry_psqtAccumulation (snd r1 ksq p).
Proof.
  intros Hsimd Hpos Hcache Hsz. cbv zeta.
  destruct (refresh_cache_ok p accPtr ft pos st cache)
    as (c1 & -> & Hc1 & Hcol & Htyp & Hd1 & Hp1 & _); [done..|].
  cbn [fst snd].
  destruct (refresh_cache_ok p accPtr ft pos (refreshed_state p accPtr ft pos st) c1)
    as (c2 & -> & Hc2 & _ & _ & Hd2 & Hp2 & _);
    [done | done | done | by apply refreshed_state_acc_sized |].
  cbn [fst snd]. split; [|split; [|split; [|split]]].
  - rewrite refresh_delta_spec; [|apply Hc1 | auto using pos_ok_pieces].
    assert (forall c pt, stored_boards (c1 (square_KING pos p) p) c pt = pieces pos c pt) as Hst.
    { intros c pt. unfold stored_boards. rewrite Hcol, Htyp. symmetry. apply Hpos. }
    rewrite (features_of_ext p _ (to_remove _ (pieces pos)) (fun _ _ => 0%Z)),
            (features_of_ext p _ (to_remove (pieces pos) _) (fun _ _ => 0%Z)).
    + by rewrite features_of_empty.
    + intros c pt. unfold to_remove. rewrite Hst. apply land_bb_not. by apply pos_ok_pieces.
    + intros c pt. unfold to_remove. rewrite Hst. apply land_bb_not. by apply pos_ok_pieces.
  - intros a' p'. apply refreshed_state_twice.
  - unfold refreshed_state. by rewrite !dirtyPiece_acc_set.
  - by rewrite Hd1, Hd2.
  - by rewrite Hp1, Hp2.
Qed.

End RefreshMore.

Section KernelMore.
Context {DirtyPiece : Type} `{FS : FeatureSet DirtyPiece}.
Local Abbreviation State := (AccumulatorState DirtyPiece).

Lemma apply_build_independent (HW1 HW2 : SIMD) p accPtr ft (from to : State) ops idxs :
  lanes_ok (H := HW1) (Dimensions ft) -> lanes_ok (H := HW2) (Dimensions ft) ->
  acc_sized (Dimensions ft) (acc_get accPtr to) ->
  apply (HW := HW1) p accPtr ft from to ops idxs
  = apply (HW := HW2) p accPtr ft from to ops idxs.
Proof.
  intros H1 H2 Hsz. destruct (Hsz p) as [HA HP].
  by rewrite (apply_spec (HW := HW1)), (apply_spec (HW := HW2)).
Qed.

Lemma incremental_build_independent (HW1 HW2 : SIMD) p dir accPtr ft ksq
    (target source : State) :
  lanes_ok (H := HW1) (Dimensions ft) -> lanes_ok (H := HW2) (Dimensions ft) ->
  acc_sized (Dimensions ft) (acc_get accPtr target) ->
  update_accumulator_incremental (HW := HW1) p dir accPtr ft ksq target source
  = update_accumulator_incremental (HW := HW2) p dir accPtr ft ksq target source.
Proof.
  intros H1 H2 Hsz. unfold update_accumulator_incremental.
  destruct (incremental_indices p dir ksq target source) as [removed added].
  by rewrite !(apply_build_independent HW1 HW2).
Qed.

(** X7: the incremental kernel does not depend on the width of the vector
    registers: two builds whose lane counts divide the dimensions
    return the same target, or fail alike. *)
Theorem incremental_kernel_build_independent (HW1 HW2 : SIMD) p dir accPtr ft ksq
    (target source : State) :
  lanes_ok (H := HW1) (Dimensions ft) -> lanes_ok (H := HW2) (Dimensions ft) ->
  acc_sized (Dimensions ft) (acc_get accPtr target) ->
  update_accumulator_incremental (HW := HW1) p dir accPtr ft ksq target source
  = update_accumulator_incremental (HW := HW2) p dir accPtr ft ksq target source.
Proof. apply incremental_build_independent. Qed.

End KernelMore.

(** * Further properties of the stack *)

Section StackMore.
Context {DirtyPiece : Type} `{FS : FeatureSet DirtyPiece} `{HW : SIMD}.
Local Abbreviation State := (AccumulatorState DirtyPiece).
Local Abbreviation Stack := (AccumulatorStack DirtyPiece).

(** X8: [evaluate] only ever sets flags: it keeps [m_current_idx], the
    capacity and every dirty piece, and a flag that was set before the
    call is set after it, in every state of the stack. *)
Theorem evaluate_only_sets_flags accPtr pos ft cache (s s' : Stack) cache' :
  evaluate accPtr pos ft cache s = Some (s', cache') ->
  m_current_idx s' = m_current_idx s
  /\ length (m_accumulators s') = length (m_accumulators s)
  /\ forall i st, m_accumulators s !! i = Some st ->
       exists st', m_accumulators s' !! i = Some st'
         /\ dirtyPiece st' = dirtyPiece st
         /\ forall a p, computed (acc_get a st) p = true -> computed (acc_get a st') p = true.
Proof.
  intros H. destruct (evaluate_le _ _ _ _ _ _ _ H) as (Hi & Hl & Hst).
  do 2 (split; [done|]). intros i st Hs.
  destruct (Hst i st Hs) as (st' & ? & ? & ?). by exists st'.
Qed.

Lemma forward_loop_done p accPtr ft ksq fuel (s : Stack) next :
  (m_current_idx s <= next)%Z -> forward_loop fuel p accPtr ft ksq s next = Some s.
Proof.
  intros Hn. assert ((next <? m_current_idx s)%Z = false) as E by (apply Z.ltb_ge; lia).
  destruct fuel; simpl; by rewrite E.
Qed.

Lemma evaluate_side_noop p accPtr pos ft cache (s : Stack) :
  idx_ok s -> is_computed p accPtr (latest s) = true ->
  evaluate_side p accPtr pos ft cache s = Some (s, cache).
Proof.
  intros [[H1 H2] H3] Hc. unfold stack_size in *.
  unfold evaluate_side, find_last_usable_accumulator.
  unfold latest in Hc. rewrite size_t_sub_small in Hc |- * by lia.
  destruct (stack_at s (m_current_idx s - 1)) as [st|] eqn:Hst; [|done].
  cbn [is_computed] in Hc.
  assert (find_last_usable_loop (length (m_accumulators s)) p accPtr s (m_current_idx s - 1)
          = Some (m_current_idx s - 1)%Z) as ->.
  { destruct (length (m_accumulators s)) as [|fuel] eqn:Hlen; [lia|]. simpl.
    destruct (0 <? m_current_idx s - 1)%Z eqn:E.
    - by rewrite Hst; cbn [mbind option_bind assert]; rewrite Hc.
    - apply Z.ltb_ge in E. f_equal. lia. }
  cbn [mbind option_bind assert]. rewrite Hst. cbn [mbind option_bind assert]. rewrite Hc.
  unfold forward_update_incremental, stack_size.
  replace (m_current_idx s - 1 <? Z.of_nat (length (m_accumulators s)))%Z with true
    by (symmetry; apply Z.ltb_lt; lia).
  cbn [mbind option_bind assert]. rewrite Hst. cbn [is_computed]. rewrite Hc. cbn [mbind option_bind assert].
  rewrite size_t_add_small by lia.
  rewrite forward_loop_done by lia. cbn [mbind option_bind assert].
  unfold latest. rewrite size_t_sub_small by lia. rewrite Hst. cbn [is_computed].
  by rewrite Hc.
Qed.

(** X9: evaluation is lazy: when the latest state is already computed for
    both perspectives of the selected network, [evaluate] returns the
    stack and the cache it was given, unchanged. *)
Theorem evaluate_computed_is_noop accPtr pos ft cache (s : Stack) :
  idx_ok s ->
  (forall p, is_computed p accPtr (latest s) = true) ->
  evaluate accPtr pos ft cache s = Some (s, cache).
Proof.
  intros Hi Hc. unfold evaluate.
  rewrite evaluate_side_noop by done. cbn [mbind option_bind assert].
  by apply evaluate_side_noop.
Qed.

Lemma find_loop_ignores_root p accPtr (s : Stack) st :
  forall fuel curr_idx,
    find_last_usable_loop fuel p accPtr (stack_set s 0 st) curr_idx
    = find_last_usable_loop fuel p accPtr s curr_idx.
Proof.
  induction fuel as [|fuel IH]; intros curr_idx; simpl; [done|].
  destruct (0 <? curr_idx)%Z eqn:E; [|done]. apply Z.ltb_lt in E.
  unfold stack_at, stack_set. cbn [m_accumulators].
  rewrite list_lookup_insert_ne by lia.
  destruct (m_accumulators s !! Z.to_nat curr_idx) as [x|]; [|done]. cbn [mbind option_bind assert].
  by rewrite IH.
Qed.

(** X10: [find_last_usable_accumulator] never examines the root state: its
    result is the same whatever [m_accumulators[0]] holds.  A result of
    0 therefore says nothing about the root. *)
Theorem find_last_usable_ignores_root p accPtr (s : Stack) (st : State) :
  find_last_usable_accumulator p accPtr (stack_set s 0 st)
  = find_last_usable_accumulator p accPtr s.
Proof.
  unfold find_last_usable_accumulator, stack_set. cbn [m_accumulators m_current_idx].
  rewrite length_insert. apply (find_loop_ignores_root p accPtr s st).
Qed.

Lemma backward_loop_end_0 p accPtr ft ksq :
  forall fuel (s : Stack) next,
    (0 <= next)%Z -> backward_loop fuel p accPtr ft ksq 0 s next = None.
Proof.
  induction fuel as [|fuel IH]; intros s next Hn; simpl;
    (replace (0 <=? next)%Z with true by (symmetry; apply Z.leb_le; lia)); [done|].
  destruct (stack_at s next) as [target|]; [|done]. cbn [mbind option_bind assert].
  destruct (stack_at s (size_t_add next 1)) as [source|]; [|done]. cbn [mbind option_bind assert].
  destruct (update_accumulator_incremental _ _ _ _ _ _ _) as [t'|]; [|done]. cbn [mbind option_bind assert].
  apply IH. unfold size_t_sub. apply Z.mod_pos_bound. done.
Qed.

(** X11: with [end = 0] the loop of [backward_update_incremental] cannot
    stop: its condition [next >= 0] holds for every unsigned [next], so
    the index wraps around and leaves the array.  No call with
    [end = 0] returns. *)
Theorem backward_update_never_returns_for_end_0 p accPtr pos ft (s : Stack) :
  backward_update_incremental p accPtr pos ft 0 s = None.
Proof.
  destruct (backward_update_incremental p accPtr pos ft 0 s) as [s'|] eqn:H; [|done].
  exfalso. unfold backward_update_incremental in H.
  apply bind_assert in H as [_ H]. apply bind_assert in H as [_ H].
  apply bind_assert in H as [_ H].
  rewrite backward_loop_end_0 in H; [done|].
  unfold size_t_sub. apply Z.mod_pos_bound. done.
Qed.

(** X12: [push] writes the slot at [m_current_idx] and nothing else: the new
    latest state is the old content of that slot after
    [AccumulatorState::reset], and every other state is untouched. *)
Theorem push_resets_next_slot (s s' : Stack) dp :
  idx_ok s -> push s dp = Some s' ->
  exists st,
    stack_at s (m_current_idx s) = Some st
    /\ latest s' = Some (AccumulatorState_reset st dp)
    /\ m_current_idx s' = (m_current_idx s + 1)%Z
    /\ forall i, i <> Z.to_nat (m_current_idx s) ->
         m_accumulators s' !! i = m_accumulators s !! i.
Proof.
  intros [[H1 H2] H3] H. unfold push in H. unfold stack_size in *.
  apply bind_assert in H as [Ha H].
  apply bind_Some in H as (st & Hst & H). injection H as <-.
  exists st. split; [done|].
  unfold stack_at in Hst. pose proof (lookup_lt_Some _ _ _ Hst) as Hlt.
  unfold latest, stack_at, stack_set. cbn [m_accumulators m_current_idx].
  rewrite size_t_add_small by lia. rewrite size_t_sub_small by lia.
  replace (m_current_idx s + 1 - 1)%Z with (m_current_idx s) by lia.
  split; [by rewrite list_lookup_insert_eq|]. split; [done|].
  intros i Hi. by rewrite list_lookup_insert_ne.
Qed.

(** X13: [push] followed by [pop] restores [m_current_idx], the latest state
    and every state in use; only the slot above them, which [push]
    reset, differs. *)
Theorem push_pop_restores (s s1 : Stack) dp :
  idx_ok s -> push s dp = Some s1 ->
  exists s2,
    pop s1 = Some s2
    /\ m_current_idx s2 = m_current_idx s
    /\ latest s2 = latest s
    /\ length (m_accumulators s2) = length (m_accumulators s)
    /\ forall i, (Z.of_nat i < m_current_idx s)%Z ->
         m_accumulators s2 !! i = m_accumulators s !! i.
Proof.
  intros [[H1 H2] H3] H. unfold push in H. unfold stack_size in *.
  apply bind_assert in H as [Ha H].
  apply bind_Some in H as (st & Hst & H). injection H as <-.
  unfold stack_at in Hst. pose proof (lookup_lt_Some _ _ _ Hst) as Hlt.
  unfold pop, stack_set. cbn [m_accumulators m_current_idx].
  rewrite size_t_add_small by lia.
  replace (1 <? m_current_idx s + 1)%Z with true by (symmetry; apply Z.ltb_lt; lia).
  cbn [mbind option_bind assert]. eexists. split; [done|]. cbn [m_accumulators m_current_idx].
  rewrite size_t_sub_small by lia.
  replace (m_current_idx s + 1 - 1)%Z with (m_current_idx s) by lia.
  split; [done|]. split; [|split].
  - unfold latest, stack_at. cbn [m_accumulators m_current_idx].
    rewrite size_t_sub_small by lia. by rewrite list_lookup_insert_ne by lia.
  - by rewrite length_insert.
  - intros i Hi. by rewrite list_lookup_insert_ne by lia.
Qed.

Lemma push_succeeds (s : Stack) dp :
  idx_ok s ->
  (m_current_idx s + 1 < stack_size s)%Z ->
  exists s', push s dp = Some s' /\ idx_ok s'
    /\ m_current_idx s' = (m_current_idx s + 1)%Z /\ stack_size s' = stack_size s.
Proof.
  intros [[H1 H2] H3] Hlt. unfold push, stack_size in *.
  rewrite size_t_add_small by lia.
  replace (m_current_idx s + 1 <? Z.of_nat (length (m_accumulators s)))%Z with true
    by (symmetry; apply Z.ltb_lt; lia).
  cbn [mbind option_bind assert]. unfold stack_at.
  destruct (lookup_lt_is_Some_2 (m_accumulators s) (Z.to_nat (m_current_idx s)) ltac:(lia))
    as [st ->].
  cbn [mbind option_bind assert]. eexists. split; [done|]. unfold idx_ok, stack_size, stack_set.
  cbn [m_accumulators m_current_idx]. rewrite length_insert.
  rewrite size_t_add_small by lia. lia.
Qed.

Lemma push_fails (s : Stack) dp :
  idx_ok s -> (stack_size s <= m_current_idx s + 1)%Z -> push s dp = None.
Proof.
  intros [[H1 H2] H3] Hge. destruct (push s dp) as [s'|] eqn:H; [|done]. exfalso.
  unfold push, stack_size in *.
  apply bind_assert in H as [Ha H].
  apply bind_Some in H as (st & Hst & _).
  unfold stack_at in Hst. apply lookup_lt_Some in Hst.
  rewrite size_t_add_small in Ha by lia. apply Z.ltb_lt in Ha. lia.
Qed.

(** X14: the depth bound of the stack: a line of moves can be pushed exactly
    when [m_current_idx] plus its length stays below the capacity.  The
    last slot of the array is thus never in use: after [reset], a stack
    of capacity [n] takes at most [n - 2] moves. *)
Theorem push_all_depth_bound (s : Stack) (dps : list DirtyPiece) :
  idx_ok s -> dps <> [] ->
  (is_Some (push_all s dps)
   <-> (m_current_idx s + Z.of_nat (length dps) < stack_size s)%Z).
Proof.
  revert s. induction dps as [|dp dps IH]; intros s Hi Hne; [done|].
  cbn [push_all length].
  destruct (decide (m_current_idx s + 1 < stack_size s)%Z) as [Hlt|Hge].
  - destruct (push_succeeds s dp Hi Hlt) as (s' & -> & Hi' & Hidx & Hsz). cbn [mbind option_bind assert].
    destruct dps as [|dp' dps'].
    + cbn [push_all length]. split; [intros _; lia | by eauto].
    + rewrite IH by done. rewrite Hidx, Hsz. cbn [length]. lia.
  - rewrite push_fails by (done || lia). cbn [mbind option_bind assert]. split; [by intros [? ?]|]. lia.
Qed.

End StackMore.

(** X15: the loop [while (bb) { sq = pop_lsb(bb); ... }] of the refresh
    kernel visits exactly the squares set in a 64-bit board, in
    increasing order, and is over within 64 rounds. *)
Theorem pop_lsb_loop_visits_squares bb (f : Square -> IndexType) out :
  bb_ok bb -> push_squares 64 bb f out = out ++ map f (squares bb).
Proof. apply push_squares_spec. Qed.

Section EvaluateFrames.
Context {DirtyPiece : Type} `{FS : FeatureSet DirtyPiece} `{HW : SIMD}.
Local Abbreviation State := (AccumulatorState DirtyPiece).
Local Abbreviation Stack := (AccumulatorStack DirtyPiece).

Lemma stack_set_views a' p' (s : Stack) i (st st' : State) :
  stack_at s i = Some st -> side_view a' p' st' = side_view a' p' st ->
  side_view a' p' <$> m_accumulators (stack_set s i st')
  = side_view a' p' <$> m_accumulators s.
Proof.
  intros Hi Hv. unfold stack_at in Hi. unfold stack_set. cbn [m_accumulators].
  rewrite list_fmap_insert, Hv. apply list_insert_id.
  by rewrite list_lookup_fmap, Hi.
Qed.

Lemma forward_loop_views p accPtr ft ksq a' p' :
  (a', p') <> (accPtr, p) ->
  forall fuel (s s' : Stack) next,
    forward_loop fuel p accPtr ft ksq s next = Some s' ->
    side_view a' p' <$> m_accumulators s' = side_view a' p' <$> m_accumulators s.
Proof.
  intros Hne. induction fuel as [|fuel IH]; intros s s' next H; simpl in H.
  - destruct (next <? m_current_idx s)%Z; [done|]. by injection H as <-.
  - destruct (next <? m_current_idx s)%Z; [|by injection H as <-].
    apply bind_Some in H as (target & Ht & H).
    apply bind_Some in H as (source & Hs & H).
    apply bind_Some in H as (t' & Hk & H).
    rewrite (IH _ _ _ H). apply (stack_set_views a' p' s next target t' Ht).
    by eapply incremental_side_view.
Qed.

Lemma backward_loop_views p accPtr ft ksq end_ a' p' :
  (a', p') <> (accPtr, p) ->
  forall fuel (s s' : Stack) next,
    backward_loop fuel p accPtr ft ksq end_ s next = Some s' ->
    side_view a' p' <$> m_accumulators s' = side_view a' p' <$> m_accumulators s.
Proof.
  intros Hne. induction fuel as [|fuel IH]; intros s s' next H; simpl in H.
  - destruct (end_ <=? next)%Z; [done|]. by injection H as <-.
  - destruct (end_ <=? next)%Z; [|by injection H as <-].
    apply bind_Some in H as (target & Ht & H).
    apply bind_Some in H as (source & Hs & H).
    apply bind_Some in H as (t' & Hk & H).
    rewrite (IH _ _ _ H). apply (stack_set_views a' p' s next target t' Ht).
    by eapply incremental_side_view.
Qed.

Lemma evaluate_side_views p accPtr pos ft cache (s s' : Stack) cache' a' p' :
  evaluate_side p accPtr pos ft cache s = Some (s', cache') ->
  (a', p') <> (accPtr, p) ->
  side_view a' p' <$> m_accumulators s' = side_view a' p' <$> m_accumulators s.
Proof.
  unfold evaluate_side. intros H Hne.
  apply bind_Some in H as (k & Hk & H).
  apply bind_Some in H as (stk & Hstk & H).
  destruct (computed (acc_get accPtr stk) p).
  - apply bind_Some in H as (s1 & H1 & H). injection H as <- <-.
    unfold forward_update_incremental in H1.
    do 2 apply bind_assert in H1 as [_ H1].
    apply bind_Some in H1 as (s2 & H2 & H1).
    apply bind_assert in H1 as [_ H1]. injection H1 as <-.
    by eapply forward_loop_views.
  - apply bind_Some in H as (stl & Hl & H).
    pose proof (refresh_side_view p accPtr ft pos stl cache a' p' Hne) as Hv.
    destruct (update_accumulator_refresh_cache p accPtr ft pos stl cache) as [stl' c1].
    cbn [fst] in Hv.
    apply bind_Some in H as (s1 & H1 & H). injection H as <- <-.
    unfold backward_update_incremental in H1.
    do 3 apply bind_assert in H1 as [_ H1].
    apply bind_Some in H1 as (s2 & H2 & H1).
    apply bind_assert in H1 as [_ H1]. injection H1 as <-.
    rewrite (backward_loop_views _ _ _ _ _ _ _ Hne _ _ _ _ H2).
    by apply (stack_set_views a' p' s _ stl stl' Hl).
Qed.

(** X16: [evaluate_side<Perspective>] works on one perspective of one
    network: in every state of the stack, the vectors and the flag of
    the other perspective, and those of the other network, are after
    the call what they were before. *)
Theorem evaluate_side_frame p accPtr pos ft cache (s s' : Stack) cache' :
  evaluate_side p accPtr pos ft cache s = Some (s', cache') ->
  forall a' p', (a', p') <> (accPtr, p) ->
    side_view a' p' <$> m_accumulators s' = side_view a' p' <$> m_accumulators s.
Proof. intros H a' p'. by apply (evaluate_side_views p accPtr pos ft cache s s' cache'). Qed.

(** X17: evaluating one network leaves the other network's accumulators
    untouched: vectors and flags of both perspectives, in every state
    of the stack. *)
Theorem evaluate_other_network_untouched accPtr pos ft cache (s s' : Stack) cache' :
  evaluate accPtr pos ft cache s = Some (s', cache') ->
  forall a' p', a' <> accPtr ->
    side_view a' p' <$> m_accumulators s' = side_view a' p' <$> m_accumulators s.
Proof.
  unfold evaluate. intros H a' p' Hne.
  apply bind_Some in H as ([s1 c1] & H1 & H2).
  rewrite (evaluate_side_views _ _ _ _ _ _ _ _ a' p' H2) by congruence.
  apply (evaluate_side_views _ _ _ _ _ _ _ _ a' p' H1). congruence.
Qed.

(** X18: after [evaluate_side], every state from the last usable index up to
    the latest is computed for the perspective, not only the latest: the
    whole path is filled in, forward or backward. *)
Theorem evaluate_side_computes_path p accPtr pos ft cache (s s' : Stack) cache' (k : Z) :
  idx_ok s ->
  is_computed p accPtr (m_accumulators s !! 0) = true ->
  find_last_usable_accumulator p accPtr s = Some k ->
  evaluate_side p accPtr pos ft cache s = Some (s', cache') ->
  forall i, (k <= i < m_current_idx s)%Z -> is_computed p accPtr (stack_at s' i) = true.
Proof.
  intros Hidx Hroot Hfind H i Hi.
  destruct (find_last_usable_spec p accPtr s Hidx) as (k0 & Hk0 & Hlast).
  rewrite Hk0 in Hfind. injection Hfind as <-.
  rewrite (evaluate_side_refines_aux p accPtr pos ft cache s k0) in H by done.
  unfold evaluate_side_spec in H. unfold stack_at.
  destruct Hidx as [[H1 H2] H3]. destruct Hlast as (Hlt & _ & _).
  set (n := Z.to_nat (m_current_idx s)) in *.
  apply bind_Some in H as (stk & Hstk & H).
  destruct (computed (acc_get accPtr stk) p) eqn:Hc.
  - apply bind_Some in H as (s1 & Hp & H). injection H as <- <-.
    apply propagate_le in Hp as [Hle Hall].
    destruct (decide (Z.to_nat i = k0)) as [->|Hne].
    + apply (is_computed_le p accPtr s); [done|]. by rewrite Hstk.
    + apply Hall. apply list_elem_of_In, in_seq. lia.
  - apply bind_Some in H as (stl & Hl & H).
    pose proof (refresh_flags p accPtr ft pos stl cache) as Hrf.
    destruct (update_accumulator_refresh_cache p accPtr ft pos stl cache) as [stl' c1].
    cbn [fst] in Hrf. destruct Hrf as (_ & _ & Hcl).
    apply bind_Some in H as (s1 & Hp & H). injection H as <- <-.
    apply propagate_le in Hp as [Hle Hall].
    destruct (decide (Z.to_nat i = n - 1)) as [->|Hne].
    + apply (is_computed_le p accPtr _ _ _ Hle).
      by rewrite (stack_set_lookup_eq s (n - 1) stl' stl).
    + apply Hall. apply list_elem_of_In. apply -> in_rev. apply in_seq. lia.
Qed.

End EvaluateFrames.

(** * The builds agree *)

Section Builds.
Context {DirtyPiece : Type} `{FS : FeatureSet DirtyPiece}.
Local Abbreviation State := (AccumulatorState DirtyPiece).
Local Abbreviation Stack := (AccumulatorStack DirtyPiece).

Lemma refresh_build_independent (HW1 HW2 : SIMD) p accPtr ft pos (st : State) cache :
  simd_ok (H := HW1) (Dimensions ft) -> simd_ok (H := HW2) (Dimensions ft) ->
  pos_ok pos -> cache_ok ft cache ->
  acc_sized (Dimensions ft) (acc_get accPtr st) ->
  update_accumulator_refresh_cache (HW := HW1) p accPtr ft pos st cache
  = update_accumulator_refresh_cache (HW := HW2) p accPtr ft pos st cache.
Proof.
  intros H1 H2 Hpos Hcache Hsz.
  destruct (Hcache (square_KING pos p) p) as (Hbb & Hd & Hp).
  rewrite (refresh_on_entry (HW := HW1)), (refresh_on_entry (HW := HW2));
    try done; rewrite ?Hd, ?Hp; apply full_transform_length.
Qed.

Lemma forward_loop_build_independent (HW1 HW2 : SIMD) networks p accPtr ksq :
  lanes_ok (H := HW1) (Dimensions (net_of networks accPtr)) ->
  lanes_ok (H := HW2) (Dimensions (net_of networks accPtr)) ->
  forall fuel (s : Stack) next,
    stack_sized networks s ->
    forward_loop (HW := HW1) fuel p accPtr (net_of networks accPtr) ksq s next
    = forward_loop (HW := HW2) fuel p accPtr (net_of networks accPtr) ksq s next.
Proof.
  intros H1 H2. induction fuel as [|fuel IH]; intros s next Hs; simpl; [done|].
  destruct (next <? m_current_idx s)%Z; [|done].
  destruct (stack_at s next) as [target|] eqn:Ht; cbn [mbind option_bind]; [|done].
  destruct (stack_at s (size_t_sub next 1)) as [source|]; cbn [mbind option_bind]; [|done].
  rewrite (incremental_build_independent HW1 HW2) by (done || by eapply Hs).
  destruct (update_accumulator_incremental _ _ _ _ _ _ _) as [t'|] eqn:Hk; cbn [mbind option_bind]; [|done]. apply IH. apply stack_sized_set; [done|].
  eapply (incremental_sized (HW := HW2)); [done| |exact Hk]. by eapply Hs.
Qed.

Lemma backward_loop_build_independent (HW1 HW2 : SIMD) networks p accPtr ksq end_ :
  lanes_ok (H := HW1) (Dimensions (net_of networks accPtr)) ->
  lanes_ok (H := HW2) (Dimensions (net_of networks accPtr)) ->
  forall fuel (s : Stack) next,
    stack_sized networks s ->
    backward_loop (HW := HW1) fuel p accPtr (net_of networks accPtr) ksq end_ s next
    = backward_loop (HW := HW2) fuel p accPtr (net_of networks accPtr) ksq end_ s next.
Proof.
  intros H1 H2. induction fuel as [|fuel IH]; intros s next Hs; simpl; [done|].
  destruct (end_ <=? next)%Z; [|done].
  destruct (stack_at s next) as [target|] eqn:Ht; cbn [mbind option_bind]; [|done].
  destruct (stack_at s (size_t_add next 1)) as [source|]; cbn [mbind option_bind]; [|done].
  rewrite (incremental_build_independent HW1 HW2) by (done || by eapply Hs).
  destruct (update_accumulator_incremental _ _ _ _ _ _ _) as [t'|] eqn:Hk; cbn [mbind option_bind]; [|done]. apply IH. apply stack_sized_set; [done|].
  eapply (incremental_sized (HW := HW2)); [done| |exact Hk]. by eapply Hs.
Qed.

Lemma evaluate_side_build_independent (HW1 HW2 : SIMD) networks p accPtr pos cache
    (s : Stack) :
  nets_ok (HW := HW1) networks -> nets_ok (HW := HW2) networks ->
  pos_ok pos -> stack_sized networks s -> cache_ok (net_of networks accPtr) cache ->
  evaluate_side (HW := HW1) p accPtr pos (net_of networks accPtr) cache s
  = evaluate_side (HW := HW2) p accPtr pos (net_of networks accPtr) cache s.
Proof.
  intros H1 H2 Hpos Hs Hcache. unfold evaluate_side.
  destruct (H1 accPtr) as [Hl1 _]. destruct (H2 accPtr) as [Hl2 _].
  destruct (find_last_usable_accumulator p accPtr s) as [k|]; cbn [mbind option_bind]; [|done].
  destruct (stack_at s k) as [stk|]; cbn [mbind option_bind]; [|done].
  destruct (computed (acc_get accPtr stk) p).
  - unfold forward_update_incremental.
    by rewrite (forward_loop_build_independent HW1 HW2).
  - destruct (stack_at s (size_t_sub (m_current_idx s) 1)) as [stl|] eqn:Hl; cbn [mbind option_bind]; [|done].
    rewrite (refresh_build_independent HW1 HW2) by (done || by eapply Hs).
    destruct (refresh_cache_ok (HW := HW2) p accPtr (net_of networks accPtr) pos stl cache)
      as (c1 & -> & _); [done | done | done | by eapply Hs |].
    unfold backward_update_incremental.
    rewrite (backward_loop_build_independent HW1 HW2); [done..|].
    apply stack_sized_set; [done|]. apply refreshed_state_sized. by eapply Hs.
Qed.

(** X19: [evaluate] does not depend on the build: with [VECTOR] or without,
    and whatever the register width and the tiling, it returns the same
    stack and the same cache, or fails alike. *)
Theorem evaluate_build_independent (HW1 HW2 : SIMD) networks accPtr pos cache (s : Stack) :
  nets_ok (HW := HW1) networks -> nets_ok (HW := HW2) networks ->
  pos_ok pos -> stack_sized networks s -> cache_ok (net_of networks accPtr) cache ->
  evaluate (HW := HW1) accPtr pos (net_of networks accPtr) cache s
  = evaluate (HW := HW2) accPtr pos (net_of networks accPtr) cache s.
Proof.
  intros H1 H2 Hpos Hs Hcache. unfold evaluate.
  rewrite (evaluate_side_build_independent HW1 HW2 networks WHITE accPtr pos cache s
             H1 H2 Hpos Hs Hcache).
  destruct (evaluate_side (HW := HW2) WHITE accPtr pos (net_of networks accPtr) cache s)
    as [[s1 c1]|] eqn:Hw; cbn [mbind option_bind]; [|done].
  destruct (evaluate_side_cache (HW := HW2) networks WHITE accPtr pos cache s s1 c1)
    as [Hs1 Hc1]; [done..|].
  by apply evaluate_side_build_independent.
Qed.

End Builds.

Section Bounds.
Context {DirtyPiece : Type} `{FS : FeatureSet DirtyPiece} `{HW : SIMD}.
Local Abbreviation State := (AccumulatorState DirtyPiece).
Local Abbreviation Stack := (AccumulatorStack DirtyPiece).

Lemma run_op_length networks op (s s' : Stack) caches caches' :
  run_op networks op (s, caches) = Some (s', caches') ->
  length (m_accumulators s') = length (m_accumulators s).
Proof.
  destruct op as [dp after| |accPtr pos]; cbn [run_op]; intros H.
  - apply bind_Some in H as (s1 & H1 & H). injection H as <- <-.
    unfold push in H1. apply bind_assert in H1 as [_ H1].
    apply bind_Some in H1 as (st & _ & H1). injection H1 as <-.
    unfold stack_set. cbn [m_accumulators]. apply length_insert.
  - apply bind_Some in H as (s1 & H1 & H). injection H as <- <-.
    unfold pop in H1. apply bind_assert in H1 as [_ H1]. by injection H1 as <-.
  - apply bind_Some in H as ([s1 c1] & H1 & H). injection H as <- <-.
    by apply evaluate_le in H1 as (_ & ? & _).
Qed.

Lemma run_ops_length networks :
  forall ops (s s' : Stack) caches caches',
    run_ops networks ops (s, caches) = Some (s', caches') ->
    length (m_accumulators s') = length (m_accumulators s).
Proof.
  induction ops as [|op ops IH]; intros s s' caches caches' H; cbn [run_ops] in H.
  - by injection H as <- <-.
  - apply bind_Some in H as ([s1 c1] & H1 & H).
    rewrite (IH _ _ _ _ H). by eapply run_op_length.
Qed.

(** X20: [latest()] and [mut_latest()] never index outside the array: after
    [reset] and any calls of [push], [pop] and [evaluate] that pass
    their assertions, [1 <= m_current_idx <= capacity], the capacity is
    the one the stack started with, and [m_accumulators[m_current_idx - 1]]
    exists. *)
Theorem latest_stays_in_bounds networks (s0 s1 s' : Stack) rootPos caches caches1 caches'
    (ops : list (Op DirtyPiece)) :
  (stack_size s0 < 2 ^ 64)%Z ->
  AccumulatorStack_reset s0 rootPos networks caches = Some (s1, caches1) ->
  run_ops networks ops (s1, caches1) = Some (s', caches') ->
  (1 <= m_current_idx s' <= stack_size s')%Z
  /\ stack_size s' = stack_size s0
  /\ is_Some (latest s').
Proof.
  intros Hsz Hreset Hrun.
  destruct (reset_root _ _ _ _ _ _ Hreset) as (Hroot & Hidx & Hlen).
  assert (idx_ok s1) as Hok1.
  { destruct Hroot as (root & Hr & _). apply lookup_lt_Some in Hr.
    unfold idx_ok, stack_size in *. lia. }
  destruct (run_ops_root networks ops s1 s' caches1 caches' Hok1 Hroot Hrun)
    as [[[H1 H2] H3] _].
  pose proof (run_ops_length _ _ _ _ _ _ Hrun) as Hlen'.
  unfold stack_size in *. split; [done|]. split; [lia|].
  unfold latest, stack_at. rewrite size_t_sub_small by lia.
  apply lookup_lt_is_Some_2. lia.
Qed.

End Bounds.

(** * The further properties on the small instance *)

Lemma example_nets_ok_scalar : nets_ok (HW := scalar_build) networks.
Proof.
  intros a. destruct a; (split; [repeat split; simpl; lia|]); intros H; discriminate H.
Qed.

(** X1 on the instance. *)
Lemma incremental_kernel_frame_witness :
  dirtyPiece pawn_step = dirtyPiece zero_state
  /\ forall a' p', (a', p') <> (accumulatorBigPtr, WHITE) ->
       side_view a' p' pawn_step = side_view a' p' zero_state.
Proof.
  apply (incremental_kernel_frame (HW := vector_build) WHITE FORWARD accumulatorBigPtr
           ft_big 0 zero_state computed_state pawn_step).
  vm_compute. reflexivity.
Defined.

(** X7 on the instance. *)
Lemma incremental_kernel_build_independent_witness :
  update_accumulator_incremental (HW := vector_build) WHITE FORWARD accumulatorBigPtr
    ft_big 0 zero_state computed_state
  = update_accumulator_incremental (HW := scalar_build) WHITE FORWARD accumulatorBigPtr
      ft_big 0 zero_state computed_state.
Proof.
  apply (incremental_kernel_build_independent vector_build scalar_build).
  - repeat split; simpl; lia.
  - repeat split; simpl; lia.
  - intros p. split; reflexivity.
Defined.

(** X4 on the instance. *)
Lemma refresh_adds_delta_to_entry_witness :
  let ksq := square_KING startpos WHITE in
  let entry := caches_big caches ksq WHITE in
  let removed := fst (refresh_delta WHITE startpos entry ksq) in
  let added := snd (refresh_delta WHITE startpos entry ksq) in
  let r := update_accumulator_refresh_cache (HW := vector_build) WHITE accumulatorBigPtr
             ft_big startpos zero_state (caches_big caches) in
  accumulation (acc_get accumulatorBigPtr (fst r)) WHITE
  = map (fun k => wrap 16 (entry_accumulation entry !!! k
                           - column_sum (weights ft_big) (Dimensions ft_big) removed k
                           + column_sum (weights ft_big) (Dimensions ft_big) added k))
        (seq 0 (Dimensions ft_big))
  /\ psqtAccumulation (acc_get accumulatorBigPtr (fst r)) WHITE
     = map (fun b => wrap 32 (entry_psqtAccumulation entry !!! b
                              - column_sum (psqtWeights ft_big) PSQTBuckets removed b
                              + column_sum (psqtWeights ft_big) PSQTBuckets added b))
           (seq 0 PSQTBuckets)
  /\ entry_accumulation (snd r ksq WHITE) = accumulation (acc_get accumulatorBigPtr (fst r)) WHITE
  /\ entry_psqtAccumulation (snd r ksq WHITE)
     = psqtAccumulation (acc_get accumulatorBigPtr (fst r)) WHITE.
Proof.
  apply (refresh_adds_delta_to_entry (HW := vector_build) WHITE accumulatorBigPtr ft_big
           startpos zero_state (caches_big caches)).
  - apply (example_nets_ok accumulatorBigPtr).
  - apply example_board_ok; lia.
  - intros c. vm_compute. split; [discriminate | reflexivity].
  - reflexivity.
  - reflexivity.
  - apply example_zeros_in_range. lia.
  - apply example_zeros_in_range. lia.
  - intros p. split; reflexivity.
Defined.

(** X5 on the instance. *)
Lemma refresh_twice_changes_nothing_witness :
  let ksq := square_KING startpos WHITE in
  let r1 := update_accumulator_refresh_cache (HW := vector_build) WHITE accumulatorBigPtr
              ft_big startpos zero_state (caches_big caches) in
  let r2 := update_accumulator_refresh_cache (HW := vector_build) WHITE accumulatorBigPtr
              ft_big startpos (fst r1) (snd r1) in
  refresh_delta WHITE startpos (snd r1 ksq WHITE) ksq = ([], [])
  /\ (forall a' p', side_view a' p' (fst r2) = side_view a' p' (fst r1))
  /\ dirtyPiece (fst r2) = dirtyPiece (fst r1)
  /\ entry_accumulation (snd r2 ksq WHITE) = entry_accumulation (snd r1 ksq WHITE)
  /\ entry_psqtAccumulation (snd r2 ksq WHITE) = entry_psqtAccumulation (snd r1 ksq WHITE).
Proof.
  apply (refresh_twice_changes_nothing (HW := vector_build) WHITE accumulatorBigPtr ft_big
           startpos zero_state (caches_big caches)).
  - apply (example_nets_ok accumulatorBigPtr).
  - apply example_board_ok; lia.
  - apply (example_caches_ok accumulatorBigPtr).
  - intros p. split; reflexivity.
Defined.

(** X15 on the instance. *)
Lemma pop_lsb_loop_visits_squares_witness :
  push_squares 64 (2 ^ 4 + 2 ^ 12) (fun sq => Z.to_nat sq) [] = [] ++ map (fun sq => Z.to_nat sq) (squares (2 ^ 4 + 2 ^ 12)).
Proof.
  apply (pop_lsb_loop_visits_squares (2 ^ 4 + 2 ^ 12) (fun sq => Z.to_nat sq) []).
  vm_compute. split; [discriminate | reflexivity].
Defined.

Lemma example_ready_sized : stack_sized networks ready_stack.
Proof.
  intros i st Hi.
  repeat (destruct i as [|i];
          [injection Hi as <-; intros a p; destruct a, p; split; reflexivity|]).
  discriminate Hi.
Qed.

Lemma example_corner_ok : pos_ok corner.
Proof.
  split; [|done]. intros c. destruct c; vm_compute; (split; [discriminate | reflexivity]).
Qed.

(** X8 on the instance. *)
Lemma evaluate_only_sets_flags_witness :
  m_current_idx (fst evaluated) = m_current_idx ready_stack
  /\ length (m_accumulators (fst evaluated)) = length (m_accumulators ready_stack)
  /\ forall i st, m_accumulators ready_stack !! i = Some st ->
       exists st', m_accumulators (fst evaluated) !! i = Some st'
         /\ dirtyPiece st' = dirtyPiece st
         /\ forall a p, computed (acc_get a st) p = true -> computed (acc_get a st') p = true.
Proof.
  apply (evaluate_only_sets_flags (HW := vector_build) accumulatorBigPtr corner ft_big
           (caches_big caches) ready_stack (fst evaluated) (snd evaluated)).
  vm_compute. reflexivity.
Defined.

(** X9 on the instance. *)
Lemma evaluate_computed_is_noop_witness :
  evaluate (HW := vector_build) accumulatorBigPtr corner ft_big (snd evaluated) (fst evaluated)
  = Some (fst evaluated, snd evaluated).
Proof.
  apply (evaluate_computed_is_noop (HW := vector_build)).
  - vm_compute. repeat split; intros H; discriminate H.
  - intros p. destruct p; vm_compute; reflexivity.
Defined.

(** X12 on the instance. *)
Lemma push_resets_next_slot_witness :
  exists st,
    stack_at shallow_stack (m_current_idx shallow_stack) = Some st
    /\ latest pushed_stack = Some (AccumulatorState_reset st Ke1f1)
    /\ m_current_idx pushed_stack = (m_current_idx shallow_stack + 1)%Z
    /\ forall i, i <> Z.to_nat (m_current_idx shallow_stack) ->
         m_accumulators pushed_stack !! i = m_accumulators shallow_stack !! i.
Proof.
  apply (push_resets_next_slot shallow_stack pushed_stack Ke1f1).
  - vm_compute. repeat split; intros H; discriminate H.
  - vm_compute. reflexivity.
Defined.

(** X13 on the instance. *)
Lemma push_pop_restores_witness :
  exists s2,
    pop pushed_stack = Some s2
    /\ m_current_idx s2 = m_current_idx shallow_stack
    /\ latest s2 = latest shallow_stack
    /\ length (m_accumulators s2) = length (m_accumulators shallow_stack)
    /\ forall i, (Z.of_nat i < m_current_idx shallow_stack)%Z ->
         m_accumulators s2 !! i = m_accumulators shallow_stack !! i.
Proof.
  apply (push_pop_restores shallow_stack pushed_stack Ke1f1).
  - vm_compute. repeat split; intros H; discriminate H.
  - vm_compute. reflexivity.
Defined.

(** X14 on the instance: from depth 2 in a stack of capacity 4, a line of
    two moves does not fit. *)
Lemma push_all_depth_bound_witness :
  is_Some (push_all shallow_stack [e2e4; Ke1f1])
  <-> (m_current_idx shallow_stack + Z.of_nat (length [e2e4; Ke1f1])
       < stack_size shallow_stack)%Z.
Proof.
  apply (push_all_depth_bound shallow_stack [e2e4; Ke1f1]).
  - vm_compute. repeat split; intros H; discriminate H.
  - discriminate.
Defined.

(** X16 on the instance. *)
Lemma evaluate_side_frame_witness :
  side_view accumulatorBigPtr BLACK <$> m_accumulators (fst white_evaluated)
  = side_view accumulatorBigPtr BLACK <$> m_accumulators ready_stack.
Proof.
  apply (evaluate_side_frame (HW := vector_build) WHITE accumulatorBigPtr corner ft_big
           (caches_big caches) ready_stack (fst white_evaluated) (snd white_evaluated)).
  - vm_compute. reflexivity.
  - discriminate.
Defined.

(** X17 on the instance. *)
Lemma evaluate_other_network_untouched_witness :
  side_view accumulatorSmallPtr WHITE <$> m_accumulators (fst evaluated)
  = side_view accumulatorSmallPtr WHITE <$> m_accumulators ready_stack.
Proof.
  apply (evaluate_other_network_untouched (HW := vector_build) accumulatorBigPtr corner
           ft_big (caches_big caches) ready_stack (fst evaluated) (snd evaluated)).
  - vm_compute. reflexivity.
  - discriminate.
Defined.

(** X18 on the instance: the state between the root and the latest one
    is computed as well. *)
Lemma evaluate_side_computes_path_witness :
  is_computed WHITE accumulatorBigPtr (stack_at (fst white_evaluated) 1) = true.
Proof.
  apply (evaluate_side_computes_path (HW := vector_build) WHITE accumulatorBigPtr corner
           ft_big (caches_big caches) ready_stack (fst white_evaluated)
           (snd white_evaluated) 0).
  - vm_compute. repeat split; intros H; discriminate H.
  - vm_compute. reflexivity.
  - vm_compute. reflexivity.
  - vm_compute. reflexivity.
  - vm_compute. split; [intros H; discriminate H | reflexivity].
Defined.

(** X19 on the instance: the vector build and the build without
    [VECTOR]. *)
Lemma evaluate_build_independent_witness :
  evaluate (HW := vector_build) accumulatorBigPtr corner (net_of networks accumulatorBigPtr)
    (caches_big caches) ready_stack
  = evaluate (HW := scalar_build) accumulatorBigPtr corner (net_of networks accumulatorBigPtr)
      (caches_big caches) ready_stack.
Proof.
  apply (evaluate_build_independent vector_build scalar_build networks accumulatorBigPtr
           corner (caches_big caches) ready_stack).
  - apply example_nets_ok.
  - apply example_nets_ok_scalar.
  - apply example_corner_ok.
  - apply example_ready_sized.
  - apply (example_caches_ok accumulatorBigPtr).
Defined.

(** X20 on the instance: [reset], a [push] and a [pop]. *)
Lemma latest_stays_in_bounds_witness :
  (1 <= m_current_idx (fst (corner_world push_pop)) <= stack_size (fst (corner_world push_pop)))%Z
  /\ stack_size (fst (corner_world push_pop)) = stack_size fresh_stack
  /\ is_Some (latest (fst (corner_world push_pop))).
Proof.
  apply (latest_stays_in_bounds (HW := vector_build) networks fresh_stack
           (fst (corner_world [])) (fst (corner_world push_pop)) corner caches
           (snd (corner_world [])) (snd (corner_world push_pop)) push_pop).
  - vm_compute. reflexivity.
  - vm_compute. reflexivity.
  - vm_compute. reflexivity.
Defined.
